(** * OakInk2 preview toolkit: dataset index, task graph and hydration

    A shallow embedding of [oakink2_toolkit/dataset.py] and the properties
    its specification states about it.

    Conventions of the embedding:
    - a Python [dict] whose iteration order is observable is an association
      list with unique keys, in insertion order ([Dict]);
    - an operation that may raise returns [option] ([None] = an exception
      reached the caller);
    - records that are mutated in place and can be aliased (complex tasks)
      live in a store indexed by references. *)

From Stdlib Require Import ZArith Lia Ascii.
From stdpp Require Import base tactics option list strings gmap.

Open Scope Z_scope.

(** ** Python dictionaries with observable order *)

Module Dict.
Section dict.
Context {K V : Type} `{EqDecision K}.

(** [d[k]], [None] standing for [KeyError]. *)
Fixpoint get (d : list (K * V)) (k : K) : option V :=
    match d with
    | [] => None
    | (k', v) :: d' => if decide (k' = k) then Some v else get d' k
    end.

(** [k in d] *)
Definition mem (d : list (K * V)) (k : K) : bool :=
    match get d k with Some _ => true | None => false end.

(** [d[k] = v]: an existing key keeps its position, a new key goes last. *)
Fixpoint set (d : list (K * V)) (k : K) (v : V) : list (K * V) :=
    match d with
    | [] => [(k, v)]
    | (k', v') :: d' =>
        if decide (k' = k) then (k', v) :: d' else (k', v') :: set d' k v
    end.

(** [list(d.keys())] and [list(d.values())] *)
Definition keys (d : list (K * V)) : list K := d.*1.
Definition values (d : list (K * V)) : list V := d.*2.

(** [{**d1, **d2}] *)
Definition merge (d1 d2 : list (K * V)) : list (K * V) :=
    foldl (λ acc kv, set acc kv.1 kv.2) d1 d2.

(** [{k: v for k, v in d.items() if k != node}] *)
Definition without (d : list (K * V)) (node : K) : list (K * V) :=
    filter (λ kv, kv.1 ≠ node) d.

(** A well-formed dictionary has every key once. *)
Definition wf (d : list (K * V)) : Prop := NoDup (keys d).
End dict.
End Dict.

(** ** External services

    [ast.literal_eval] and [str] come from the Python standard library; the
    embedding takes them as an interface.  [literal_eval] is partial: a
    malformed key raises. *)

Class PyLib := {
  PyVal : Type;
  literal_eval : string → option PyVal;
  py_str : PyVal → string
}.

(** ** The raw dependency graph and node contraction *)

Section Graph.
Context `{PyLib}.

(** [standardize_tuple] *)
Definition standardize_tuple (t : string) : option string :=
  py_str <$> literal_eval t.

(** The raw program dependency graph file: [id_map] and [e]. *)
Record GInfo := mkGInfo {
  id_map : list (string * Z);
  e : list (Z * Z)
}.

(** First loop of [fix_g_info]: the standardized keys missing from the
    name map, in id-map order. *)
Fixpoint node_to_contact (ks : list string) (namemap : list (string * string))
  : option (list string) :=
  match ks with
  | [] => Some []
  | k :: ks' =>
      k' ← standardize_tuple k;
      rest ← node_to_contact ks' namemap;
      Some (if Dict.mem namemap k' then rest else k' :: rest)
  end.

(** Edge part of one contraction: every in-edge source is linked to every
    out-edge target, then the edges touching the node are dropped. *)
Definition contract_edges (es : list (Z * Z)) (node_id : Z) : list (Z * Z) :=
  let in_edges := filter (λ ed, ed.2 = node_id) es in
  let out_edges := filter (λ ed, ed.1 = node_id) es in
  let appended :=
    es ++ (in_edges ≫= λ e1, (λ e2, (e1.1, e2.2)) <$> out_edges) in
  filter (λ ed, ed.1 ≠ node_id ∧ ed.2 ≠ node_id) appended.

(** Body of the second loop of [fix_g_info]. *)
Definition contract (g : GInfo) (node : string) : option GInfo :=
  node_id ← Dict.get (id_map g) node;
  Some {| e := contract_edges (e g) node_id;
          id_map := Dict.without (id_map g) node |}.

Fixpoint contract_all (g : GInfo) (nodes : list string) : option GInfo :=
  match nodes with
  | [] => Some g
  | node :: rest => g' ← contract g node; contract_all g' rest
  end.

(** [fix_g_info] *)
Definition fix_g_info (g : GInfo) (namemap : list (string * string))
  : option GInfo :=
  nodes ← node_to_contact (Dict.keys (id_map g)) namemap;
  if decide (length nodes = 0%nat) then Some g else contract_all g nodes.

(** A walk [u → w₁ → … → wₙ → v] through the edge list. *)
Fixpoint path (es : list (Z * Z)) (u : Z) (ws : list Z) (v : Z) : Prop :=
  match ws with
  | [] => (u, v) ∈ es
  | w :: ws' => (u, w) ∈ es ∧ path es w ws' v
  end.

(** No edge of [es] has [n] as an endpoint. *)
Definition untouched (es : list (Z * Z)) (n : Z) : Prop :=
  ∀ ed, ed ∈ es → ed.1 ≠ n ∧ ed.2 ≠ n.

End Graph.

(** ** Program metadata and the task name maps

    [program_info]: a dictionary from the standardized frame-range key to the
    segment's annotation. *)

Record ProgramItem := mkProgramItem {
  primitive : string;
  interaction_mode : string;
  obj_list : list string;
  obj_list_lh : option (list string);
  obj_list_rh : option (list string)
}.

(** The [program] module of the toolkit.  Its two name mappers return a
    dictionary from frame-range key to task identifier. *)
Class ProgramLib := {
  suffix_affordance_primitive_segment :
    list (string * ProgramItem) → list (string * string);
  suffix_transient_primitive_segment :
    list (string * ProgramItem) → list (string * string);
  is_transient : string → bool
}.

(** Modelled from the spec: the bodies of
    [program.suffix_affordance_primitive_segment] and
    [program.suffix_transient_primitive_segment] are missing; this is the
    contract the specification gives the two maps they return for one
    metadata dictionary.  Every metadata key appears in exactly one of the
    two submaps, and the identifiers disambiguate the segments (the mapper is
    a bijection between frame-range keys and identifiers). *)
Record TaskNameMapperSpec
    (program_info : list (string * ProgramItem))
    (affordance_task_namemap transient_task_namemap : list (string * string))
  : Prop := {
  tnm_affordance_wf : Dict.wf affordance_task_namemap;
  tnm_transient_wf : Dict.wf transient_task_namemap;
  tnm_cover : ∀ k, k ∈ Dict.keys program_info ↔
      k ∈ Dict.keys affordance_task_namemap ∨
      k ∈ Dict.keys transient_task_namemap;
  tnm_exclusive : ∀ k, k ∈ Dict.keys affordance_task_namemap →
      k ∉ Dict.keys transient_task_namemap;
  tnm_identifiers : NoDup (Dict.values affordance_task_namemap ++
                           Dict.values transient_task_namemap)
}.

Section TaskNameMap.
Context `{PyLib}.

(** [load_program_info], after the JSON file is read: the keys are
    standardized by a dictionary comprehension. *)
Fixpoint standardize_keys {V : Type} (raw acc : list (string * V))
  : option (list (string * V)) :=
  match raw with
  | [] => Some acc
  | (k, v) :: raw' =>
      k' ← standardize_tuple k; standardize_keys raw' (Dict.set acc k' v)
  end.

Definition load_program_info (raw : list (string * ProgramItem))
  : option (list (string * ProgramItem)) :=
  standardize_keys raw [].

(** The loop [for k in program_info.keys(): full[k] = _full[k]]. *)
Fixpoint reorder_namemap (ks : list string)
    (_full_task_namemap acc : list (string * string))
  : option (list (string * string)) :=
  match ks with
  | [] => Some acc
  | k :: ks' =>
      v ← Dict.get _full_task_namemap k;
      reorder_namemap ks' _full_task_namemap (Dict.set acc k v)
  end.

(** [full_task_namemap] as [load_complex_task] builds it from the two
    submaps. *)
Definition full_task_namemap
    (program_info : list (string * ProgramItem))
    (affordance_task_namemap transient_task_namemap : list (string * string))
  : option (list (string * string)) :=
  let _full_task_namemap :=
    Dict.merge affordance_task_namemap transient_task_namemap in
  reorder_namemap (Dict.keys program_info) _full_task_namemap [].

(** [{v: ast.literal_eval(k) for k, v in full_task_namemap.items()}] *)
Fixpoint rev_full_task_namemap (full : list (string * string))
    (acc : list (string * PyVal)) : option (list (string * PyVal)) :=
  match full with
  | [] => Some acc
  | (k, v) :: full' =>
      d ← literal_eval k; rev_full_task_namemap full' (Dict.set acc v d)
  end.

End TaskNameMap.

(** ** The program dependency graph

    [networkx.DiGraph], as far as [load_complex_task] uses it: a node is
    added once, an edge adds its endpoints when they are new. *)

Record DiGraph := mkDiGraph {
  nodes : list string;
  edges : list (string * string)
}.

Definition add_node (G : DiGraph) (n : string) : DiGraph :=
  if decide (n ∈ nodes G) then G
  else {| nodes := nodes G ++ [n]; edges := edges G |}.

Definition add_edge (G : DiGraph) (u v : string) : DiGraph :=
  let G' := add_node (add_node G u) v in
  if decide ((u, v) ∈ edges G') then G'
  else {| nodes := nodes G'; edges := edges G' ++ [(u, v)] |}.

Section PDG.
Context `{PyLib}.

(** First loop over [_g_info["id_map"]]: one node per remaining key. *)
Fixpoint pdg_add_nodes (G : DiGraph) (ks : list string)
    (affordance_task_namemap : list (string * string)) : option DiGraph :=
  match ks with
  | [] => Some G
  | k :: ks' =>
      k' ← standardize_tuple k;
      n ← Dict.get affordance_task_namemap k';
      pdg_add_nodes (add_node G n) ks' affordance_task_namemap
  end.

(** [{v: k for k, v in _g_info["id_map"].items()}] *)
Definition _rev_id_map (id_map : list (string * Z)) : list (Z * string) :=
  foldl (λ acc kv, Dict.set acc kv.2 kv.1) [] id_map.

(** Second loop, over [_g_info["e"]]. *)
Fixpoint pdg_add_edges (G : DiGraph) (es : list (Z * Z))
    (rev : list (Z * string))
    (affordance_task_namemap : list (string * string)) : option DiGraph :=
  match es with
  | [] => Some G
  | (_e_from, _e_to) :: es' =>
      _seg_from ← Dict.get rev _e_from;
      _seg_to ← Dict.get rev _e_to;
      _seg_from ← standardize_tuple _seg_from;
      _seg_to ← standardize_tuple _seg_to;
      n_from ← Dict.get affordance_task_namemap _seg_from;
      n_to ← Dict.get affordance_task_namemap _seg_to;
      pdg_add_edges (add_edge G n_from n_to) es' rev affordance_task_namemap
  end.

(** The graph part of [load_complex_task]: contraction, then the
    translation of the remaining keys and ids to task identifiers. *)
Definition load_pdg (_g_info : GInfo)
    (affordance_task_namemap : list (string * string)) : option DiGraph :=
  _g_info ← fix_g_info _g_info affordance_task_namemap;
  _g ← pdg_add_nodes (mkDiGraph [] []) (Dict.keys (id_map _g_info))
         affordance_task_namemap;
  pdg_add_edges _g (e _g_info) (_rev_id_map (id_map _g_info))
    affordance_task_namemap.

(** The identifier a raw key stands for: the name map's entry for its
    standard form. *)
Definition key_identifier (namemap : list (string * string))
    (k v : string) : Prop :=
  ∃ s, standardize_tuple k = Some s ∧ Dict.get namemap s = Some v.

End PDG.

(** ** Python sequences *)

(** [l[i]] with Python's negative indices; [None] stands for [IndexError]. *)
Definition py_index {A : Type} (l : list A) (i : Z) : option A :=
  if decide (0 ≤ i) then l !! Z.to_nat i
  else if decide (0 ≤ i + Z.of_nat (length l))
       then l !! Z.to_nat (i + Z.of_nat (length l))
  else None.

(** [arr[frame_list]]: indexing a tensor or an array by a list of
    positions. *)
Definition fancy_index {A : Type} (l : list A) (idx : list Z)
  : option (list A) :=
  mapM (py_index l) idx.

(** [list(range(a, b))] *)
Definition py_range (a b : Z) : list Z := seqZ a (b - a).

(** [min(l)] and [max(l)]; [None] stands for the [ValueError] on an empty
    list. *)
Definition py_min (l : list Z) : option Z :=
  match l with
  | [] => None
  | x :: l' => Some (foldl Z.min x l')
  end.

Definition py_max (l : list Z) : option Z :=
  match l with
  | [] => None
  | x :: l' => Some (foldl Z.max x l')
  end.

(** [s.replace("/", "++")] *)
Fixpoint replace_slash (s : string) : string :=
  match s with
  | EmptyString => EmptyString
  | String c s' =>
      if decide (c = "/"%char) then String "+" (String "+" (replace_slash s'))
      else String c (replace_slash s')
  end.

(** ** Tensors

    A tensor is the list of its rows along the frame dimension; the scalars
    are opaque to the toolkit, which only stacks, slices and pads them. *)

Class Numeric := {
  Scalar : Type;
  scalar_zero : Scalar;
  Mat : Type
}.

Section Tool.
Context `{Numeric}.

Definition Tensor : Type := list (list Scalar).
Definition ParamDict : Type := list (string * Tensor).

(** A row of zeros shaped like the rows of [v]. *)
Definition zero_row (v : Tensor) : list Scalar :=
  match v with
  | [] => []
  | r :: _ => replicate (length r) scalar_zero
  end.

(** Modelled from the spec: the tensor part of [tool.index_param], which is
    missing.  Every tensor of [param] is sliced to the frames of
    [frame_list] and padded with [l_pad] zero rows at the head and [r_pad] at
    the tail. *)
Fixpoint index_tensors (param : ParamDict) (frame_list : list Z)
    (l_pad r_pad : Z) : option ParamDict :=
  match param with
  | [] => Some []
  | (k, v) :: param' =>
      rows ← fancy_index v frame_list;
      rest ← index_tensors param' frame_list l_pad r_pad;
      Some ((k, replicate (Z.to_nat l_pad) (zero_row v) ++ rows ++
                replicate (Z.to_nat r_pad) (zero_row v)) :: rest)
  end.

(** Modelled from the spec: [tool.index_param] is missing.  The sliced and
    padded tensors of [index_tensors], and the mask: false on the padding,
    true on the sliced frames. *)
Definition index_param (param : ParamDict) (frame_list : list Z)
    (l_pad r_pad : Z) : option (ParamDict * list bool) :=
  res ← index_tensors param frame_list l_pad r_pad;
  Some (res, replicate (Z.to_nat l_pad) false ++
             replicate (length frame_list) true ++
             replicate (Z.to_nat r_pad) false).

(** Modelled from the spec: [tool.zero_param] is missing.  It returns
    all-zero tensors of the given length, keyed like [param], and an
    all-false mask. *)
Definition zero_param (param : ParamDict) (n : nat)
  : ParamDict * list bool :=
  ((λ kv, (kv.1, replicate n (zero_row kv.2))) <$> param, replicate n false).

(** Every entry of the tensor is zero. *)
Definition all_zero (t : Tensor) : Prop :=
  Forall (Forall (λ x, x = scalar_zero)) t.

(** The number of frames a mask marks as in range. *)
Definition count_true (mask : list bool) : nat :=
  length (filter (λ b, b = true) mask).

(** What hydration promises for a hand with a recorded sub-range: tensors
    and mask of [n] frames, the mask true on the [k] frames from [offset] on
    and false on the others. *)
Definition hand_window (n offset k : nat) (param : ParamDict)
    (mask : list bool) : Prop :=
  Forall (λ kv, length kv.2 = n) param ∧
  length mask = n ∧
  count_true mask = k ∧
  ∀ i, (i < n)%nat →
       mask !! i = Some (bool_decide (offset ≤ i < offset + k)%nat).

(** What hydration promises for a hand with no recorded sub-range: zero
    tensors of [n] frames and a mask of [n] times false. *)
Definition hand_zero (n : nat) (param : ParamDict) (mask : list bool) : Prop :=
  Forall (λ kv, length kv.2 = n ∧ all_zero kv.2) param ∧
  length mask = n ∧
  Forall (λ b, b = false) mask.

End Tool.

(** ** Task and affordance records

    The classes of [structure/]: the fields the loaders pass to the
    constructors, the [instantiated] flag, and the fields hydration fills
    ([None] until then). *)

Module OakInk2__ComplexTask.
Section record.
Context `{Numeric} `{PyLib}.

Record t := mk {
  instantiated : bool;
  seq_key : string;
  seq_token : string;
  is_complex : bool;
  exec_path : list string;
  exec_path_affordance : list string;
  exec_range_map : list (string * PyVal);
  pdg : DiGraph;
  task_target : string;
  scene_desc : option string;
  recipe : option string;
  frame_range : option (Z * Z);
  scene_obj_list : option (list string);
  smplx_param : option ParamDict;
  lh_param : option ParamDict;
  rh_param : option ParamDict;
  obj_transf : option (list (string * list Mat))
}.

End record.
End OakInk2__ComplexTask.

Module OakInk2__PrimitiveTask.
Section record.
Context `{Numeric}.

Record t := mk {
  instantiated : bool;
  seq_key : string;
  seq_token : string;
  primitive_task : string;
  task_desc : string;
  transient : bool;
  hand_involved : string;
  interaction_mode : string;
  frame_range : Z * Z;
  frame_range_lh : option (Z * Z);
  frame_range_rh : option (Z * Z);
  scene_obj_list : option (list string);
  task_obj_list : list string;
  lh_obj_list : option (list string);
  rh_obj_list : option (list string);
  smplx_param : option ParamDict;
  lh_param : option ParamDict;
  rh_param : option ParamDict;
  lh_in_range_mask : option (list bool);
  rh_in_range_mask : option (list bool);
  obj_transf : option (list (string * list Mat))
}.

End record.
End OakInk2__PrimitiveTask.

Module OakInk2__Affordance.
Section record.
Variable Mesh : Type.

Record t := mk {
  instantiated : bool;
  obj_id : string;
  obj_name : string;
  has_model : bool;
  obj_instance_id : string;
  obj_part_id : list string;
  obj_urdf_filepath : option string;
  affordance_list : list string;
  affordance_instantiation_list : list string;
  obj_mesh : option (Mesh + list (string * Mesh))
}.

End record.
Arguments mk {Mesh}.
Arguments instantiated {Mesh}.
Arguments obj_id {Mesh}.
Arguments obj_name {Mesh}.
Arguments has_model {Mesh}.
Arguments obj_instance_id {Mesh}.
Arguments obj_part_id {Mesh}.
Arguments obj_urdf_filepath {Mesh}.
Arguments affordance_list {Mesh}.
Arguments affordance_instantiation_list {Mesh}.
Arguments obj_mesh {Mesh}.
End OakInk2__Affordance.

(** ** The dataset object and the files behind it *)

(** The per-sequence annotation blob. *)
Record AnnoData `{Numeric} := mkAnnoData {
  mocap_frame_id_list : list Z;
  anno_obj_list : list string;
  raw_smplx : list (Z * ParamDict);
  raw_mano : list (Z * ParamDict);
  anno_obj_transf : list (string * list (Z * Mat))
}.

(** [OakInk2__Dataset]: its attributes, and the files it reads, keyed by
    sequence token ([None]: the file does not exist).  Directory listing
    and mesh decoding are services of the operating system and of
    [trimesh]. *)
Class OakInk2__Dataset `{Numeric} := {
  Mesh : Type;
  return_instantiated : bool;
  obj_model_prefix : string;
  obj_affordance_part_filedir : string;
  task_target : list (string * string);
  program_info_json : string → option (list (string * ProgramItem));
  pdg_json : string → option GInfo;
  initial_condition_json : string → option (string * string);
  frame_id_pkl : string → option (list Z);
  obj_list_json : string → option (list string);
  anno_pkl : string → option AnnoData;
  listdir : string → option (list string);
  path_join : string → string → string;
  splitext : string → string;
  trimesh_load : string → bool → option Mesh
}.

(** The exceptions [load_obj] can let through. *)
Inductive exn := FileNotFoundError | AssertionError | MeshLoadError.

#[global] Instance exn_eq_dec : EqDecision exn.
Proof. solve_decision. Defined.

(** ** Mesh loading *)

Section LoadObj.
Context `{OakInk2__Dataset}.

Definition mesh_load (path : string) (skip_materials : bool) : exn + Mesh :=
  match trimesh_load path skip_materials with
  | Some mesh => inr mesh
  | None => inl MeshLoadError
  end.

(** The list comprehension of [load_obj]: the entries whose extension is
    [.obj] or [.ply]. *)
Definition candidate_list (files : list string) : list string :=
  filter (λ el, splitext el ∈ [".obj"; ".ply"]) files.

(** [load_obj] *)
Definition load_obj (obj_prefix obj_id : string) : exn + Mesh :=
  let obj_filedir := path_join obj_prefix obj_id in
  match listdir obj_filedir with
  | None => inl FileNotFoundError
  | Some files =>
      match candidate_list files with
      | [obj_filename] =>
          let obj_filepath := path_join obj_filedir obj_filename in
          if decide (splitext obj_filename = ".obj")
          then mesh_load obj_filepath true
          else mesh_load obj_filepath false
      | _ => inl AssertionError
      end
  end.

(** [OakInk2__Dataset._load_obj] *)
Definition _load_obj (obj_part_id : string) : exn + Mesh :=
  match load_obj obj_model_prefix obj_part_id with
  | inl FileNotFoundError => load_obj obj_affordance_part_filedir obj_part_id
  | res => res
  end.

End LoadObj.

(** ** The part tree *)

(** [rev_part_tree] *)
Definition rev_part_tree (part_tree : list (string * list string))
  : gmap string string :=
  foldl (λ res kv, foldl (λ res part, <[part := kv.1]> res) res kv.2)
        ∅ part_tree.

(** [get_part_tree_root]; the fuel bounds the iterations of the [while]
    loop, [None] meaning that it is still running when the fuel is spent. *)
Fixpoint get_part_tree_root (fuel : nat) (rev_part_tree : gmap string string)
    (obj_id : string) : option string :=
  match rev_part_tree !! obj_id with
  | None => Some obj_id
  | Some parent =>
      match fuel with
      | O => None
      | S fuel' => get_part_tree_root fuel' rev_part_tree parent
      end
  end.

(** The id reached from [obj_id] by [d] parent links. *)
Fixpoint parent_hops (rev_part_tree : gmap string string) (d : nat)
    (obj_id : string) : option string :=
  match d with
  | O => Some obj_id
  | S d' => parent ← rev_part_tree !! obj_id; parent_hops rev_part_tree d' parent
  end.

(** [obj_id] has a parent chain of depth [d] ending in [root]. *)
Inductive parent_chain (rev_part_tree : gmap string string)
  : string → nat → string → Prop :=
| parent_chain_root obj_id :
    rev_part_tree !! obj_id = None →
    parent_chain rev_part_tree obj_id 0 obj_id
| parent_chain_step obj_id parent d root :
    rev_part_tree !! obj_id = Some parent →
    parent_chain rev_part_tree parent d root →
    parent_chain rev_part_tree obj_id (S d) root.

(** No id is its own ancestor. *)
Definition acyclic (rev_part_tree : gmap string string) : Prop :=
  ∀ obj_id (n : nat), parent_hops rev_part_tree (S n) obj_id ≠ Some obj_id.

(** ** The instantiation engine

    Complex tasks are objects the caller and the engine may both hold, so
    they live in a store of references; the mesh cache is the dataset's
    [obj_cache].  An operation is a partial state transformer. *)

Section Engine.
Context `{Numeric} `{PyLib} `{ProgramLib} `{!OakInk2__Dataset}.

Record State := mkState {
  complex_tasks : gmap nat OakInk2__ComplexTask.t;
  obj_cache : gmap string Mesh
}.

Definition M (A : Type) : Type := State → option (A * State).

#[global] Instance M_ret : MRet M := λ A a σ, Some (a, σ).

#[global] Instance M_bind : MBind M := λ A B f m σ,
  match m σ with
  | Some (a, σ') => f a σ'
  | None => None
  end.

(** An exception of a pure step aborts the operation. *)
Definition lift {A : Type} (o : option A) : M A := λ σ,
  match o with
  | Some a => Some (a, σ)
  | None => None
  end.

Definition read (l : nat) : M OakInk2__ComplexTask.t := λ σ,
  match complex_tasks σ !! l with
  | Some c => Some (c, σ)
  | None => None
  end.

Definition write (l : nat) (c : OakInk2__ComplexTask.t) : M unit := λ σ,
  Some ((), {| complex_tasks := <[l := c]> (complex_tasks σ);
               obj_cache := obj_cache σ |}).

(** A new object gets a reference no live object has. *)
Definition alloc (c : OakInk2__ComplexTask.t) : M nat := λ σ,
  let l := fresh (dom (complex_tasks σ)) in
  Some (l, {| complex_tasks := <[l := c]> (complex_tasks σ);
              obj_cache := obj_cache σ |}).

(** *** Affordances *)

(** The cache lookup of [instantiate_affordance]. *)
Definition cached_load_obj (obj_part_id : string) : M Mesh := λ σ,
  match obj_cache σ !! obj_part_id with
  | Some obj_part_mesh => Some (obj_part_mesh, σ)
  | None =>
      match _load_obj obj_part_id with
      | inr obj_part_mesh =>
          Some (obj_part_mesh,
                {| complex_tasks := complex_tasks σ;
                   obj_cache := <[obj_part_id := obj_part_mesh]> (obj_cache σ) |})
      | inl _ => None
      end
  end.

Fixpoint load_part_meshes (obj_part_id : list string)
    (obj_mesh : list (string * Mesh)) : M (list (string * Mesh)) :=
  match obj_part_id with
  | [] => mret obj_mesh
  | id :: rest =>
      obj_part_mesh ← cached_load_obj id;
      load_part_meshes rest (Dict.set obj_mesh id obj_part_mesh)
  end.

(** [instantiate_affordance] *)
Definition instantiate_affordance (affordance_data : OakInk2__Affordance.t Mesh)
  : M (OakInk2__Affordance.t Mesh) :=
  if negb (OakInk2__Affordance.instantiated affordance_data) then
    obj_mesh ←
      (if negb (OakInk2__Affordance.has_model affordance_data) then
         parts ← load_part_meshes (OakInk2__Affordance.obj_part_id affordance_data) [];
         mret (inr parts)
       else
         obj_part_mesh ← cached_load_obj (OakInk2__Affordance.obj_id affordance_data);
         mret (inl obj_part_mesh));
    mret {| OakInk2__Affordance.instantiated := true;
            OakInk2__Affordance.obj_id := OakInk2__Affordance.obj_id affordance_data;
            OakInk2__Affordance.obj_name := OakInk2__Affordance.obj_name affordance_data;
            OakInk2__Affordance.has_model := OakInk2__Affordance.has_model affordance_data;
            OakInk2__Affordance.obj_instance_id :=
              OakInk2__Affordance.obj_instance_id affordance_data;
            OakInk2__Affordance.obj_part_id := OakInk2__Affordance.obj_part_id affordance_data;
            OakInk2__Affordance.obj_urdf_filepath :=
              OakInk2__Affordance.obj_urdf_filepath affordance_data;
            OakInk2__Affordance.affordance_list :=
              OakInk2__Affordance.affordance_list affordance_data;
            OakInk2__Affordance.affordance_instantiation_list :=
              OakInk2__Affordance.affordance_instantiation_list affordance_data;
            OakInk2__Affordance.obj_mesh := Some obj_mesh |}
  else mret affordance_data.

(** *** Complex tasks *)

(** [torch.cat] / [np.stack] of the per-frame values of one key. *)
Fixpoint stack_frames {A : Type} (handle : list (Z * list (string * A)))
    (k : string) (mocap_frame_id_list : list Z) : option (list A) :=
  match mocap_frame_id_list with
  | [] => Some []
  | fid :: rest =>
      frame ← Dict.get handle fid;
      x ← Dict.get frame k;
      xs ← stack_frames handle k rest;
      Some (x :: xs)
  end.

(** The key loop shared by [_collect_smplx] and [_collect_mano]: [keys]
    pairs the key of the result with the key of the raw annotation. *)
Fixpoint collect_params (handle : list (Z * ParamDict))
    (keys : list (string * string)) (mocap_frame_id_list : list Z)
    (acc : ParamDict) : option ParamDict :=
  match keys with
  | [] => Some acc
  | (k, ori_key) :: rest =>
      _param_tensor ← stack_frames handle ori_key mocap_frame_id_list;
      if decide (_param_tensor = []) then None
      else collect_params handle rest mocap_frame_id_list
             (Dict.set acc k (concat _param_tensor))
  end.

(** [_collect_smplx] *)
Definition _collect_smplx (anno_data : AnnoData)
    (mocap_frame_id_list : list Z) : option ParamDict :=
  first ← head (Dict.values (raw_smplx anno_data));
  let smplx_key_list := Dict.keys first in
  collect_params (raw_smplx anno_data) ((λ k, (k, k)) <$> smplx_key_list)
    mocap_frame_id_list [].

(** [k[len(key_prefix):]] *)
Definition strip_prefix (key_prefix k : string) : string :=
  String.substring (String.length key_prefix)
    (String.length k - String.length key_prefix) k.

(** [_collect_mano] *)
Definition _collect_mano (anno_data : AnnoData) (hand_side : string)
    (mocap_frame_id_list : list Z) : option ParamDict :=
  first ← head (Dict.values (raw_mano anno_data));
  let mano_bh_key_list := Dict.keys first in
  let key_prefix := (hand_side +:+ "__")%string in
  let ori_key_list :=
    filter (λ k, String.prefix key_prefix k = true) mano_bh_key_list in
  collect_params (raw_mano anno_data)
    ((λ k, (strip_prefix key_prefix k, k)) <$> ori_key_list)
    mocap_frame_id_list [].

(** [_collect_obj_transf] *)
Fixpoint _collect_obj_transf (obj_transf_handle : list (string * list (Z * Mat)))
    (obj_list : list string) (mocap_frame_id_list : list Z)
    (res : list (string * list Mat)) : option (list (string * list Mat)) :=
  match obj_list with
  | [] => Some res
  | obj_id :: rest =>
      obj_transf_curr ← Dict.get obj_transf_handle obj_id;
      _res ← mapM (Dict.get obj_transf_curr) mocap_frame_id_list;
      if decide (_res = []) then None
      else _collect_obj_transf obj_transf_handle rest mocap_frame_id_list
             (Dict.set res obj_id _res)
  end.

(** The hydrated image of an un-hydrated complex task. *)
Definition hydrate_complex_task (c : OakInk2__ComplexTask.t) : option OakInk2__ComplexTask.t :=
  anno_data ← anno_pkl (OakInk2__ComplexTask.seq_token c);
  let mocap_frame_id_list := mocap_frame_id_list anno_data in
  lo ← py_min mocap_frame_id_list;
  hi ← py_max mocap_frame_id_list;
  let obj_list := anno_obj_list anno_data in
  smplx_param ← _collect_smplx anno_data mocap_frame_id_list;
  lh_param ← _collect_mano anno_data "lh" mocap_frame_id_list;
  rh_param ← _collect_mano anno_data "rh" mocap_frame_id_list;
  obj_transf ← _collect_obj_transf (anno_obj_transf anno_data) obj_list
                  mocap_frame_id_list [];
  Some {| OakInk2__ComplexTask.instantiated := true;
          OakInk2__ComplexTask.seq_key := OakInk2__ComplexTask.seq_key c;
          OakInk2__ComplexTask.seq_token := OakInk2__ComplexTask.seq_token c;
          OakInk2__ComplexTask.is_complex := OakInk2__ComplexTask.is_complex c;
          OakInk2__ComplexTask.exec_path := OakInk2__ComplexTask.exec_path c;
          OakInk2__ComplexTask.exec_path_affordance := OakInk2__ComplexTask.exec_path_affordance c;
          OakInk2__ComplexTask.exec_range_map := OakInk2__ComplexTask.exec_range_map c;
          OakInk2__ComplexTask.pdg := OakInk2__ComplexTask.pdg c;
          OakInk2__ComplexTask.task_target := OakInk2__ComplexTask.task_target c;
          OakInk2__ComplexTask.scene_desc := OakInk2__ComplexTask.scene_desc c;
          OakInk2__ComplexTask.recipe := OakInk2__ComplexTask.recipe c;
          OakInk2__ComplexTask.frame_range := Some (lo, hi);
          OakInk2__ComplexTask.scene_obj_list := Some obj_list;
          OakInk2__ComplexTask.smplx_param := Some smplx_param;
          OakInk2__ComplexTask.lh_param := Some lh_param;
          OakInk2__ComplexTask.rh_param := Some rh_param;
          OakInk2__ComplexTask.obj_transf := Some obj_transf |}.

(** [instantiate_complex_task], on the object behind the reference. *)
Definition instantiate_complex_task (complex_task_data : nat) : M nat :=
  c ← read complex_task_data;
  if negb (OakInk2__ComplexTask.instantiated c) then
    c' ← lift (hydrate_complex_task c);
    _ ← write complex_task_data c';
    mret complex_task_data
  else mret complex_task_data.

(** *** Loading a complex task *)

(** The optional frame-id cache of [load_complex_task]. *)
Definition cached_frame_range (seq_token : string) : option (option (Z * Z)) :=
  match frame_id_pkl seq_token with
  | Some frame_list =>
      lo ← py_min frame_list; hi ← py_max frame_list; Some (Some (lo, hi))
  | None => Some None
  end.

(** The record [load_complex_task] constructs, before it is stored and
    hydrated: everything that function computes from the files. *)
Definition build_complex_task (seq_key : string) (return_instantiated : bool)
  : option OakInk2__ComplexTask.t :=
  let seq_token := replace_slash seq_key in
  raw ← program_info_json seq_token;
  program_info ← load_program_info raw;
  let affordance_task_namemap :=
    suffix_affordance_primitive_segment program_info in
  let transient_task_namemap :=
    suffix_transient_primitive_segment program_info in
  full ← full_task_namemap program_info affordance_task_namemap
           transient_task_namemap;
  rev ← rev_full_task_namemap full [];
  let is_complex := bool_decide (0 < length affordance_task_namemap)%nat in
  let exec_path := Dict.values full in
  let exec_path_affordance := Dict.values affordance_task_namemap in
  _g_info ← pdg_json seq_token;
  pdg ← load_pdg _g_info affordance_task_namemap;
  task_target ← Dict.get task_target seq_key;
  let _i_info := initial_condition_json seq_token in
  frame_range ←
    (if negb return_instantiated then cached_frame_range seq_token
     else Some None);
  let scene_obj_list :=
    if negb return_instantiated then obj_list_json seq_token else None in
  Some {| OakInk2__ComplexTask.instantiated := false;
          OakInk2__ComplexTask.seq_key := seq_key;
          OakInk2__ComplexTask.seq_token := seq_token;
          OakInk2__ComplexTask.is_complex := is_complex;
          OakInk2__ComplexTask.exec_path := exec_path;
          OakInk2__ComplexTask.exec_path_affordance := exec_path_affordance;
          OakInk2__ComplexTask.exec_range_map := rev;
          OakInk2__ComplexTask.pdg := pdg;
          OakInk2__ComplexTask.task_target := task_target;
          OakInk2__ComplexTask.scene_desc := fst <$> _i_info;
          OakInk2__ComplexTask.recipe := snd <$> _i_info;
          OakInk2__ComplexTask.frame_range := frame_range;
          OakInk2__ComplexTask.scene_obj_list := scene_obj_list;
          OakInk2__ComplexTask.smplx_param := None;
          OakInk2__ComplexTask.lh_param := None;
          OakInk2__ComplexTask.rh_param := None;
          OakInk2__ComplexTask.obj_transf := None |}.

(** [load_complex_task]: constructs the record as a new object and hydrates
    it when asked to. *)
Definition load_complex_task (seq_key : string)
    (return_instantiated' : option bool) : M nat :=
  let return_instantiated :=
    default return_instantiated return_instantiated' in
  c ← lift (build_complex_task seq_key return_instantiated);
  res ← alloc c;
  if return_instantiated then instantiate_complex_task res else mret res.

(** *** Primitive tasks *)

(** One hand of [instantiate_primitive_task]: the source has this block
    twice, for [lh] and for [rh]. *)
Definition hydrate_hand (frame_range : Z * Z) (frame_range_h : option (Z * Z))
    (parent_param : ParamDict) (frame_list : list Z)
  : option (ParamDict * list bool) :=
  match frame_range_h with
  | Some frame_range_h =>
      let frame_list_h := py_range frame_range_h.1 frame_range_h.2 in
      let l_pad := Z.max 0 (frame_range_h.1 - frame_range.1) in
      let r_pad := Z.max 0 (frame_range.2 - frame_range_h.2) in
      index_param parent_param frame_list_h l_pad r_pad
  | None => Some (zero_param parent_param (length frame_list))
  end.

(** The loop over [task_obj_list] that slices the parent's transforms. *)
Fixpoint slice_obj_transf (task_obj_list : list string)
    (parent_obj_transf : list (string * list Mat)) (frame_list : list Z)
    (obj_transf : list (string * list Mat))
  : option (list (string * list Mat)) :=
  match task_obj_list with
  | [] => Some obj_transf
  | obj_id :: rest =>
      match Dict.get parent_obj_transf obj_id with
      | None => slice_obj_transf rest parent_obj_transf frame_list obj_transf
      | Some arr =>
          rows ← fancy_index arr frame_list;
          slice_obj_transf rest parent_obj_transf frame_list
            (Dict.set obj_transf obj_id rows)
      end
  end.

(** [[el for el in l if el in obj_transf]] *)
Definition clean_obj_list (l : list string)
    (obj_transf : list (string * list Mat)) : list string :=
  filter (λ el, Dict.mem obj_transf el = true) l.

(** The body of [instantiate_primitive_task] once the hydrated complex task
    is at hand. *)
Definition hydrate_primitive_task (p : OakInk2__PrimitiveTask.t) (c : OakInk2__ComplexTask.t)
  : option OakInk2__PrimitiveTask.t :=
  let frame_range := OakInk2__PrimitiveTask.frame_range p in
  let frame_list := py_range frame_range.1 frame_range.2 in
  parent_smplx ← OakInk2__ComplexTask.smplx_param c;
  '(smplx_param, _) ← index_param parent_smplx frame_list 0 0;
  parent_lh ← OakInk2__ComplexTask.lh_param c;
  '(lh_param, lh_in_range_mask) ←
    hydrate_hand frame_range (OakInk2__PrimitiveTask.frame_range_lh p) parent_lh
      frame_list;
  parent_rh ← OakInk2__ComplexTask.rh_param c;
  '(rh_param, rh_in_range_mask) ←
    hydrate_hand frame_range (OakInk2__PrimitiveTask.frame_range_rh p) parent_rh
      frame_list;
  parent_obj_transf ← OakInk2__ComplexTask.obj_transf c;
  obj_transf ← slice_obj_transf (OakInk2__PrimitiveTask.task_obj_list p)
                  parent_obj_transf frame_list [];
  Some {| OakInk2__PrimitiveTask.instantiated := true;
          OakInk2__PrimitiveTask.seq_key := OakInk2__PrimitiveTask.seq_key p;
          OakInk2__PrimitiveTask.seq_token := OakInk2__PrimitiveTask.seq_token p;
          OakInk2__PrimitiveTask.primitive_task := OakInk2__PrimitiveTask.primitive_task p;
          OakInk2__PrimitiveTask.task_desc := OakInk2__PrimitiveTask.task_desc p;
          OakInk2__PrimitiveTask.transient := OakInk2__PrimitiveTask.transient p;
          OakInk2__PrimitiveTask.hand_involved := OakInk2__PrimitiveTask.hand_involved p;
          OakInk2__PrimitiveTask.interaction_mode := OakInk2__PrimitiveTask.interaction_mode p;
          OakInk2__PrimitiveTask.frame_range := frame_range;
          OakInk2__PrimitiveTask.frame_range_lh := OakInk2__PrimitiveTask.frame_range_lh p;
          OakInk2__PrimitiveTask.frame_range_rh := OakInk2__PrimitiveTask.frame_range_rh p;
          OakInk2__PrimitiveTask.scene_obj_list := OakInk2__ComplexTask.scene_obj_list c;
          OakInk2__PrimitiveTask.task_obj_list :=
            clean_obj_list (OakInk2__PrimitiveTask.task_obj_list p) obj_transf;
          OakInk2__PrimitiveTask.lh_obj_list :=
            (λ l, clean_obj_list l obj_transf) <$> OakInk2__PrimitiveTask.lh_obj_list p;
          OakInk2__PrimitiveTask.rh_obj_list :=
            (λ l, clean_obj_list l obj_transf) <$> OakInk2__PrimitiveTask.rh_obj_list p;
          OakInk2__PrimitiveTask.smplx_param := Some smplx_param;
          OakInk2__PrimitiveTask.lh_param := Some lh_param;
          OakInk2__PrimitiveTask.rh_param := Some rh_param;
          OakInk2__PrimitiveTask.lh_in_range_mask := Some lh_in_range_mask;
          OakInk2__PrimitiveTask.rh_in_range_mask := Some rh_in_range_mask;
          OakInk2__PrimitiveTask.obj_transf := Some obj_transf |}.

(** The complex task [instantiate_primitive_task] reads from: the caller's
    when it is given and hydrated, a newly loaded and hydrated one
    otherwise. *)
Definition resolve_complex_task (seq_key : string)
    (complex_task_data : option nat) : M nat :=
  match complex_task_data with
  | None => load_complex_task seq_key (Some true)
  | Some l =>
      c ← read l;
      if negb (OakInk2__ComplexTask.instantiated c)
      then load_complex_task seq_key (Some true)
      else mret l
  end.

(** [instantiate_primitive_task] *)
Definition instantiate_primitive_task (primitive_task_data : OakInk2__PrimitiveTask.t)
    (complex_task_data : option nat) : M OakInk2__PrimitiveTask.t :=
  if negb (OakInk2__PrimitiveTask.instantiated primitive_task_data) then
    complex_task_data ←
      resolve_complex_task (OakInk2__PrimitiveTask.seq_key primitive_task_data)
        complex_task_data;
    c ← read complex_task_data;
    lift (hydrate_primitive_task primitive_task_data c)
  else mret primitive_task_data.

End Engine.

(** ** A sample dataset, for evaluation

    One sequence, [scene/seq], of three segments: two affordance-typed
    ([hold], [pour]) and one transient ([move]).  Its keys are already in
    standard form, so the sample [literal_eval] and [str] are the identity. *)

Module Sample.

Definition pylib : PyLib :=
  {| PyVal := string; literal_eval := Some; py_str := id |}.

Definition numeric : Numeric :=
  {| Scalar := Z; scalar_zero := 0; Mat := Z |}.

(** A mapper for the sample: it names a segment by its primitive type,
    which is enough where no type occurs twice. *)
Definition suffix_segment (keep_transient : bool)
    (program_info : list (string * ProgramItem)) : list (string * string) :=
  (λ kv, (kv.1, primitive kv.2)) <$>
  filter (λ kv, bool_decide (primitive kv.2 = "move") = keep_transient)
         program_info.

Definition programlib : ProgramLib :=
  {| suffix_affordance_primitive_segment := suffix_segment false;
     suffix_transient_primitive_segment := suffix_segment true;
     is_transient := λ prim, bool_decide (prim = "move") |}.

Definition k_hold : string := "((0, 2), None)".
Definition k_move : string := "((2, 4), (2, 4))".
Definition k_pour : string := "(None, (4, 6))".
Definition k_idle : string := "((6, 8), None)".
Definition k_rest : string := "((8, 9), None)".

Definition program_info : list (string * ProgramItem) :=
  [ (k_hold, mkProgramItem "hold" "lh_main" ["O1"; "O7"] (Some ["O1"]) None);
    (k_move, mkProgramItem "move" "bimanual" ["O1"; "O2"] None None);
    (k_pour, mkProgramItem "pour" "rh_main" ["O2"] None (Some ["O2"; "O7"])) ].

(** The raw graph: [hold → idle → rest → pour], where [idle] and [rest] are
    not tasks of the sequence, and the transient [move] beside them. *)
Definition g_info : GInfo :=
  {| id_map := [(k_hold, 0); (k_idle, 1); (k_rest, 2); (k_pour, 3);
                (k_move, 4)];
     e := [(0, 1); (1, 2); (2, 3); (0, 4); (4, 3)] |}.

Definition affordance_namemap : list (string * string) :=
  [(k_hold, "hold"); (k_pour, "pour")].

Definition transient_namemap : list (string * string) := [(k_move, "move")].

(** Six frames, one scalar per frame and parameter, one object. *)
Definition frame (fid : Z) : @ParamDict numeric := [("pose", [[fid]])].

Definition hand_frame (fid : Z) : @ParamDict numeric :=
  [("lh__pose", [[10 + fid]]); ("rh__pose", [[20 + fid]])].

Definition anno : @AnnoData numeric :=
  {| mocap_frame_id_list := [0; 1; 2; 3; 4; 5];
     anno_obj_list := ["O1"];
     raw_smplx := (λ fid, (fid, frame fid)) <$> [0; 1; 2; 3; 4; 5];
     raw_mano := (λ fid, (fid, hand_frame fid)) <$> [0; 1; 2; 3; 4; 5];
     anno_obj_transf :=
       [("O1", (λ fid, (fid, 100 + fid)) <$> [0; 1; 2; 3; 4; 5])] |}.

(** The extension of a file name: from its last dot on. *)
Fixpoint extension (el : string) : string :=
  match el with
  | EmptyString => EmptyString
  | String c el' =>
      match extension el' with
      | EmptyString => if decide (c = "."%char) then el else EmptyString
      | ext => ext
      end
  end.

Definition dataset : @OakInk2__Dataset numeric :=
  {| Mesh := string;
     return_instantiated := false;
     obj_model_prefix := "align_ds";
     obj_affordance_part_filedir := "affordance_part";
     task_target := [("scene/seq", "pour a glass of water")];
     program_info_json := λ tok,
       if decide (tok = "scene++seq") then Some program_info else None;
     pdg_json := λ tok,
       if decide (tok = "scene++seq") then Some g_info else None;
     initial_condition_json := λ _, None;
     frame_id_pkl := λ _, None;
     obj_list_json := λ _, None;
     anno_pkl := λ tok,
       if decide (tok = "scene++seq") then Some anno else None;
     listdir := λ dir,
       if decide (dir = "align_ds/O1") then Some ["model.obj"; "notes.txt"]
       else if decide (dir = "align_ds/O2")
            then Some ["scan.ply"; "scan.obj"]
       else if decide (dir = "affordance_part/O3") then Some ["part.ply"]
       else None;
     path_join := λ dir el, (dir +:+ "/" +:+ el)%string;
     splitext := extension;
     trimesh_load := λ path _, Some path |}.

(** A primitive task of the sample sequence, not hydrated: whole-body
    frames [1, 5), left hand [2, 4), no right hand. *)
Definition primitive_task : @OakInk2__PrimitiveTask.t numeric :=
  {| OakInk2__PrimitiveTask.instantiated := false;
     OakInk2__PrimitiveTask.seq_key := "scene/seq";
     OakInk2__PrimitiveTask.seq_token := "scene++seq";
     OakInk2__PrimitiveTask.primitive_task := "hold";
     OakInk2__PrimitiveTask.task_desc := "hold the cup";
     OakInk2__PrimitiveTask.transient := false;
     OakInk2__PrimitiveTask.hand_involved := "lh";
     OakInk2__PrimitiveTask.interaction_mode := "lh_main";
     OakInk2__PrimitiveTask.frame_range := (1, 5);
     OakInk2__PrimitiveTask.frame_range_lh := Some (2, 4);
     OakInk2__PrimitiveTask.frame_range_rh := None;
     OakInk2__PrimitiveTask.scene_obj_list := None;
     OakInk2__PrimitiveTask.task_obj_list := ["O1"; "O7"];
     OakInk2__PrimitiveTask.lh_obj_list := Some ["O7"; "O1"];
     OakInk2__PrimitiveTask.rh_obj_list := None;
     OakInk2__PrimitiveTask.smplx_param := None;
     OakInk2__PrimitiveTask.lh_param := None;
     OakInk2__PrimitiveTask.rh_param := None;
     OakInk2__PrimitiveTask.lh_in_range_mask := None;
     OakInk2__PrimitiveTask.rh_in_range_mask := None;
     OakInk2__PrimitiveTask.obj_transf := None |}.

(** An affordance with a model of its own. *)
Definition affordance : OakInk2__Affordance.t (@Mesh numeric dataset) :=
  {| OakInk2__Affordance.instantiated := false;
     OakInk2__Affordance.obj_id := "O1";
     OakInk2__Affordance.obj_name := "cup";
     OakInk2__Affordance.has_model := true;
     OakInk2__Affordance.obj_instance_id := "O1";
     OakInk2__Affordance.obj_part_id := [];
     OakInk2__Affordance.obj_urdf_filepath := None;
     OakInk2__Affordance.affordance_list := ["contain"];
     OakInk2__Affordance.affordance_instantiation_list := ["pour"];
     OakInk2__Affordance.obj_mesh := None |}.

(** The engine before anything is loaded. *)
Definition empty_state : @State numeric pylib dataset :=
  {| complex_tasks := ∅; obj_cache := ∅ |}.

(** A part tree of depth two. *)
Definition part_tree : list (string * list string) :=
  [("O1", ["O1_body"; "O1_lid"]); ("O1_lid", ["O1_knob"])].

End Sample.

(** * Further operations of the toolkit *)

Section GraphMore.
Context `{PyLib}.

(** A raw node key is valid when its standard form is a key of the name
    map: the test of the first loop of [fix_g_info]. *)
Definition key_valid (namemap : list (string * string)) (k : string) : bool :=
  match standardize_tuple k with
  | Some k' => Dict.mem namemap k'
  | None => false
  end.

(** A raw key that the second loop of [fix_g_info] can look up after the
    first loop has put its standard form on the worklist. *)
Definition key_contractible (namemap : list (string * string)) (k : string)
  : Prop :=
  ∃ k', standardize_tuple k = Some k' ∧ (k' ∈ Dict.keys namemap ∨ k' = k).

(** The id of a raw node that is not a task of the name map. *)
Definition invalid_id (g : GInfo) (namemap : list (string * string)) (i : Z)
  : Prop :=
  ∃ k k', Dict.get (id_map g) k = Some i ∧
          standardize_tuple k = Some k' ∧ k' ∉ Dict.keys namemap.

(** The edge of task identifiers an id pair of the contracted graph stands
    for, through the reversed id-map and the name map. *)
Definition edge_identifiers (rev : list (Z * string))
    (namemap : list (string * string)) (i j : Z) (x y : string) : Prop :=
  ∃ ki kj, Dict.get rev i = Some ki ∧ Dict.get rev j = Some kj ∧
           key_identifier namemap ki x ∧ key_identifier namemap kj y.

End GraphMore.

(** A simple directed graph: no node and no edge twice, and every edge
    between nodes of the graph. *)
Definition digraph_wf (G : DiGraph) : Prop :=
  NoDup (nodes G) ∧ NoDup (edges G) ∧
  ∀ x y, (x, y) ∈ edges G → x ∈ nodes G ∧ y ∈ nodes G.

Section ProgramFiles.
Context `{PyLib}.

(** [load_desc_info]: the same comprehension as [load_program_info], over
    the description file; a value is the JSON object of one segment. *)
Definition load_desc_info (raw : list (string * list (string * string)))
  : option (list (string * list (string * string))) :=
  standardize_keys raw [].

End ProgramFiles.

(** The ids whose meshes [instantiate_affordance] fetches: the object's own
    when it has a model, its parts' otherwise. *)
Definition needed_meshes {Mesh : Type} (affordance_data : OakInk2__Affordance.t Mesh)
  : list string :=
  if OakInk2__Affordance.has_model affordance_data
  then [OakInk2__Affordance.obj_id affordance_data]
  else OakInk2__Affordance.obj_part_id affordance_data.

Section EngineMore.
Context `{Numeric} `{PyLib} `{ProgramLib} `{!OakInk2__Dataset}.

(** The engine's state after an operation has the complex tasks it had and
    every cached mesh it had. *)
Definition cache_grows (σ σ' : State) : Prop :=
  complex_tasks σ' = complex_tasks σ ∧
  ∀ k m, obj_cache σ !! k = Some m → obj_cache σ' !! k = Some m.

(** The tensor [t] stacks the values the annotation [handle] has for the
    key [ori_key] at the frames of [mocap], in that order. *)
Definition stacked (handle : list (Z * ParamDict)) (ori_key : string)
    (mocap : list Z) (t : Tensor) : Prop :=
  ∃ frames,
    Forall2 (λ fid x, ∃ frame, Dict.get handle fid = Some frame ∧
                               Dict.get frame ori_key = Some x)
            mocap frames ∧
    t = concat frames.

End EngineMore.

(** ** Primitive tasks *)

(** What the toolkit asks of a parsed frame-range definition: the two
    helpers of the [program] module and tuple indexing
    ([frame_range_def[i]]: the sub-range of a hand, or [None]). *)
Class FrameRangeDefLib `{PyLib} := {
  frame_range_def_enclose : PyVal → option (Z * Z);
  determine_hand_involved : PyVal → option string;
  frame_range_def_item : PyVal → nat → option (option (Z * Z))
}.

(** The description file of a sequence, keyed by sequence token: for each
    frame-range key the JSON object of the segment. *)
Class DescInfoFiles := {
  desc_info_json : string → option (list (string * list (string * string)))
}.

(** The [primitive_identifier] argument of [load_primitive_task]: [None],
    one identifier, or a list of them. *)
Inductive PrimitiveIdentifier :=
| IdentNone
| IdentStr (primitive_identifier : string)
| IdentList (primitive_identifier : list string).

Section PrimitiveLoader.
Context `{Numeric} `{PyLib} `{ProgramLib} `{!OakInk2__Dataset}.
Context `{!FrameRangeDefLib} `{!DescInfoFiles}.

(** [if program_info is None: program_info = load_program_info(...)] *)
Definition program_info_or_load (seq_token : string)
    (program_info : option (list (string * ProgramItem)))
  : option (list (string * ProgramItem)) :=
  match program_info with
  | Some program_info => Some program_info
  | None => raw ← program_info_json seq_token; load_program_info raw
  end.

(** [if desc_info is None: desc_info = load_desc_info(...)] *)
Definition desc_info_or_load (seq_token : string)
    (desc_info : option (list (string * list (string * string))))
  : option (list (string * list (string * string))) :=
  match desc_info with
  | Some desc_info => Some desc_info
  | None => raw ← desc_info_json seq_token; load_desc_info raw
  end.

(** [_load_primitive_task_from_def] *)
Definition _load_primitive_task_from_def (seq_key : string)
    (frame_range_def : PyVal) (return_instantiated' : option bool)
    (program_info : option (list (string * ProgramItem)))
    (desc_info : option (list (string * list (string * string))))
  : option OakInk2__PrimitiveTask.t :=
  let return_instantiated :=
    default return_instantiated return_instantiated' in
  let seq_token := replace_slash seq_key in
  program_info ← program_info_or_load seq_token program_info;
  desc_info ← desc_info_or_load seq_token desc_info;
  let frame_range_def_key := py_str frame_range_def in
  program_item ← Dict.get program_info frame_range_def_key;
  frame_range ← frame_range_def_enclose frame_range_def;
  frame_range_lh ← frame_range_def_item frame_range_def 0;
  frame_range_rh ← frame_range_def_item frame_range_def 1;
  let primitive := primitive program_item in
  desc_item ← Dict.get desc_info frame_range_def_key;
  task_desc ← Dict.get desc_item "seg_desc";
  let transient := is_transient primitive in
  hand_involved ← determine_hand_involved frame_range_def;
  let scene_obj_list :=
    if negb return_instantiated then obj_list_json seq_token else None in
  Some {| OakInk2__PrimitiveTask.instantiated := false;
          OakInk2__PrimitiveTask.seq_key := seq_key;
          OakInk2__PrimitiveTask.seq_token := seq_token;
          OakInk2__PrimitiveTask.primitive_task := primitive;
          OakInk2__PrimitiveTask.task_desc := task_desc;
          OakInk2__PrimitiveTask.transient := transient;
          OakInk2__PrimitiveTask.hand_involved := hand_involved;
          OakInk2__PrimitiveTask.interaction_mode := interaction_mode program_item;
          OakInk2__PrimitiveTask.frame_range := frame_range;
          OakInk2__PrimitiveTask.frame_range_lh := frame_range_lh;
          OakInk2__PrimitiveTask.frame_range_rh := frame_range_rh;
          OakInk2__PrimitiveTask.scene_obj_list := scene_obj_list;
          OakInk2__PrimitiveTask.task_obj_list := obj_list program_item;
          OakInk2__PrimitiveTask.lh_obj_list := obj_list_lh program_item;
          OakInk2__PrimitiveTask.rh_obj_list := obj_list_rh program_item;
          OakInk2__PrimitiveTask.smplx_param := None;
          OakInk2__PrimitiveTask.lh_param := None;
          OakInk2__PrimitiveTask.rh_param := None;
          OakInk2__PrimitiveTask.lh_in_range_mask := None;
          OakInk2__PrimitiveTask.rh_in_range_mask := None;
          OakInk2__PrimitiveTask.obj_transf := None |}.

(** [_load_primitive_task_from_identifier] *)
Definition _load_primitive_task_from_identifier (seq_key : string)
    (primitive_identifier : string) (return_instantiated' : option bool)
    (program_info : option (list (string * ProgramItem)))
    (desc_info : option (list (string * list (string * string))))
  : option OakInk2__PrimitiveTask.t :=
  let return_instantiated :=
    default return_instantiated return_instantiated' in
  let seq_token := replace_slash seq_key in
  program_info ← program_info_or_load seq_token program_info;
  let affordance_task_namemap :=
    suffix_affordance_primitive_segment program_info in
  let transient_task_namemap :=
    suffix_transient_primitive_segment program_info in
  full ← full_task_namemap program_info affordance_task_namemap
           transient_task_namemap;
  rev ← rev_full_task_namemap full [];
  frame_range_def ← Dict.get rev primitive_identifier;
  _load_primitive_task_from_def seq_key frame_range_def
    (Some return_instantiated) (Some program_info) desc_info.

(** The loop of [load_primitive_task] over the identifiers to load. *)
Fixpoint load_primitive_task_loop (complex_task_data : nat)
    (return_instantiated : bool)
    (program_info : list (string * ProgramItem))
    (desc_info : list (string * list (string * string)))
    (handle_list : list string) : M (list OakInk2__PrimitiveTask.t) :=
  match handle_list with
  | [] => mret []
  | p_ident :: rest =>
      c ← read complex_task_data;
      p_res ← lift (_load_primitive_task_from_identifier
                      (OakInk2__ComplexTask.seq_key c) p_ident
                      (Some return_instantiated) (Some program_info)
                      (Some desc_info));
      p_res ← (if return_instantiated
               then instantiate_primitive_task p_res (Some complex_task_data)
               else mret p_res);
      res ← load_primitive_task_loop complex_task_data return_instantiated
              program_info desc_info rest;
      mret (p_res :: res)
  end.

(** The identifiers [load_primitive_task] loads. *)
Definition handle_list (c : OakInk2__ComplexTask.t)
    (primitive_identifier : PrimitiveIdentifier) : list string :=
  match primitive_identifier with
  | IdentNone => OakInk2__ComplexTask.exec_path c
  | IdentStr primitive_identifier => [primitive_identifier]
  | IdentList primitive_identifier => primitive_identifier
  end.

(** [load_primitive_task]: one task for a single identifier, a list
    otherwise. *)
Definition load_primitive_task (complex_task_data : nat)
    (primitive_identifier : PrimitiveIdentifier)
    (return_instantiated' : option bool)
  : M (OakInk2__PrimitiveTask.t + list OakInk2__PrimitiveTask.t) :=
  let return_instantiated :=
    default return_instantiated return_instantiated' in
  c ← read complex_task_data;
  _ ← (if return_instantiated && negb (OakInk2__ComplexTask.instantiated c)
       then instantiate_complex_task complex_task_data
       else mret complex_task_data);
  c ← read complex_task_data;
  let handle_list := handle_list c primitive_identifier in
  program_info ← lift (raw ← program_info_json (OakInk2__ComplexTask.seq_token c);
                       load_program_info raw);
  desc_info ← lift (raw ← desc_info_json (OakInk2__ComplexTask.seq_token c);
                    load_desc_info raw);
  res ← load_primitive_task_loop complex_task_data return_instantiated
          program_info desc_info handle_list;
  match primitive_identifier with
  | IdentStr _ => p_res ← lift (head res); mret (inl p_res)
  | _ => mret (inr res)
  end.

(** The tasks a call of [load_primitive_task] returned, as a list. *)
Definition loaded_tasks
    (res : OakInk2__PrimitiveTask.t + list OakInk2__PrimitiveTask.t)
  : list OakInk2__PrimitiveTask.t :=
  match res with inl p_res => [p_res] | inr res => res end.

(** ** The index *)

(** [all_seq_list], [__len__] and [__getitem__] *)
Definition all_seq_list : list string := Dict.keys task_target.

Definition __len__ : nat := length all_seq_list.

Definition __getitem__ (index : Z) : M nat :=
  seq_key ← lift (py_index all_seq_list index);
  load_complex_task seq_key (Some return_instantiated).

End PrimitiveLoader.

(** ** Loading affordances *)

(** An entry of [object_affordance.json]. *)
Module ObjectAffordance.
Record t := mk {
  has_model : bool;
  affordance : list string;
  affordance_instantiation : list string
}.
End ObjectAffordance.

(** The affordance files the dataset object reads when it is constructed. *)
Class AffordanceFiles := {
  obj_desc : list (string * list (string * string));
  part_desc : list (string * list (string * string));
  part_tree : list (string * list string);
  object_affordance : list (string * ObjectAffordance.t)
}.

Section AffordanceLoader.
Context `{Numeric} `{PyLib} `{ProgramLib} `{!OakInk2__Dataset}.
Context `{!AffordanceFiles}.

(** The name lookup of [load_affordance]: the object description when it
    has the id, the part description otherwise. *)
Definition lookup_obj_name (obj_id : string) : option string :=
  if Dict.mem obj_desc obj_id
  then desc ← Dict.get obj_desc obj_id; Dict.get desc "obj_name"
  else desc ← Dict.get part_desc obj_id; Dict.get desc "obj_name".

(** [load_affordance]; [fuel] bounds the loop of [get_part_tree_root]. *)
Definition load_affordance (fuel : nat) (obj_id : string)
    (return_instantiated' : option bool) : M (OakInk2__Affordance.t Mesh) :=
  let return_instantiated :=
    default return_instantiated return_instantiated' in
  obj_name ← lift (lookup_obj_name obj_id);
  item ← lift (Dict.get object_affordance obj_id);
  obj_instance_id ← lift (get_part_tree_root fuel (rev_part_tree part_tree) obj_id);
  obj_part_id ← lift (Dict.get part_tree obj_id);
  let res :=
    {| OakInk2__Affordance.instantiated := false;
       OakInk2__Affordance.obj_id := obj_id;
       OakInk2__Affordance.obj_name := obj_name;
       OakInk2__Affordance.has_model := ObjectAffordance.has_model item;
       OakInk2__Affordance.obj_instance_id := obj_instance_id;
       OakInk2__Affordance.obj_part_id := obj_part_id;
       OakInk2__Affordance.obj_urdf_filepath := None;
       OakInk2__Affordance.affordance_list := ObjectAffordance.affordance item;
       OakInk2__Affordance.affordance_instantiation_list :=
         ObjectAffordance.affordance_instantiation item;
       OakInk2__Affordance.obj_mesh := None |} in
  if return_instantiated then instantiate_affordance res else mret res.

(** Every part is listed under one parent only. *)
Definition part_tree_single_parent (pt : list (string * list string)) : Prop :=
  ∀ k parts k' parts' x,
    (k, parts) ∈ pt → x ∈ parts → (k', parts') ∈ pt → x ∈ parts' → k' = k.

End AffordanceLoader.

(** ** More of the sample dataset *)

Module SampleMore.
Import Sample.

Definition enclose (d : string) : option (Z * Z) :=
  if decide (d = k_hold) then Some (0, 2)
  else if decide (d = k_move) then Some (2, 4)
  else if decide (d = k_pour) then Some (4, 6) else None.

Definition hand_involved (d : string) : option string :=
  if decide (d = k_hold) then Some "lh"
  else if decide (d = k_move) then Some "bh"
  else if decide (d = k_pour) then Some "rh" else None.

Definition hand_range (d : string) (i : nat) : option (option (Z * Z)) :=
  if decide (d = k_hold)
  then match i with
       | 0%nat => Some (Some (0, 2)) | 1%nat => Some None | _ => None
       end
  else if decide (d = k_move)
  then match i with
       | 0%nat => Some (Some (2, 4)) | 1%nat => Some (Some (2, 4))
       | _ => None
       end
  else if decide (d = k_pour)
  then match i with
       | 0%nat => Some None | 1%nat => Some (Some (4, 6)) | _ => None
       end
  else None.

Definition framerangedeflib : @FrameRangeDefLib pylib :=
  {| frame_range_def_enclose := enclose : @PyVal pylib → _;
     determine_hand_involved := hand_involved : @PyVal pylib → _;
     frame_range_def_item := hand_range : @PyVal pylib → _ |}.

Definition descinfofiles : DescInfoFiles :=
  {| desc_info_json := λ tok,
       if decide (tok = "scene++seq")
       then Some [ (k_hold, [("seg_desc", "hold the cup")]);
                   (k_move, [("seg_desc", "move to the glass")]);
                   (k_pour, [("seg_desc", "pour the water")]) ]
       else None |}.

(** The kettle [O1] with its parts, the leaves listed with no part. *)
Definition kettle_tree : list (string * list string) :=
  [("O1", ["O1_body"; "O1_lid"]); ("O1_lid", ["O1_knob"]);
   ("O1_body", []); ("O1_knob", [])].

Definition affordancefiles : AffordanceFiles :=
  Build_AffordanceFiles
    [("O1", [("obj_name", "kettle")])]
    [("O1_body", [("obj_name", "kettle body")]);
     ("O1_lid", [("obj_name", "kettle lid")]);
     ("O1_knob", [("obj_name", "lid knob")])]
    kettle_tree
    [("O1", ObjectAffordance.mk true ["contain"] ["pour"]);
     ("O1_body", ObjectAffordance.mk false ["contain"] []);
     ("O1_lid", ObjectAffordance.mk false ["cover"] []);
     ("O1_knob", ObjectAffordance.mk false ["grasp"] ["lift"])].

(** The raw graph of the sample without the two nodes that are no tasks of
    the sequence. *)
Definition g_valid : GInfo :=
  {| id_map := [(k_hold, 0); (k_pour, 3)]; e := [(0, 3)] |}.

(** The engine with the mesh of [O1] already in the cache. *)
Definition cached_state : @State numeric pylib dataset :=
  {| complex_tasks := ∅;
     obj_cache := {[ "O1"%string := "align_ds/O1/model.obj"%string ]} |}.

End SampleMore.

(** * Properties *)

(** ** Lists *)

Section ListFacts.
Context {A B : Type}.

Lemma filter_all (P : A → Prop) `{!∀ x, Decision (P x)} (l : list A) :
  (∀ x, x ∈ l → P x) → filter P l = l.
Proof.
  induction l as [|x l IH]; intros HP; [done|].
  rewrite filter_cons_True by (apply HP; left).
  f_equal. apply IH. intros y Hy. apply HP. by right.
Qed.

Lemma Forall2_elem_of_l (P : A → B → Prop) l k x :
  Forall2 P l k → x ∈ l → ∃ y, y ∈ k ∧ P x y.
Proof.
  intros HF (i & Hi)%list_elem_of_lookup.
  destruct (Forall2_lookup_l _ _ _ _ _ HF Hi) as (y & Hy & HP).
  exists y. split; [|done]. apply list_elem_of_lookup. eauto.
Qed.

Lemma Forall2_elem_of_r (P : A → B → Prop) l k y :
  Forall2 P l k → y ∈ k → ∃ x, x ∈ l ∧ P x y.
Proof.
  intros HF (i & Hi)%list_elem_of_lookup.
  destruct (Forall2_lookup_r _ _ _ _ _ HF Hi) as (x & Hx & HP).
  exists x. split; [|done]. apply list_elem_of_lookup. eauto.
Qed.

Lemma Forall2_zip_elem (P : A → B → Prop) l k x y :
  Forall2 P l k → (x, y) ∈ zip l k → P x y.
Proof.
  induction 1 as [|x0 y0 l k HP _ IH]; simpl.
  - by intros ?%elem_of_nil.
  - intros [?|?]%elem_of_cons; [by simplify_eq | auto].
Qed.

Lemma Forall2_zip_elem_l (P : A → B → Prop) l k x :
  Forall2 P l k → x ∈ l → ∃ y, (x, y) ∈ zip l k.
Proof.
  induction 1 as [|x0 y0 l k HP _ IH]; simpl.
  - by intros ?%elem_of_nil.
  - intros [->|Hin]%elem_of_cons.
    + exists y0. left.
    + destruct (IH Hin) as [y ?]. exists y. by right.
Qed.

Lemma Forall2_NoDup_inj (f : A → option B) l k :
  Forall2 (λ x y, f x = Some y) l k → NoDup l →
  (∀ x1 x2 y, x1 ∈ l → x2 ∈ l → f x1 = Some y → f x2 = Some y → x1 = x2) →
  NoDup k.
Proof.
  induction 1 as [|x0 y0 l k Hf HF IH]; intros Hnd Hinj; [constructor|].
  apply NoDup_cons in Hnd as [Hx0 Hnd]. apply NoDup_cons. split.
  - intros Hy0. destruct (Forall2_elem_of_r _ _ _ _ HF Hy0) as (x & Hx & Hfx).
    apply Hx0. rewrite (Hinj x0 x y0); [done | left | by right | done..].
  - apply IH; [done|]. intros x1 x2 y H1 H2. apply Hinj; by right.
Qed.

Lemma filter_true_replicate (n : nat) (b : bool) :
  filter (λ b, b = true) (replicate n b) = if b then replicate n true else [].
Proof.
  induction n as [|n IH]; simpl; [by destruct b|].
  rewrite filter_cons, IH. by destruct b.
Qed.

Lemma count_true_window (x k y : nat) :
  count_true (replicate x false ++ replicate k true ++ replicate y false) = k.
Proof.
  unfold count_true. rewrite !filter_app, !filter_true_replicate.
  simpl. by rewrite app_nil_r, length_replicate.
Qed.

Lemma lookup_window (x k y i : nat) :
  (i < x + k + y)%nat →
  (replicate x false ++ replicate k true ++ replicate y false) !! i =
  Some (bool_decide (x ≤ i < x + k)%nat).
Proof.
  intros Hi. destruct (decide (i < x)%nat) as [Hx|Hx].
  - rewrite lookup_app_l by (rewrite length_replicate; lia).
    rewrite bool_decide_false by lia. apply lookup_replicate. split; [done|lia].
  - rewrite lookup_app_r by (rewrite length_replicate; lia).
    rewrite length_replicate.
    destruct (decide (i - x < k)%nat) as [Hk|Hk].
    + rewrite lookup_app_l by (rewrite length_replicate; lia).
      rewrite bool_decide_true by lia. apply lookup_replicate. split; [done|lia].
    + rewrite lookup_app_r by (rewrite length_replicate; lia).
      rewrite length_replicate. rewrite bool_decide_false by lia.
      apply lookup_replicate. split; [done|lia].
Qed.

End ListFacts.

(** ** Dictionaries *)

Section DictFacts.
Context {K V : Type} `{EqDecision K}.
Implicit Types (d : list (K * V)) (k : K) (v : V).

Lemma dict_get_Some_elem d k v : Dict.get d k = Some v → (k, v) ∈ d.
Proof.
  induction d as [|[k' v'] d IH]; simpl; [done|].
  case_decide; intros Hg.
  - simplify_eq. left.
  - right. auto.
Qed.

Lemma dict_get_None d k : Dict.get d k = None ↔ k ∉ Dict.keys d.
Proof.
  unfold Dict.keys. induction d as [|[k' v'] d IH]; simpl.
  - split; [intros _; apply not_elem_of_nil | done].
  - rewrite not_elem_of_cons, <- IH. case_decide.
    + split; [done | intros [? _]; done].
    + split; [by auto | by intros [_ ?]].
Qed.

Lemma dict_get_is_Some d k : is_Some (Dict.get d k) ↔ k ∈ Dict.keys d.
Proof.
  rewrite <- not_eq_None_Some, dict_get_None.
  destruct (decide (k ∈ Dict.keys d)); naive_solver.
Qed.

Lemma dict_elem_get d k v : Dict.wf d → (k, v) ∈ d → Dict.get d k = Some v.
Proof.
  unfold Dict.wf, Dict.keys.
  induction d as [|[k' v'] d IH]; simpl; intros Hnd Hin.
  - by apply elem_of_nil in Hin.
  - apply NoDup_cons in Hnd as [Hk Hnd].
    apply elem_of_cons in Hin as [Heq|Hin].
    + simplify_eq. by rewrite decide_True.
    + rewrite decide_False; [auto|].
      intros ->. apply Hk. apply list_elem_of_fmap. by exists (k, v).
Qed.

Lemma dict_mem_true d k : Dict.mem d k = true ↔ k ∈ Dict.keys d.
Proof.
  unfold Dict.mem. rewrite <- dict_get_is_Some.
  destruct (Dict.get d k); split; (done || eauto || by intros [? ?]).
Qed.

Lemma dict_mem_false d k : Dict.mem d k = false ↔ k ∉ Dict.keys d.
Proof.
  rewrite <- dict_mem_true. destruct (Dict.mem d k); naive_solver.
Qed.

Lemma dict_without_get_eq d k : Dict.get (Dict.without d k) k = None.
Proof.
  apply dict_get_None. unfold Dict.keys, Dict.without.
  intros ([k' v'] & -> & Hin)%list_elem_of_fmap.
  apply list_elem_of_filter in Hin as [Hne _]. by apply Hne.
Qed.

Lemma dict_without_get_ne d k k' :
  k ≠ k' → Dict.get (Dict.without d k) k' = Dict.get d k'.
Proof.
  intros Hne. unfold Dict.without.
  induction d as [|[k0 v0] d IH]; [done|].
  rewrite filter_cons. simpl. destruct (decide (k0 ≠ k)) as [Hk|Hk]; simpl.
  - case_decide; [done | apply IH].
  - apply dec_stable in Hk. subst k0. rewrite decide_False; [apply IH | done].
Qed.

Lemma dict_without_get_Some d k k' v :
  Dict.get (Dict.without d k) k' = Some v → k' ≠ k ∧ Dict.get d k' = Some v.
Proof.
  intros Hg. destruct (decide (k = k')) as [->|Hne].
  - by rewrite dict_without_get_eq in Hg.
  - rewrite dict_without_get_ne in Hg by done. auto.
Qed.

Lemma dict_values_inj d k1 k2 v :
  NoDup (Dict.values d) → (k1, v) ∈ d → (k2, v) ∈ d → k1 = k2.
Proof.
  unfold Dict.values. induction d as [|[k0 v0] d IH]; simpl; intros Hnd H1 H2.
  - by apply elem_of_nil in H1.
  - apply NoDup_cons in Hnd as [Hv Hnd].
    assert (Hfresh : ∀ k, (k, v0) ∉ d).
    { intros k Hk. apply Hv. apply list_elem_of_fmap. by exists (k, v0). }
    apply elem_of_cons in H1 as [?|H1]; apply elem_of_cons in H2 as [?|H2];
      simplify_eq; try done; try (by exfalso; eapply Hfresh); auto.
Qed.

Lemma dict_without_wf d k : Dict.wf d → Dict.wf (Dict.without d k).
Proof.
  unfold Dict.wf, Dict.keys, Dict.without. intros Hnd.
  induction d as [|[k0 v0] d IH]; [done|].
  apply NoDup_cons in Hnd as [Hk Hnd].
  rewrite filter_cons. destruct (decide ((k0, v0).1 ≠ k)); [|auto].
  rewrite fmap_cons. apply NoDup_cons. split; [|auto].
  intros ([k' v'] & Heq & Hin)%list_elem_of_fmap. simpl in Heq. subst k'.
  apply list_elem_of_filter in Hin as [_ Hin].
  apply Hk. apply list_elem_of_fmap. by exists (k0, v').
Qed.

Lemma dict_elem_of_set d k v k' v' :
  (k', v') ∈ Dict.set d k v → (k', v') ∈ d ∨ (k', v') = (k, v).
Proof.
  induction d as [|[k0 v0] d IH]; simpl.
  - intros ->%list_elem_of_singleton. by right.
  - case_decide.
    + subst k0. intros [->|Hin]%elem_of_cons.
      * by right.
      * left. by right.
    + intros [->|Hin]%elem_of_cons; [left; left|].
      destruct (IH Hin); [left; by right | by right].
Qed.

Lemma dict_get_set d k v k' :
  Dict.get (Dict.set d k v) k' = if decide (k = k') then Some v else Dict.get d k'.
Proof.
  induction d as [|[k0 v0] d IH]; simpl.
  - done.
  - destruct (decide (k0 = k)) as [->|Hne]; simpl.
    + by destruct (decide (k = k')).
    + rewrite IH. destruct (decide (k0 = k')) as [->|?]; [|done].
      by rewrite decide_False by done.
Qed.

Lemma dict_set_fresh d k v :
  k ∉ Dict.keys d → Dict.set d k v = d ++ [(k, v)].
Proof.
  unfold Dict.keys. induction d as [|[k0 v0] d IH]; simpl; [done|].
  intros [Hne Hnin]%not_elem_of_cons.
  rewrite decide_False by done. by rewrite IH.
Qed.

Lemma dict_keys_set d k v :
  Dict.keys (Dict.set d k v) =
  if decide (k ∈ Dict.keys d) then Dict.keys d else Dict.keys d ++ [k].
Proof.
  unfold Dict.keys. induction d as [|[k0 v0] d IH].
  - done.
  - simpl Dict.set. destruct (decide (k0 = k)) as [->|Hne].
    + rewrite !fmap_cons. simpl. rewrite decide_True; [done | left].
    + rewrite !fmap_cons, IH. simpl. destruct (decide (k ∈ d.*1)).
      * rewrite decide_True; [done | by right].
      * rewrite decide_False; [done|]. apply not_elem_of_cons. split; auto.
Qed.

Lemma dict_set_wf d k v : Dict.wf d → Dict.wf (Dict.set d k v).
Proof.
  unfold Dict.wf. rewrite dict_keys_set. case_decide; [done|].
  intros Hnd. apply NoDup_app. split_and!; [done | | apply NoDup_singleton].
  intros x Hx ->%list_elem_of_singleton. done.
Qed.

Lemma dict_get_merge d1 d2 k :
  Dict.wf d2 →
  Dict.get (Dict.merge d1 d2) k =
  match Dict.get d2 k with Some v => Some v | None => Dict.get d1 k end.
Proof.
  unfold Dict.merge, Dict.wf, Dict.keys. revert d1.
  induction d2 as [|[k0 v0] d2 IH]; intros d1 Hnd; simpl; [done|].
  apply NoDup_cons in Hnd as [Hk0 Hnd]. rewrite IH by done.
  rewrite dict_get_set. simpl. destruct (decide (k0 = k)) as [->|Hne]; [|done].
  assert (Dict.get d2 k = None) as -> by (by apply dict_get_None).
  done.
Qed.

End DictFacts.

(** ** Node contraction on the edge list *)

Section ContractEdges.
Implicit Types (es : list (Z * Z)) (n u v w : Z) (ws ids : list Z).

Lemma elem_of_contract_edges es n u v :
  (u, v) ∈ contract_edges es n ↔
  u ≠ n ∧ v ≠ n ∧ ((u, v) ∈ es ∨ ((u, n) ∈ es ∧ (n, v) ∈ es)).
Proof.
  unfold contract_edges. rewrite list_elem_of_filter, elem_of_app. simpl.
  split.
  - intros [[Hu Hv] [Hin|Hin]]; [by auto|].
    apply list_elem_of_bind in Hin as ([u1 v1] & Hin2 & Hin1).
    apply list_elem_of_fmap in Hin2 as ([u2 v2] & Heq & Hin2).
    apply list_elem_of_filter in Hin1 as [? Hin1].
    apply list_elem_of_filter in Hin2 as [? Hin2].
    simpl in *. simplify_eq. auto.
  - intros (Hu & Hv & [Hin|[Hin1 Hin2]]); [by auto|].
    split; [done|]. right.
    apply list_elem_of_bind. exists (u, n). split.
    + apply list_elem_of_fmap. exists (n, v). split; [done|].
      by apply list_elem_of_filter.
    + by apply list_elem_of_filter.
Qed.

Lemma contract_edges_keeps es n u v :
  (u, v) ∈ es → u ≠ n → v ≠ n → (u, v) ∈ contract_edges es n.
Proof. intros. apply elem_of_contract_edges. auto. Qed.

Lemma contract_edges_bridges es n u v :
  (u, n) ∈ es → (n, v) ∈ es → u ≠ n → v ≠ n → (u, v) ∈ contract_edges es n.
Proof. intros. apply elem_of_contract_edges. auto. Qed.

Lemma contract_edges_untouched_self es n : untouched (contract_edges es n) n.
Proof.
  intros [u v] Hin. apply elem_of_contract_edges in Hin. simpl. tauto.
Qed.

Lemma contract_edges_untouched_other es n m :
  untouched es m → untouched (contract_edges es n) m.
Proof.
  intros Hm [u v] Hin. apply elem_of_contract_edges in Hin.
  destruct Hin as (_ & _ & [Hin|[Hin1 Hin2]]); simpl.
  - apply (Hm _ Hin).
  - split; [apply (Hm _ Hin1) | apply (Hm _ Hin2)].
Qed.

(** One contraction shortens every walk between two surviving nodes by the
    occurrences of the contracted node. *)
Lemma contract_edges_path es n ws : ∀ u v,
  u ≠ n → v ≠ n →
  path es u ws v ∨ ((u, n) ∈ es ∧ path es n ws v) →
  path (contract_edges es n) u (filter (λ w, w ≠ n) ws) v.
Proof.
  induction ws as [|w ws IH]; intros u v Hu Hv Hp; simpl in *.
  - destruct Hp as [Hp|[Hp1 Hp2]].
    + by apply contract_edges_keeps.
    + by apply contract_edges_bridges.
  - rewrite filter_cons. destruct (decide (w ≠ n)) as [Hw|Hw].
    + simpl. destruct Hp as [[Huw Hp]|[Hun [Hnw Hp]]].
      * split; [by apply contract_edges_keeps | apply IH; auto].
      * split; [by apply contract_edges_bridges | apply IH; auto].
    + apply dec_stable in Hw. subst w. apply IH; [done..|].
      right. destruct Hp as [[Huw Hp]|[Hun [Hnw Hp]]]; auto.
Qed.

Lemma foldl_contract_edges_untouched ids : ∀ es m,
  untouched es m → untouched (foldl contract_edges es ids) m.
Proof.
  induction ids as [|n ids IH]; intros es m Hm; simpl; [done|].
  apply IH. by apply contract_edges_untouched_other.
Qed.

Lemma foldl_contract_edges_removes ids : ∀ es n,
  n ∈ ids → untouched (foldl contract_edges es ids) n.
Proof.
  induction ids as [|m ids IH]; intros es n Hin; simpl.
  - by apply elem_of_nil in Hin.
  - apply elem_of_cons in Hin as [->|Hin]; [|by apply IH].
    apply foldl_contract_edges_untouched, contract_edges_untouched_self.
Qed.

(** Contracting every interior node of a walk leaves the direct edge. *)
Lemma foldl_contract_edges_path ids : ∀ es ws u v,
  u ∉ ids → v ∉ ids → Forall (λ w, w ∈ ids) ws →
  path es u ws v → (u, v) ∈ foldl contract_edges es ids.
Proof.
  induction ids as [|n ids IH]; intros es ws u v Hu Hv Hws Hp; simpl.
  - destruct ws as [|w ws]; [done|].
    apply Forall_cons in Hws as [Hw _]. by apply elem_of_nil in Hw.
  - apply not_elem_of_cons in Hu as [Hun Hu].
    apply not_elem_of_cons in Hv as [Hvn Hv].
    apply (IH _ (filter (λ w, w ≠ n) ws)); [done..| |].
    + apply Forall_forall. intros w [Hwn Hw]%list_elem_of_filter.
      rewrite Forall_forall in Hws. specialize (Hws _ Hw).
      apply elem_of_cons in Hws as [?|?]; [done|done].
    + apply contract_edges_path; auto.
Qed.

End ContractEdges.

(** ** [fix_g_info] *)

Section FixGInfo.
Context `{PyLib}.
Implicit Types (g : GInfo) (nm : list (string * string)).
Implicit Types (nodes ks : list string) (ids : list Z).

(** [str] and [ast.literal_eval] are inverse on the values keys denote. *)
Hypothesis literal_eval_str : ∀ v : PyVal, literal_eval (py_str v) = Some v.

Lemma standardize_tuple_idem s t :
  standardize_tuple s = Some t → standardize_tuple t = Some t.
Proof using literal_eval_str.
  unfold standardize_tuple. intros Hs.
  apply fmap_Some in Hs as (v & _ & ->). by rewrite literal_eval_str.
Qed.

Lemma node_to_contact_elem ks : ∀ nm nodes w,
  node_to_contact ks nm = Some nodes →
  w ∈ nodes ↔
  Dict.mem nm w = false ∧ ∃ k, k ∈ ks ∧ standardize_tuple k = Some w.
Proof.
  induction ks as [|k ks IH]; intros nm nodes w Hn; simpl in Hn.
  - simplify_eq. split.
    + by intros ?%elem_of_nil.
    + intros (_ & k & ?%elem_of_nil & _). done.
  - destruct (standardize_tuple k) as [k'|] eqn:Hk; [|done]. simpl in Hn.
    destruct (node_to_contact ks nm) as [rest|] eqn:Hrest; [|done].
    simpl in Hn. simplify_eq. specialize (IH _ _ w Hrest).
    destruct (Dict.mem nm k') eqn:Hmem.
    + rewrite IH. split.
      * intros (? & k0 & ? & ?). split; [done|]. exists k0.
        split; [by right | done].
      * intros (Hw & k0 & Hin & Hstd). split; [done|].
        apply elem_of_cons in Hin as [->|Hin]; [|by eauto].
        congruence.
    + rewrite elem_of_cons, IH. split.
      * intros [->|(? & k0 & ? & ?)].
        -- split; [done|]. exists k. split; [left | done].
        -- split; [done|]. exists k0. split; [by right | done].
      * intros (Hw & k0 & Hin & Hstd).
        apply elem_of_cons in Hin as [->|Hin]; [left; congruence|].
        right. eauto.
Qed.

(** Two distinct raw keys with the same invalid standard form put that form
    on the worklist twice. *)
Lemma node_to_contact_dup ks : ∀ nm nodes k1 k2 w,
  node_to_contact ks nm = Some nodes →
  k1 ≠ k2 → k1 ∈ ks → k2 ∈ ks →
  standardize_tuple k1 = Some w → standardize_tuple k2 = Some w →
  Dict.mem nm w = false →
  ¬ NoDup nodes.
Proof.
  induction ks as [|k ks IH]; intros nm nodes k1 k2 w Hn Hne H1 H2 Hs1 Hs2 Hw.
  { by apply elem_of_nil in H1. }
  simpl in Hn.
  destruct (standardize_tuple k) as [k'|] eqn:Hk; [|done]. simpl in Hn.
  destruct (node_to_contact ks nm) as [rest|] eqn:Hrest; [|done].
  simpl in Hn. simplify_eq.
  assert (Hhead : ∀ k0, k0 ∈ ks → standardize_tuple k0 = Some w →
            standardize_tuple k = Some w →
            ¬ NoDup (if Dict.mem nm k' then rest else k' :: rest)).
  { intros k0 Hin Hs0 Hsk. assert (k' = w) as -> by congruence.
    rewrite Hw. intros [Hnin _]%NoDup_cons. apply Hnin.
    apply (node_to_contact_elem ks nm); [done|]. eauto. }
  apply elem_of_cons in H1 as [->|H1]; apply elem_of_cons in H2 as [->|H2].
  - done.
  - by apply (Hhead k2).
  - by apply (Hhead k1).
  - intros Hnd. apply (IH nm rest k1 k2 w); try done.
    destruct (Dict.mem nm k'); [done|]. by apply NoDup_cons in Hnd as [_ ?].
Qed.

Lemma node_to_contact_standard ks nm :
  Forall (λ k, standardize_tuple k = Some k) ks →
  node_to_contact ks nm = Some (filter (λ k, Dict.mem nm k = false) ks).
Proof.
  induction 1 as [|k ks Hk _ IH]; [done|].
  simpl. rewrite Hk. simpl. rewrite IH. simpl. rewrite filter_cons.
  destruct (Dict.mem nm k); by rewrite ?decide_True, ?decide_False by done.
Qed.

Lemma contract_all_spec nodes : ∀ g g',
  contract_all g nodes = Some g' →
  ∃ ids,
    Forall2 (λ n i, Dict.get (id_map g) n = Some i) nodes ids ∧
    NoDup nodes ∧
    e g' = foldl contract_edges (e g) ids ∧
    id_map g' = filter (λ kv, kv.1 ∉ nodes) (id_map g).
Proof.
  induction nodes as [|node rest IH]; intros g g' Hc; simpl in Hc.
  - simplify_eq. exists []. split_and!; [constructor | constructor | done |].
    symmetry. apply filter_all. intros kv _. apply not_elem_of_nil.
  - unfold contract in Hc.
    destruct (Dict.get (id_map g) node) as [i|] eqn:Hi; [|done].
    simpl in Hc. apply IH in Hc as (ids & Hall & Hnd & He & Hm).
    simpl in *. exists (i :: ids). split_and!.
    + constructor; [done|].
      eapply Forall2_impl; [exact Hall|]. simpl.
      intros n j Hn. by apply dict_without_get_Some in Hn as [_ ?].
    + apply NoDup_cons. split; [|done]. intros Hin.
      destruct (Forall2_elem_of_l _ _ _ _ Hall Hin) as (j & _ & Hj).
      simpl in Hj. by rewrite dict_without_get_eq in Hj.
    + done.
    + rewrite Hm. unfold Dict.without. rewrite list_filter_filter.
      apply list_filter_iff. intros kv. rewrite not_elem_of_cons. tauto.
Qed.

Lemma contract_all_total nodes : ∀ g,
  NoDup nodes → Forall (λ n, n ∈ Dict.keys (id_map g)) nodes →
  is_Some (contract_all g nodes).
Proof.
  induction nodes as [|node rest IH]; intros g Hnd Hall; simpl; [by eauto|].
  apply NoDup_cons in Hnd as [Hnin Hnd].
  apply Forall_cons in Hall as [Hnode Hall].
  apply dict_get_is_Some in Hnode as [i Hi]. unfold contract. rewrite Hi. simpl.
  apply IH; [done|]. simpl.
  rewrite Forall_forall in Hall. apply Forall_forall. intros n Hn.
  apply dict_get_is_Some. rewrite dict_without_get_ne by (by intros ->).
  apply dict_get_is_Some. auto.
Qed.

(** C1. Node contraction bridges a chain of two invalid nodes: when the raw
    graph has edges [a → x1 → x2 → b] between the ids of four raw keys, the
    keys of [a] and [b] being keys of the task name map and those of [x1]
    and [x2] not, every graph [fix_g_info] returns has the edge [a → b], has
    neither invalid key in its id-map and no edge touching [x1] or [x2].
    The raw graph is a dictionary (keys once) whose ids name one node each;
    [fix_g_info] does return when the raw keys are in standard form. *)
Theorem fix_g_info_bridges_invalid_chain
    g nm kA kX1 kX2 kB sA sX1 sX2 sB a x1 x2 b :
  Dict.wf (id_map g) →
  NoDup (Dict.values (id_map g)) →
  Dict.get (id_map g) kA = Some a → Dict.get (id_map g) kX1 = Some x1 →
  Dict.get (id_map g) kX2 = Some x2 → Dict.get (id_map g) kB = Some b →
  standardize_tuple kA = Some sA → sA ∈ Dict.keys nm →
  standardize_tuple kB = Some sB → sB ∈ Dict.keys nm →
  standardize_tuple kX1 = Some sX1 → sX1 ∉ Dict.keys nm →
  standardize_tuple kX2 = Some sX2 → sX2 ∉ Dict.keys nm →
  (a, x1) ∈ e g → (x1, x2) ∈ e g → (x2, b) ∈ e g →
  (∀ g', fix_g_info g nm = Some g' →
     (a, b) ∈ e g' ∧
     (kX1 ∉ Dict.keys (id_map g')) ∧ (kX2 ∉ Dict.keys (id_map g')) ∧
     untouched (e g') x1 ∧ untouched (e g') x2) ∧
  (Forall (λ k, standardize_tuple k = Some k) (Dict.keys (id_map g)) →
   is_Some (fix_g_info g nm)).
Proof using literal_eval_str.
  intros Hwf Hinj HA HX1 HX2 HB HsA HnA HsB HnB HsX1 HnX1 HsX2 HnX2 E1 E2 E3.
  apply dict_mem_false in HnX1, HnX2. apply dict_mem_true in HnA, HnB.
  split.
  - intros g' Hfix. unfold fix_g_info in Hfix.
    destruct (node_to_contact (Dict.keys (id_map g)) nm) as [nodes|] eqn:Hn;
      [|done].
    simpl in Hfix.
    assert (Hkey : ∀ k i, Dict.get (id_map g) k = Some i →
              k ∈ Dict.keys (id_map g)).
    { intros k i Hk. apply dict_get_is_Some. eauto. }
    assert (HsX1n : sX1 ∈ nodes).
    { apply (node_to_contact_elem _ _ _ _ Hn). split; [done|]. eauto. }
    assert (HsX2n : sX2 ∈ nodes).
    { apply (node_to_contact_elem _ _ _ _ Hn). split; [done|]. eauto. }
    rewrite decide_False in Hfix
      by (destruct nodes; [by apply elem_of_nil in HsX1n | done]).
    apply contract_all_spec in Hfix as (ids & Hall & Hnd & He & Hm).
    (* an invalid raw key is in standard form, or the worklist repeats *)
    assert (Hstd : ∀ k s i, Dict.get (id_map g) k = Some i →
              standardize_tuple k = Some s → Dict.mem nm s = false → s = k).
    { intros k s i Hk Hs Hmem. destruct (decide (s = k)) as [|Hne]; [done|].
      exfalso. assert (Hsn : s ∈ nodes).
      { apply (node_to_contact_elem _ _ _ _ Hn). split; [done|]. eauto. }
      destruct (Forall2_elem_of_l _ _ _ _ Hall Hsn) as (j & _ & Hj).
      refine (node_to_contact_dup _ _ _ s k s Hn Hne _ _ _ Hs Hmem Hnd);
        eauto using standardize_tuple_idem. }
    assert (sX1 = kX1) as -> by eauto. assert (sX2 = kX2) as -> by eauto.
    (* ids of worklist nodes *)
    assert (Hid : ∀ k i, k ∈ nodes → Dict.get (id_map g) k = Some i → i ∈ ids).
    { intros k i Hk Hi.
      destruct (Forall2_elem_of_l _ _ _ _ Hall Hk) as (j & Hj & Hkj).
      simpl in Hkj. congruence. }
    (* a valid raw key is never contracted *)
    assert (Hvalid : ∀ k s i, Dict.get (id_map g) k = Some i →
              standardize_tuple k = Some s → Dict.mem nm s = true → i ∉ ids).
    { intros k s i Hk Hs Hmem Hi.
      destruct (Forall2_elem_of_r _ _ _ _ Hall Hi) as (w & Hw & Hwi).
      simpl in Hwi.
      assert (w = k) as ->.
      { eapply dict_values_inj; eauto using dict_get_Some_elem. }
      apply (node_to_contact_elem _ _ _ _ Hn) in Hw as (Hwm & k0 & _ & Hk0).
      apply standardize_tuple_idem in Hk0. congruence. }
    split_and!.
    + rewrite He. apply (foldl_contract_edges_path _ _ [x1; x2]).
      * by apply (Hvalid kA sA).
      * by apply (Hvalid kB sB).
      * repeat constructor; eauto.
      * simpl. auto.
    + rewrite Hm. unfold Dict.keys.
      intros ([k v] & -> & [Hk _]%list_elem_of_filter)%list_elem_of_fmap.
      by apply Hk.
    + rewrite Hm. unfold Dict.keys.
      intros ([k v] & -> & [Hk _]%list_elem_of_filter)%list_elem_of_fmap.
      by apply Hk.
    + rewrite He. apply foldl_contract_edges_removes. eauto.
    + rewrite He. apply foldl_contract_edges_removes. eauto.
  - intros Hstd. unfold fix_g_info.
    rewrite (node_to_contact_standard _ _ Hstd). simpl.
    case_decide; [by eauto|].
    apply contract_all_total.
    + by apply NoDup_filter.
    + apply Forall_forall. by intros k [_ ?]%list_elem_of_filter.
Qed.

End FixGInfo.

(** ** The merged task name map *)

Section TaskNameMapFacts.
Context `{PyLib}.
Implicit Types (program_info : list (string * ProgramItem)).
Implicit Types (aff tr full m acc : list (string * string)) (ks : list string).

Lemma reorder_namemap_spec ks : ∀ m acc,
  NoDup ks → (∀ k, k ∈ ks → k ∉ Dict.keys acc) →
  reorder_namemap ks m acc =
  (vs ← mapM (Dict.get m) ks; Some (acc ++ zip ks vs)).
Proof.
  induction ks as [|k ks IH]; intros m acc Hnd Hfresh; simpl.
  - by rewrite app_nil_r.
  - apply NoDup_cons in Hnd as [Hk Hnd].
    destruct (Dict.get m k) as [v|] eqn:Hv; simpl; [|done].
    rewrite IH; [| done |].
    + destruct (mapM (Dict.get m) ks) as [vs|]; simpl; [|done].
      rewrite dict_set_fresh by (apply Hfresh; left).
      by rewrite <- app_assoc.
    + intros k' Hk'. rewrite dict_keys_set.
      rewrite decide_False by (apply Hfresh; left).
      rewrite elem_of_app, list_elem_of_singleton.
      intros [Hin| ->]; [|done]. revert Hin. apply Hfresh. by right.
Qed.

Lemma standardize_keys_wf {V : Type} (raw : list (string * V)) :
  ∀ d res : list (string * V),
  Dict.wf d → standardize_keys raw d = Some res → Dict.wf res.
Proof.
  induction raw as [|[k v] raw IH]; intros d res Hwf Hs; simpl in Hs.
  - by simplify_eq.
  - destruct (standardize_tuple k) as [k'|]; [|done]. simpl in Hs.
    eapply IH; [|exact Hs]. by apply dict_set_wf.
Qed.

(** The metadata [load_program_info] returns is a dictionary. *)
Lemma load_program_info_wf raw program_info :
  load_program_info raw = Some program_info → Dict.wf program_info.
Proof. apply standardize_keys_wf. constructor. Qed.

(** C6. For metadata that is a dictionary and two submaps that meet the
    mapper's contract, [load_complex_task] does build the merged map; its
    keys are the metadata's keys in the metadata's order (none dropped, none
    twice), its identifiers are pairwise distinct, and each key carries the
    identifier its submap gave it. *)
Theorem full_task_namemap_bijection program_info aff tr :
  Dict.wf program_info →
  TaskNameMapperSpec program_info aff tr →
  ∃ full,
    full_task_namemap program_info aff tr = Some full ∧
    Dict.keys full = Dict.keys program_info ∧
    NoDup (Dict.values full) ∧
    (∀ k v, Dict.get full k = Some v ↔ (k, v) ∈ aff ∨ (k, v) ∈ tr).
Proof.
  intros Hwf [Hawf Htwf Hcover Hexcl Hids].
  set (m := Dict.merge aff tr).
  assert (Hm : ∀ k v, Dict.get m k = Some v ↔ (k, v) ∈ aff ∨ (k, v) ∈ tr).
  { intros k v. unfold m. rewrite dict_get_merge by done. split.
    - destruct (Dict.get tr k) as [v'|] eqn:Ht.
      + intros [= <-]. right. by apply dict_get_Some_elem.
      + intros Ha. left. by apply dict_get_Some_elem.
    - intros [Ha|Ht].
      + assert (Dict.get tr k = None) as ->.
        { apply dict_get_None, Hexcl, dict_get_is_Some.
          exists v. by apply dict_elem_get. }
        by apply dict_elem_get.
      + by rewrite (dict_elem_get _ _ _ Htwf Ht). }
  assert (Hsome : is_Some (mapM (Dict.get m) (Dict.keys program_info))).
  { apply mapM_is_Some, Forall_forall. intros k Hk. simpl.
    apply Hcover in Hk as [Hk|Hk]; apply dict_get_is_Some in Hk as [v Hv];
      exists v; apply Hm; eauto using dict_get_Some_elem. }
  destruct Hsome as [vs Hvs].
  unfold full_task_namemap. fold m.
  rewrite reorder_namemap_spec;
    [| exact Hwf | intros; apply not_elem_of_nil].
  rewrite Hvs. simpl. eexists. split; [done|].
  apply mapM_Some in Hvs.
  pose proof (Forall2_length _ _ _ Hvs) as Hlen.
  assert (Hkeys : Dict.keys (zip (Dict.keys program_info) vs) =
                  Dict.keys program_info).
  { unfold Dict.keys at 1. apply fst_zip. lia. }
  split_and!; [done | |].
  - unfold Dict.values. rewrite snd_zip by lia.
    apply (Forall2_NoDup_inj _ _ _ Hvs Hwf).
    intros k1 k2 v _ _ H1%Hm H2%Hm.
    apply (dict_values_inj (aff ++ tr) k1 k2 v).
    + unfold Dict.values. by rewrite fmap_app.
    + apply elem_of_app. tauto.
    + apply elem_of_app. tauto.
  - intros k v. rewrite <- Hm. split.
    + intros Hg%dict_get_Some_elem. by apply (Forall2_zip_elem _ _ _ _ _ Hvs).
    + intros Hg. assert (Hk : k ∈ Dict.keys program_info).
      { apply Hcover. apply Hm in Hg as [Hg|Hg]; [left|right];
          apply dict_get_is_Some; exists v; by apply dict_elem_get. }
      destruct (Forall2_zip_elem_l _ _ _ _ Hvs Hk) as [v' Hv'].
      pose proof (Forall2_zip_elem _ _ _ _ _ Hvs Hv') as Hgv'. simpl in Hgv'.
      assert (v' = v) as -> by congruence.
      apply dict_elem_get; [|done]. unfold Dict.wf. by rewrite Hkeys.
Qed.

End TaskNameMapFacts.

(** ** The program dependency graph *)

Section PDGFacts.
Context `{PyLib}.
Implicit Types (G : DiGraph) (nm : list (string * string)) (g : GInfo).

Hypothesis literal_eval_str : ∀ v : PyVal, literal_eval (py_str v) = Some v.

Lemma elem_of_add_node G n x : x ∈ nodes (add_node G n) ↔ x ∈ nodes G ∨ x = n.
Proof.
  unfold add_node. case_decide; simpl.
  - split; [by left | by intros [?| ->]].
  - by rewrite elem_of_app, list_elem_of_singleton.
Qed.

Lemma elem_of_add_edge_nodes G u v x :
  x ∈ nodes (add_edge G u v) ↔ x ∈ nodes G ∨ x = u ∨ x = v.
Proof.
  unfold add_edge. case_decide; simpl; rewrite !elem_of_add_node; tauto.
Qed.

Lemma pdg_add_nodes_spec ks nm : ∀ G G',
  pdg_add_nodes G ks nm = Some G' →
  ∀ x, x ∈ nodes G' ↔ x ∈ nodes G ∨ ∃ k, k ∈ ks ∧ key_identifier nm k x.
Proof.
  induction ks as [|k ks IH]; intros G G' Hadd x; simpl in Hadd.
  - simplify_eq. split; [by left|].
    intros [?|(k & ?%elem_of_nil & _)]; done.
  - destruct (standardize_tuple k) as [s|] eqn:Hs; [|done]. simpl in Hadd.
    destruct (Dict.get nm s) as [n|] eqn:Hn; [|done]. simpl in Hadd.
    rewrite (IH _ _ Hadd), elem_of_add_node. split.
    + intros [[?| ->]|(k0 & Hk0 & Hid)].
      * by left.
      * right. exists k. split; [left | by exists s].
      * right. exists k0. split; [by right | done].
    + intros [?|(k0 & [->|Hk0]%elem_of_cons & Hid)].
      * by left; left.
      * left. right. destruct Hid as (s' & ? & ?). congruence.
      * right. eauto.
Qed.

Lemma rev_id_map_elem_aux (d : list (string * Z)) : ∀ acc i k,
  (i, k) ∈ foldl (λ acc kv, Dict.set acc kv.2 kv.1) acc d →
  (i, k) ∈ acc ∨ (k, i) ∈ d.
Proof.
  induction d as [|[k0 i0] d IH]; intros acc i k Hin; simpl in Hin; [by left|].
  apply IH in Hin as [Hin|Hin]; [|right; by right].
  apply dict_elem_of_set in Hin as [Hin|Heq]; [by left|].
  right. simplify_eq. left.
Qed.

Lemma rev_id_map_elem (d : list (string * Z)) i k :
  Dict.get (_rev_id_map d) i = Some k → (k, i) ∈ d.
Proof.
  intros Hg%dict_get_Some_elem. unfold _rev_id_map in Hg.
  apply rev_id_map_elem_aux in Hg as [Hg|Hg]; [|done].
  by apply elem_of_nil in Hg.
Qed.

Lemma pdg_add_edges_nodes es rev nm : ∀ G G',
  pdg_add_edges G es rev nm = Some G' →
  (∀ i k x, Dict.get rev i = Some k → key_identifier nm k x → x ∈ nodes G) →
  ∀ x, x ∈ nodes G' ↔ x ∈ nodes G.
Proof.
  induction es as [|[i j] es IH]; intros G G' Hadd Hcl x; simpl in Hadd.
  - by simplify_eq.
  - destruct (Dict.get rev i) as [ki|] eqn:Hi; [|done]. simpl in Hadd.
    destruct (Dict.get rev j) as [kj|] eqn:Hj; [|done]. simpl in Hadd.
    destruct (standardize_tuple ki) as [si|] eqn:Hsi; [|done]. simpl in Hadd.
    destruct (standardize_tuple kj) as [sj|] eqn:Hsj; [|done]. simpl in Hadd.
    destruct (Dict.get nm si) as [ni|] eqn:Hni; [|done]. simpl in Hadd.
    destruct (Dict.get nm sj) as [nj|] eqn:Hnj; [|done]. simpl in Hadd.
    assert (Hni' : ni ∈ nodes G) by (apply (Hcl i ki); [done | by exists si]).
    assert (Hnj' : nj ∈ nodes G) by (apply (Hcl j kj); [done | by exists sj]).
    rewrite (IH _ _ Hadd).
    + rewrite elem_of_add_edge_nodes. split; [|by left].
      intros [?|[->| ->]]; done.
    + intros i0 k0 x0 Hg Hid. apply elem_of_add_edge_nodes. left. eauto.
Qed.

Lemma fix_g_info_id_map g nm g' :
  fix_g_info g nm = Some g' →
  ∃ worklist,
    node_to_contact (Dict.keys (id_map g)) nm = Some worklist ∧
    id_map g' = filter (λ kv, kv.1 ∉ worklist) (id_map g).
Proof.
  unfold fix_g_info. intros Hfix.
  destruct (node_to_contact (Dict.keys (id_map g)) nm) as [w|] eqn:Hw; [|done].
  simpl in Hfix. exists w. split; [done|]. case_decide as Hlen.
  - simplify_eq. destruct w; [|done]. symmetry. apply filter_all.
    intros kv _. apply not_elem_of_nil.
  - by apply contract_all_spec in Hfix as (_ & _ & _ & _ & ?).
Qed.

(** The node set of the graph [load_complex_task] builds from a raw graph
    and the affordance name map. *)
Lemma load_pdg_nodes g nm G :
  load_pdg g nm = Some G →
  ∀ x, x ∈ nodes G ↔ ∃ k, k ∈ Dict.keys (id_map g) ∧ key_identifier nm k x.
Proof using literal_eval_str.
  unfold load_pdg. intros Hload x.
  destruct (fix_g_info g nm) as [g'|] eqn:Hfix; [|done]. simpl in Hload.
  destruct (pdg_add_nodes _ _ _) as [G1|] eqn:Hn; [|done]. simpl in Hload.
  pose proof (pdg_add_nodes_spec _ _ _ _ Hn) as Hnodes.
  apply fix_g_info_id_map in Hfix as (w & Hw & Hm).
  assert (Hkeys : ∀ k, k ∈ Dict.keys (id_map g') →
                       k ∈ Dict.keys (id_map g)).
  { intros k. rewrite Hm. unfold Dict.keys.
    intros ([k0 v0] & -> & [_ Hin]%list_elem_of_filter)%list_elem_of_fmap.
    apply list_elem_of_fmap. by exists (k0, v0). }
  rewrite (pdg_add_edges_nodes _ _ _ _ _ Hload).
  - rewrite Hnodes. simpl. split.
    + intros [?%elem_of_nil|(k & Hk & Hid)]; [done|]. eauto.
    + intros (k & Hk & s & Hs & Hx). right. exists k. split; [|by exists s].
      rewrite Hm. unfold Dict.keys.
      apply list_elem_of_fmap in Hk as ([k0 v0] & -> & Hin).
      apply list_elem_of_fmap. exists (k0, v0). split; [done|].
      apply list_elem_of_filter. split; [|done]. simpl. intros Hin'.
      apply (node_to_contact_elem _ _ _ _ Hw) in Hin' as (Hmem & k1 & _ & Hk1).
      apply (standardize_tuple_idem literal_eval_str) in Hk1.
      simpl in *. assert (s = k0) as -> by congruence.
      unfold Dict.mem in Hmem. by rewrite Hx in Hmem.
  - intros i k x0 Hg Hid. apply Hnodes. right. exists k. split; [|done].
    apply rev_id_map_elem in Hg. apply list_elem_of_fmap. by exists (k, i).
Qed.

End PDGFacts.

(** ** The part tree *)

Section PartTree.
Implicit Types (rev : gmap string string) (obj_id parent root : string).
Implicit Types (d fuel : nat).

Lemma parent_chain_hops rev obj_id d root :
  parent_chain rev obj_id d root →
  parent_hops rev d obj_id = Some root ∧ rev !! root = None.
Proof.
  induction 1 as [obj_id Hnone|obj_id parent d root Hp _ [IH1 IH2]]; simpl.
  - done.
  - by rewrite Hp.
Qed.

Lemma parent_chain_unique rev obj_id d root :
  parent_chain rev obj_id d root →
  ∀ d' root', parent_chain rev obj_id d' root' → d' = d ∧ root' = root.
Proof.
  induction 1 as [obj_id Hnone|obj_id parent d root Hp _ IH];
    intros d' root' Hc; inversion Hc; simplify_eq; [done|].
  destruct (IH _ _ H0) as [-> ->]. done.
Qed.

Lemma parent_chain_fuel rev obj_id d root :
  parent_chain rev obj_id d root →
  ∀ fuel, get_part_tree_root fuel rev obj_id =
          if decide (d ≤ fuel)%nat then Some root else None.
Proof.
  induction 1 as [obj_id Hnone|obj_id parent d root Hp _ IH]; intros fuel.
  - rewrite decide_True by lia. destruct fuel; simpl; by rewrite Hnone.
  - destruct fuel as [|fuel]; simpl; rewrite Hp; [done|].
    rewrite IH. repeat case_decide; (done || lia).
Qed.

(** C8. When the parent chain of [obj_id] has depth [d] and ends in [root],
    the loop of [get_part_tree_root] returns [root] after exactly [d]
    iterations (it returns with any fuel from [d] on, and is still running
    with less); [root] is the id [d] parent links away, it has no parent
    entry, and it is the only such ancestor.  With depth 0 the id itself is
    returned. *)
Theorem get_part_tree_root_depth rev obj_id d root :
  parent_chain rev obj_id d root →
  (∀ fuel, get_part_tree_root fuel rev obj_id =
           if decide (d ≤ fuel)%nat then Some root else None) ∧
  parent_hops rev d obj_id = Some root ∧
  rev !! root = None ∧
  (∀ d' root', parent_chain rev obj_id d' root' → d' = d ∧ root' = root) ∧
  (d = 0%nat → root = obj_id).
Proof.
  intros Hc. split_and!.
  - by apply parent_chain_fuel.
  - by apply parent_chain_hops in Hc as [? _].
  - by apply parent_chain_hops in Hc as [_ ?].
  - by apply parent_chain_unique.
  - intros ->. by inversion Hc.
Qed.

Lemma get_part_tree_root_no_parent rev obj_id fuel :
  rev !! obj_id = None → get_part_tree_root fuel rev obj_id = Some obj_id.
Proof. intros Hn. destruct fuel; simpl; by rewrite Hn. Qed.

(** A chain in the map without [x] is a walk in the map itself, and a chain
    there too unless it stops at [x]. *)
Lemma parent_chain_delete rev x obj_id d root :
  parent_chain (delete x rev) obj_id d root →
  parent_hops rev d obj_id = Some root ∧
  (root ≠ x → parent_chain rev obj_id d root).
Proof.
  induction 1 as [obj_id Hnone|obj_id parent d root Hp _ [IH1 IH2]]; simpl.
  - split; [done|]. intros Hne. constructor.
    rewrite lookup_delete_ne in Hnone; done.
  - apply lookup_delete_Some in Hp as [Hne Hp]. rewrite Hp. simpl.
    split; [done|]. intros Hr. econstructor; eauto.
Qed.

Lemma acyclic_delete rev x : acyclic rev → acyclic (delete x rev).
Proof.
  intros Hac obj_id n Hh. apply (Hac obj_id n).
  revert Hh. generalize (S n) as m. generalize obj_id at 1 3 as y.
  intros y m. revert y. induction m as [|m IH]; intros y; simpl; [done|].
  destruct (delete x rev !! y) as [p|] eqn:Hp; [|done]. simpl.
  apply lookup_delete_Some in Hp as [_ Hp]. rewrite Hp. simpl. apply IH.
Qed.

(** In an acyclic map every id has a parent chain, no longer than the map is
    large: under its precondition the loop terminates. *)
Lemma acyclic_parent_chain rev : ∀ obj_id,
  acyclic rev → ∃ d root, parent_chain rev obj_id d root ∧ (d ≤ size rev)%nat.
Proof.
  induction (size rev) as [|n IH] eqn:Hsize in rev |- *; intros obj_id Hac.
  - apply map_size_empty_inv in Hsize. subst rev.
    exists 0%nat, obj_id. split; [|done]. constructor. apply lookup_empty.
  - destruct (rev !! obj_id) as [parent|] eqn:Hp.
    + assert (Hsz : size (delete obj_id rev) = n).
      { rewrite map_size_delete, Hp. simpl. lia. }
      destruct (IH _ Hsz parent (acyclic_delete _ obj_id Hac))
        as (d & root & Hc & Hd).
      apply parent_chain_delete in Hc as [Hh Hc].
      destruct (decide (root = obj_id)) as [->|Hne].
      * exfalso. apply (Hac obj_id d). simpl. by rewrite Hp.
      * exists (S d), root. split; [|lia]. econstructor; eauto.
    + exists 0%nat, obj_id. split; [by constructor | lia].
Qed.

End PartTree.

(** ** Mesh loading *)

Section LoadObjFacts.
Context `{OakInk2__Dataset}.

(** C9. [load_obj] raises at its own check (the directory is missing, or the
    assertion on the candidates fails) exactly when the model directory does
    not hold exactly one entry with extension [.obj] or [.ply]; with exactly
    one, it goes on to the mesh load of that entry, and its result is the
    result of that load. *)
Theorem load_obj_fails_iff (obj_prefix obj_id : string) :
  ((∃ err, load_obj obj_prefix obj_id = inl err ∧ err ≠ MeshLoadError) ↔
   ¬ ∃ files, listdir (path_join obj_prefix obj_id) = Some files ∧
              length (candidate_list files) = 1%nat) ∧
  (∀ files, listdir (path_join obj_prefix obj_id) = Some files →
     length (candidate_list files) = 1%nat →
     ∃ obj_filename,
       candidate_list files = [obj_filename] ∧
       load_obj obj_prefix obj_id =
       mesh_load (path_join (path_join obj_prefix obj_id) obj_filename)
                 (bool_decide (splitext obj_filename = ".obj"))).
Proof.
  unfold load_obj.
  destruct (listdir (path_join obj_prefix obj_id)) as [files|] eqn:Hdir.
  - destruct (candidate_list files) as [|f [|f' rest]] eqn:Hcand.
    + split.
      * split; [|by eauto]. intros _ (files' & [= <-] & Hlen).
        by rewrite Hcand in Hlen.
      * intros files' [= <-]. by rewrite Hcand.
    + split.
      * split.
        -- intros (err & Herr & Hne). exfalso. apply Hne. revert Herr.
           unfold mesh_load. case_decide; destruct (trimesh_load _ _);
             congruence.
        -- intros Hno. exfalso. apply Hno. exists files. by rewrite Hcand.
      * intros files' [= <-] _. exists f. rewrite Hcand. split; [done|].
        case_decide; [by rewrite bool_decide_true | by rewrite bool_decide_false].
    + split.
      * split; [|by eauto]. intros _ (files' & [= <-] & Hlen).
        by rewrite Hcand in Hlen.
      * intros files' [= <-]. by rewrite Hcand.
  - split.
    + split; [|by eauto]. by intros _ (files & ? & _).
    + by intros files ?.
Qed.

(** [_load_obj] falls back to the affordance-part directory only when the
    model directory is missing; a failed candidate check is not retried. *)
Lemma _load_obj_assertion_is_final (obj_part_id : string) :
  load_obj obj_model_prefix obj_part_id = inl AssertionError →
  _load_obj obj_part_id = inl AssertionError.
Proof. unfold _load_obj. by intros ->. Qed.

End LoadObjFacts.

(** ** The instantiation engine *)

Section EngineFacts.
Context `{Numeric} `{PyLib} `{ProgramLib} `{!OakInk2__Dataset}.
Implicit Types (σ : State) (l : nat) (c : OakInk2__ComplexTask.t).
Implicit Types (p : OakInk2__PrimitiveTask.t).

Lemma M_bind_Some {A B : Type} (m : M A) (f : A → M B) σ r :
  (m ≫= f) σ = Some r ↔ ∃ x σ1, m σ = Some (x, σ1) ∧ f x σ1 = Some r.
Proof.
  unfold mbind, M_bind. destruct (m σ) as [[x σ1]|]; split.
  - intros Hf. by exists x, σ1.
  - by intros (? & ? & [= <- <-] & ?).
  - done.
  - by intros (? & ? & ? & _).
Qed.

Lemma M_ret_Some {A : Type} (x : A) σ r :
  (mret x : M A) σ = Some r ↔ r = (x, σ).
Proof. unfold mret, M_ret. split; congruence. Qed.

Lemma lift_Some {A : Type} (o : option A) σ r :
  lift o σ = Some r ↔ ∃ x, o = Some x ∧ r = (x, σ).
Proof.
  unfold lift. destruct o as [x|]; split.
  - intros [= <-]. by exists x.
  - by intros (? & [= <-] & ->).
  - done.
  - by intros (? & ? & _).
Qed.

Lemma read_Some l σ r :
  read l σ = Some r ↔ ∃ c, complex_tasks σ !! l = Some c ∧ r = (c, σ).
Proof.
  unfold read. destruct (complex_tasks σ !! l) as [c|]; split.
  - intros [= <-]. by exists c.
  - by intros (? & [= <-] & ->).
  - done.
  - by intros (? & ? & _).
Qed.

(** Hydration sets the flag and keeps what the loader computed. *)
Lemma hydrate_complex_task_instantiated c c' :
  hydrate_complex_task c = Some c' →
  OakInk2__ComplexTask.instantiated c' = true ∧
  OakInk2__ComplexTask.seq_key c' = OakInk2__ComplexTask.seq_key c ∧
  OakInk2__ComplexTask.pdg c' = OakInk2__ComplexTask.pdg c ∧
  OakInk2__ComplexTask.exec_path c' = OakInk2__ComplexTask.exec_path c.
Proof.
  unfold hydrate_complex_task. intros Hh.
  repeat (apply bind_Some in Hh as (? & _ & Hh)).
  by simplify_eq.
Qed.

Lemma build_complex_task_fresh seq_key b c :
  build_complex_task seq_key b = Some c →
  OakInk2__ComplexTask.instantiated c = false ∧ OakInk2__ComplexTask.seq_key c = seq_key.
Proof.
  unfold build_complex_task. intros Hb.
  repeat (apply bind_Some in Hb as (? & _ & Hb)).
  by simplify_eq.
Qed.

Lemma instantiate_complex_task_inv l σ l' σ' :
  instantiate_complex_task l σ = Some (l', σ') →
  l' = l ∧ obj_cache σ' = obj_cache σ ∧
  ∃ c, complex_tasks σ !! l = Some c ∧
    ((OakInk2__ComplexTask.instantiated c = true ∧ σ' = σ) ∨
     (OakInk2__ComplexTask.instantiated c = false ∧
      ∃ c', hydrate_complex_task c = Some c' ∧
            complex_tasks σ' = <[l := c']> (complex_tasks σ))).
Proof.
  unfold instantiate_complex_task. intros Hi.
  apply M_bind_Some in Hi as (c & σ1 & Hr & Hi).
  apply read_Some in Hr as (c1 & Hc & [= -> ->]).
  destruct (OakInk2__ComplexTask.instantiated c1) eqn:Hinst; simpl in Hi.
  - apply M_ret_Some in Hi as [= -> ->]. split_and!; [done..|].
    exists c1. split; [done|]. by left.
  - apply M_bind_Some in Hi as (c' & σ2 & Hh & Hi).
    apply lift_Some in Hh as (c2 & Hh & [= -> ->]).
    apply M_bind_Some in Hi as ([] & σ3 & Hw & Hi).
    apply M_ret_Some in Hi as [= -> ->].
    unfold write in Hw. injection Hw as <-. simpl. split_and!; [done..|].
    exists c1. split; [done|]. right. eauto.
Qed.

Lemma load_complex_task_inv seq_key ri σ l σ' :
  load_complex_task seq_key ri σ = Some (l, σ') →
  (l ∉ dom (complex_tasks σ)) ∧ obj_cache σ' = obj_cache σ ∧
  ∃ c0 c,
    build_complex_task seq_key (default return_instantiated ri) = Some c0 ∧
    complex_tasks σ' = <[l := c]> (complex_tasks σ) ∧
    (if default return_instantiated ri
     then hydrate_complex_task c0 = Some c else c = c0).
Proof.
  unfold load_complex_task. intros Hl.
  apply M_bind_Some in Hl as (c0 & σ1 & Hb & Hl).
  apply lift_Some in Hb as (c1 & Hb & [= -> ->]).
  apply M_bind_Some in Hl as (l1 & σ2 & Ha & Hl).
  unfold alloc in Ha. injection Ha as <- <-.
  pose proof (is_fresh (dom (complex_tasks σ))) as Hfresh.
  destruct (default return_instantiated ri) eqn:Hri.
  - apply instantiate_complex_task_inv in Hl as (-> & Hcache & c & Hc & Hcase).
    simpl in Hc, Hcache. rewrite lookup_insert_eq in Hc. simplify_eq.
    split_and!; [done..|].
    destruct Hcase as [[Hinst _]|(_ & c' & Hh & Hct)].
    + apply build_complex_task_fresh in Hb as [Hb _]. congruence.
    + exists c, c'. split_and!; [done | | done].
      rewrite Hct. simpl. apply insert_insert_eq.
  - apply M_ret_Some in Hl as [= -> ->]. simpl. split_and!; [done..|].
    by exists c1, c1.
Qed.

(** Loading never touches an object that already exists. *)
Lemma load_complex_task_frame seq_key ri σ l σ' l0 :
  load_complex_task seq_key ri σ = Some (l, σ') →
  l0 ∈ dom (complex_tasks σ) →
  complex_tasks σ' !! l0 = complex_tasks σ !! l0.
Proof.
  intros (Hl & _ & c0 & c & _ & -> & _)%load_complex_task_inv Hl0.
  apply lookup_insert_ne. by intros ->.
Qed.

Lemma build_complex_task_pdg seq_key b c :
  build_complex_task seq_key b = Some c →
  ∃ raw program_info _g_info,
    program_info_json (replace_slash seq_key) = Some raw ∧
    load_program_info raw = Some program_info ∧
    pdg_json (replace_slash seq_key) = Some _g_info ∧
    load_pdg _g_info (suffix_affordance_primitive_segment program_info) =
      Some (OakInk2__ComplexTask.pdg c) ∧
    full_task_namemap program_info
      (suffix_affordance_primitive_segment program_info)
      (suffix_transient_primitive_segment program_info) =
      Some (zip (Dict.keys program_info) (OakInk2__ComplexTask.exec_path c)) ∧
    OakInk2__ComplexTask.exec_path_affordance c =
      Dict.values (suffix_affordance_primitive_segment program_info).
Proof.
  unfold build_complex_task. intros Hb.
  apply bind_Some in Hb as (raw & Hraw & Hb).
  apply bind_Some in Hb as (program_info & Hpi & Hb).
  apply bind_Some in Hb as (full & Hfull & Hb).
  apply bind_Some in Hb as (rev & _ & Hb).
  apply bind_Some in Hb as (g & Hg & Hb).
  apply bind_Some in Hb as (G & HG & Hb).
  apply bind_Some in Hb as (tt & _ & Hb).
  apply bind_Some in Hb as (fr & _ & Hb).
  simplify_eq. simpl. exists raw, program_info, g. split_and!; try done.
  rewrite Hfull. f_equal.
  unfold full_task_namemap in Hfull.
  rewrite reorder_namemap_spec in Hfull;
    [| by eapply load_program_info_wf | intros; apply not_elem_of_nil].
  apply bind_Some in Hfull as (vs & Hvs & [= <-]).
  apply mapM_Some, Forall2_length in Hvs. simpl.
  unfold Dict.values. by rewrite snd_zip by lia.
Qed.

(** C2 (as the code has it).  The node set of the graph
    [load_complex_task] builds is the set of the affordance name map's
    identifiers of the raw graph's node keys: a raw node whose key is not in
    that map never appears, and every node is an identifier of the
    affordance-typed submap. *)
Theorem load_complex_task_pdg_nodes seq_key ri σ l σ' :
  (∀ v : PyVal, literal_eval (py_str v) = Some v) →
  load_complex_task seq_key ri σ = Some (l, σ') →
  ∃ c raw program_info _g_info,
    complex_tasks σ' !! l = Some c ∧
    program_info_json (replace_slash seq_key) = Some raw ∧
    load_program_info raw = Some program_info ∧
    pdg_json (replace_slash seq_key) = Some _g_info ∧
    (∀ v, v ∈ nodes (OakInk2__ComplexTask.pdg c) ↔
          ∃ k, k ∈ Dict.keys (id_map _g_info) ∧
               key_identifier
                 (suffix_affordance_primitive_segment program_info) k v) ∧
    (∀ v, v ∈ nodes (OakInk2__ComplexTask.pdg c) →
          v ∈ OakInk2__ComplexTask.exec_path_affordance c).
Proof.
  intros Hrt (_ & _ & c0 & c & Hb & Hct & Hc)%load_complex_task_inv.
  destruct (build_complex_task_pdg _ _ _ Hb)
    as (raw & program_info & g & Hraw & Hpi & Hg & Hpdg & _ & Hepa).
  assert (Hsame : OakInk2__ComplexTask.pdg c = OakInk2__ComplexTask.pdg c0 ∧
                  OakInk2__ComplexTask.exec_path_affordance c =
                  OakInk2__ComplexTask.exec_path_affordance c0).
  { destruct (default return_instantiated ri); [|by subst].
    unfold hydrate_complex_task in Hc.
    repeat (apply bind_Some in Hc as (? & _ & Hc)). by simplify_eq. }
  destruct Hsame as [Hp He].
  exists c, raw, program_info, g. rewrite Hct, lookup_insert_eq, Hp, He.
  pose proof (load_pdg_nodes Hrt _ _ _ Hpdg) as Hnodes.
  split_and!; try done.
  intros v (k & _ & s & _ & Hv)%Hnodes. rewrite Hepa.
  apply dict_get_Some_elem in Hv. apply list_elem_of_fmap. by exists (s, v).
Qed.

(** *** Idempotence *)

Lemma hydrate_primitive_task_instantiated p c p' :
  hydrate_primitive_task p c = Some p' → OakInk2__PrimitiveTask.instantiated p' = true.
Proof.
  unfold hydrate_primitive_task. intros Hh.
  apply bind_Some in Hh as (? & _ & Hh).
  apply bind_Some in Hh as ([? ?] & _ & Hh).
  apply bind_Some in Hh as (? & _ & Hh).
  apply bind_Some in Hh as ([? ?] & _ & Hh).
  apply bind_Some in Hh as (? & _ & Hh).
  apply bind_Some in Hh as ([? ?] & _ & Hh).
  apply bind_Some in Hh as (? & _ & Hh).
  apply bind_Some in Hh as (? & _ & Hh).
  by simplify_eq.
Qed.

(** C3. Each hydration operation that has succeeded once is a no-op the
    second time: the record it returned comes back with every field as it
    was, and neither the store of complex tasks nor the mesh cache
    changes. *)
Theorem hydration_idempotent :
  (∀ a σ a' σ',
     instantiate_affordance a σ = Some (a', σ') →
     instantiate_affordance a' σ' = Some (a', σ')) ∧
  (∀ l σ l' σ',
     instantiate_complex_task l σ = Some (l', σ') →
     instantiate_complex_task l' σ' = Some (l', σ')) ∧
  (∀ p c_arg σ p' σ',
     instantiate_primitive_task p c_arg σ = Some (p', σ') →
     ∀ c_arg', instantiate_primitive_task p' c_arg' σ' = Some (p', σ')).
Proof.
  split_and!.
  - intros a σ a' σ'. unfold instantiate_affordance at 1.
    destruct (OakInk2__Affordance.instantiated a) eqn:Hinst; simpl.
    + intros [= -> ->]%M_ret_Some. unfold instantiate_affordance.
      by rewrite Hinst.
    + intros (m & σ1 & _ & [= -> ->]%M_ret_Some)%M_bind_Some. done.
  - intros l σ l' σ' Hi.
    apply instantiate_complex_task_inv in Hi as (-> & _ & c & Hc & Hcase).
    unfold instantiate_complex_task.
    destruct Hcase as [[Hinst ->]|(_ & c' & Hh & Hct)].
    + apply M_bind_Some. exists c, σ. split; [by apply read_Some; eauto|].
      by rewrite Hinst.
    + apply M_bind_Some. exists c', σ'. split.
      * apply read_Some. exists c'. split; [|done].
        rewrite Hct. apply lookup_insert_eq.
      * apply hydrate_complex_task_instantiated in Hh as [-> _]. done.
  - intros p c_arg σ p' σ'. unfold instantiate_primitive_task at 1.
    destruct (OakInk2__PrimitiveTask.instantiated p) eqn:Hinst; simpl.
    + intros [= -> ->]%M_ret_Some c_arg'. unfold instantiate_primitive_task.
      by rewrite Hinst.
    + intros (l & σ1 & _ & Hh)%M_bind_Some c_arg'.
      apply M_bind_Some in Hh as (c & σ2 & _ & Hh).
      apply lift_Some in Hh as (p2 & Hh & [= -> ->]).
      unfold instantiate_primitive_task.
      by rewrite (hydrate_primitive_task_instantiated _ _ _ Hh).
Qed.

(** *** Primitive tasks *)

Lemma hydrate_primitive_task_inv p c p' :
  hydrate_primitive_task p c = Some p' →
  let frame_range := OakInk2__PrimitiveTask.frame_range p in
  let frame_list := py_range frame_range.1 frame_range.2 in
  ∃ parent_lh lh lh_mask parent_rh rh rh_mask parent_obj_transf obj_transf,
    OakInk2__ComplexTask.lh_param c = Some parent_lh ∧
    hydrate_hand frame_range (OakInk2__PrimitiveTask.frame_range_lh p) parent_lh
      frame_list = Some (lh, lh_mask) ∧
    OakInk2__ComplexTask.rh_param c = Some parent_rh ∧
    hydrate_hand frame_range (OakInk2__PrimitiveTask.frame_range_rh p) parent_rh
      frame_list = Some (rh, rh_mask) ∧
    OakInk2__ComplexTask.obj_transf c = Some parent_obj_transf ∧
    slice_obj_transf (OakInk2__PrimitiveTask.task_obj_list p) parent_obj_transf
      frame_list [] = Some obj_transf ∧
    OakInk2__PrimitiveTask.lh_param p' = Some lh ∧
    OakInk2__PrimitiveTask.lh_in_range_mask p' = Some lh_mask ∧
    OakInk2__PrimitiveTask.rh_param p' = Some rh ∧
    OakInk2__PrimitiveTask.rh_in_range_mask p' = Some rh_mask ∧
    OakInk2__PrimitiveTask.obj_transf p' = Some obj_transf ∧
    OakInk2__PrimitiveTask.task_obj_list p' =
      clean_obj_list (OakInk2__PrimitiveTask.task_obj_list p) obj_transf ∧
    OakInk2__PrimitiveTask.lh_obj_list p' =
      (λ ol, clean_obj_list ol obj_transf) <$> OakInk2__PrimitiveTask.lh_obj_list p ∧
    OakInk2__PrimitiveTask.rh_obj_list p' =
      (λ ol, clean_obj_list ol obj_transf) <$> OakInk2__PrimitiveTask.rh_obj_list p.
Proof.
  unfold hydrate_primitive_task. intros Hh. simpl.
  apply bind_Some in Hh as (ps & _ & Hh).
  apply bind_Some in Hh as ([sm m0] & _ & Hh).
  apply bind_Some in Hh as (plh & Hplh & Hh).
  apply bind_Some in Hh as ([lh lhm] & Hlh & Hh).
  apply bind_Some in Hh as (prh & Hprh & Hh).
  apply bind_Some in Hh as ([rh rhm] & Hrh & Hh).
  apply bind_Some in Hh as (pot & Hpot & Hh).
  apply bind_Some in Hh as (ot & Hot & Hh).
  simplify_eq. simpl. exists plh, lh, lhm, prh, rh, rhm, pot, ot.
  split_and!; done.
Qed.

Lemma instantiate_primitive_task_inv p c_arg σ p' σ' :
  OakInk2__PrimitiveTask.instantiated p = false →
  instantiate_primitive_task p c_arg σ = Some (p', σ') →
  ∃ l c,
    resolve_complex_task (OakInk2__PrimitiveTask.seq_key p) c_arg σ = Some (l, σ') ∧
    complex_tasks σ' !! l = Some c ∧
    hydrate_primitive_task p c = Some p'.
Proof.
  unfold instantiate_primitive_task. intros -> Hi. simpl in Hi.
  apply M_bind_Some in Hi as (l & σ1 & Hres & Hi).
  apply M_bind_Some in Hi as (c & σ2 & Hr & Hi).
  apply read_Some in Hr as (c1 & Hc & [= -> ->]).
  apply lift_Some in Hi as (p2 & Hh & [= -> ->]).
  by exists l, c1.
Qed.

Lemma fancy_index_length {A : Type} (arr : list A) idx rows :
  fancy_index arr idx = Some rows → length rows = length idx.
Proof. unfold fancy_index. intros Hm. symmetry. by eapply length_mapM. Qed.

Lemma py_range_length a b : length (py_range a b) = Z.to_nat (b - a).
Proof. unfold py_range. apply length_seqZ. Qed.

Lemma index_tensors_spec param frame_list l_pad r_pad : ∀ res,
  index_tensors param frame_list l_pad r_pad = Some res →
  Dict.keys res = Dict.keys param ∧
  Forall (λ kv, length kv.2 =
            (Z.to_nat l_pad + length frame_list + Z.to_nat r_pad)%nat) res.
Proof.
  induction param as [|[k v] param IH]; intros res Hi; simpl in Hi.
  - by simplify_eq.
  - apply bind_Some in Hi as (rows & Hrows & Hi).
    apply bind_Some in Hi as (rest & Hrest & Hi). simplify_eq.
    destruct (IH _ Hrest) as [Hk Hl]. split.
    + unfold Dict.keys in *. rewrite !fmap_cons. simpl. by rewrite Hk.
    + constructor; [|done]. simpl.
      rewrite !length_app, !length_replicate.
      rewrite (fancy_index_length _ _ _ Hrows). lia.
Qed.

Lemma hydrate_hand_window a b s e parent frame_list param mask :
  a ≤ s → s ≤ e → e ≤ b →
  hydrate_hand (a, b) (Some (s, e)) parent frame_list = Some (param, mask) →
  hand_window (Z.to_nat (b - a)) (Z.to_nat (s - a)) (Z.to_nat (e - s))
    param mask.
Proof.
  intros Has Hse Heb. unfold hydrate_hand, index_param. simpl.
  intros (res & Hres & [= -> <-])%bind_Some.
  apply index_tensors_spec in Hres as [_ Hlen].
  rewrite py_range_length in *.
  replace (Z.to_nat (Z.max 0 (s - a))) with (Z.to_nat (s - a)) in * by lia.
  replace (Z.to_nat (Z.max 0 (b - e))) with (Z.to_nat (b - e)) in * by lia.
  assert (Hn : Z.to_nat (b - a) =
               (Z.to_nat (s - a) + Z.to_nat (e - s) + Z.to_nat (b - e))%nat)
    by lia.
  unfold hand_window. split_and!.
  - eapply Forall_impl; [exact Hlen|]. simpl. intros kv ->. lia.
  - rewrite !length_app, !length_replicate. lia.
  - apply count_true_window.
  - intros i Hi. apply lookup_window. lia.
Qed.

Lemma zero_row_zero (v : Tensor) : Forall (λ x, x = scalar_zero) (zero_row v).
Proof. destruct v; simpl; [constructor|]. by apply Forall_replicate. Qed.

Lemma hydrate_hand_zero frame_range parent frame_list param mask :
  hydrate_hand frame_range None parent frame_list = Some (param, mask) →
  Dict.keys param = Dict.keys parent ∧
  hand_zero (length frame_list) param mask.
Proof.
  unfold hydrate_hand, zero_param. intros [= <- <-]. split.
  - unfold Dict.keys. rewrite <- list_fmap_compose. by apply list_fmap_ext.
  - unfold hand_zero. split_and!.
    + apply Forall_fmap, Forall_forall. intros [k v] _. simpl.
      split; [apply length_replicate|].
      apply Forall_replicate, zero_row_zero.
    + apply length_replicate.
    + by apply Forall_replicate.
Qed.

(** C4. Hydrating a primitive task whose whole-body range is [a, b) gives,
    for each hand with a recorded sub-range [s, e) inside it, tensors of
    [b - a] frames and a mask of [b - a] frames that has exactly [e - s]
    true entries, at the positions [s - a .. s - a + (e - s) - 1], and is
    false elsewhere. *)
Theorem instantiate_primitive_task_hand_window p c_arg σ p' σ' a b :
  OakInk2__PrimitiveTask.instantiated p = false →
  OakInk2__PrimitiveTask.frame_range p = (a, b) →
  instantiate_primitive_task p c_arg σ = Some (p', σ') →
  (∀ s e, OakInk2__PrimitiveTask.frame_range_lh p = Some (s, e) →
     a ≤ s → s ≤ e → e ≤ b →
     ∃ lh mask,
       OakInk2__PrimitiveTask.lh_param p' = Some lh ∧
       OakInk2__PrimitiveTask.lh_in_range_mask p' = Some mask ∧
       hand_window (Z.to_nat (b - a)) (Z.to_nat (s - a)) (Z.to_nat (e - s))
         lh mask) ∧
  (∀ s e, OakInk2__PrimitiveTask.frame_range_rh p = Some (s, e) →
     a ≤ s → s ≤ e → e ≤ b →
     ∃ rh mask,
       OakInk2__PrimitiveTask.rh_param p' = Some rh ∧
       OakInk2__PrimitiveTask.rh_in_range_mask p' = Some mask ∧
       hand_window (Z.to_nat (b - a)) (Z.to_nat (s - a)) (Z.to_nat (e - s))
         rh mask).
Proof.
  intros Hinst Hfr Hi.
  destruct (instantiate_primitive_task_inv _ _ _ _ _ Hinst Hi)
    as (l & c & _ & _ & Hh).
  apply hydrate_primitive_task_inv in Hh
    as (plh & lh & lhm & prh & rh & rhm & pot & ot & _ & Hlh & _ & Hrh & _ &
        _ & Hl1 & Hl2 & Hr1 & Hr2 & _).
  rewrite Hfr in Hlh, Hrh. split.
  - intros s e Hsub ? ? ?. rewrite Hsub in Hlh. exists lh, lhm.
    split_and!; [done..|]. by eapply hydrate_hand_window.
  - intros s e Hsub ? ? ?. rewrite Hsub in Hrh. exists rh, rhm.
    split_and!; [done..|]. by eapply hydrate_hand_window.
Qed.

(** C5. Hydrating a primitive task whose whole-body range is [a, b) gives,
    for each hand with no recorded sub-range, all-zero tensors with as many
    frames as the whole-body range has, and a mask of that length that is
    false throughout, whatever the length of the range. *)
Theorem instantiate_primitive_task_hand_absent p c_arg σ p' σ' a b :
  OakInk2__PrimitiveTask.instantiated p = false →
  OakInk2__PrimitiveTask.frame_range p = (a, b) →
  instantiate_primitive_task p c_arg σ = Some (p', σ') →
  (OakInk2__PrimitiveTask.frame_range_lh p = None →
     ∃ lh mask,
       OakInk2__PrimitiveTask.lh_param p' = Some lh ∧
       OakInk2__PrimitiveTask.lh_in_range_mask p' = Some mask ∧
       hand_zero (length (py_range a b)) lh mask) ∧
  (OakInk2__PrimitiveTask.frame_range_rh p = None →
     ∃ rh mask,
       OakInk2__PrimitiveTask.rh_param p' = Some rh ∧
       OakInk2__PrimitiveTask.rh_in_range_mask p' = Some mask ∧
       hand_zero (length (py_range a b)) rh mask).
Proof.
  intros Hinst Hfr Hi.
  destruct (instantiate_primitive_task_inv _ _ _ _ _ Hinst Hi)
    as (l & c & _ & _ & Hh).
  apply hydrate_primitive_task_inv in Hh
    as (plh & lh & lhm & prh & rh & rhm & pot & ot & _ & Hlh & _ & Hrh & _ &
        _ & Hl1 & Hl2 & Hr1 & Hr2 & _).
  rewrite Hfr in Hlh, Hrh. simpl in Hlh, Hrh. split.
  - intros Hsub. rewrite Hsub in Hlh. exists lh, lhm.
    split_and!; [done..|]. by apply hydrate_hand_zero in Hlh as [_ ?].
  - intros Hsub. rewrite Hsub in Hrh. exists rh, rhm.
    split_and!; [done..|]. by apply hydrate_hand_zero in Hrh as [_ ?].
Qed.

Lemma slice_obj_transf_keys task_obj_list parent frame_list :
  ∀ acc obj_transf,
  slice_obj_transf task_obj_list parent frame_list acc = Some obj_transf →
  ∀ k, k ∈ Dict.keys obj_transf ↔
       k ∈ Dict.keys acc ∨ (k ∈ task_obj_list ∧ k ∈ Dict.keys parent).
Proof.
  induction task_obj_list as [|obj_id rest IH]; intros acc obj_transf Hs k;
    simpl in Hs.
  - simplify_eq. split; [by left|]. by intros [?|[?%elem_of_nil _]].
  - destruct (Dict.get parent obj_id) as [arr|] eqn:Harr.
    + apply bind_Some in Hs as (rows & _ & Hs).
      assert (Hp : obj_id ∈ Dict.keys parent)
        by (apply dict_get_is_Some; eauto).
      rewrite (IH _ _ Hs), dict_keys_set, elem_of_cons.
      case_decide as Hacc.
      * split; [tauto|]. intros [?|[[->|?] ?]]; tauto.
      * rewrite elem_of_app, list_elem_of_singleton.
        split; [intros [[?| ->]|?]; tauto | intros [?|[[->|?] ?]]; tauto].
    + apply dict_get_None in Harr.
      rewrite (IH _ _ Hs), elem_of_cons.
      split; [tauto|]. intros [?|[[->|?] ?]]; tauto.
Qed.

Lemma clean_obj_list_filter (ol : list string)
    (obj_transf : list (string * list Mat)) :
  clean_obj_list ol obj_transf = filter (λ el, el ∈ Dict.keys obj_transf) ol.
Proof.
  unfold clean_obj_list. apply list_filter_iff. intros el.
  apply dict_mem_true.
Qed.

(** C7. A successful hydration of a primitive task keeps the transforms of
    exactly the objects that are both in the task's object list and in the
    hydrated transform map of the complex task it read from, and prunes its
    three object lists to their members that have a transform (a list that
    is [None] stays [None]). *)
Theorem instantiate_primitive_task_objects p c_arg σ p' σ' :
  OakInk2__PrimitiveTask.instantiated p = false →
  instantiate_primitive_task p c_arg σ = Some (p', σ') →
  ∃ l c parent_obj_transf obj_transf,
    resolve_complex_task (OakInk2__PrimitiveTask.seq_key p) c_arg σ = Some (l, σ') ∧
    complex_tasks σ' !! l = Some c ∧
    OakInk2__ComplexTask.obj_transf c = Some parent_obj_transf ∧
    OakInk2__PrimitiveTask.obj_transf p' = Some obj_transf ∧
    (∀ k, k ∈ Dict.keys obj_transf ↔
          k ∈ OakInk2__PrimitiveTask.task_obj_list p ∧
          k ∈ Dict.keys parent_obj_transf) ∧
    OakInk2__PrimitiveTask.task_obj_list p' =
      filter (λ el, el ∈ Dict.keys obj_transf)
             (OakInk2__PrimitiveTask.task_obj_list p) ∧
    OakInk2__PrimitiveTask.lh_obj_list p' =
      filter (λ el, el ∈ Dict.keys obj_transf) <$>
        OakInk2__PrimitiveTask.lh_obj_list p ∧
    OakInk2__PrimitiveTask.rh_obj_list p' =
      filter (λ el, el ∈ Dict.keys obj_transf) <$>
        OakInk2__PrimitiveTask.rh_obj_list p.
Proof.
  intros Hinst Hi.
  destruct (instantiate_primitive_task_inv _ _ _ _ _ Hinst Hi)
    as (l & c & Hres & Hc & Hh).
  apply hydrate_primitive_task_inv in Hh
    as (plh & lh & lhm & prh & rh & rhm & pot & ot & _ & _ & _ & _ & Hpot &
        Hot & _ & _ & _ & _ & Hot' & Htol & Hlol & Hrol).
  exists l, c, pot, ot. split_and!; try done.
  - intros k. rewrite (slice_obj_transf_keys _ _ _ _ _ Hot k).
    split; [|by right]. intros [?%elem_of_nil|?]; done.
  - by rewrite Htol, clean_obj_list_filter.
  - rewrite Hlol. destruct (OakInk2__PrimitiveTask.lh_obj_list p); simpl; [|done].
    by rewrite clean_obj_list_filter.
  - rewrite Hrol. destruct (OakInk2__PrimitiveTask.rh_obj_list p); simpl; [|done].
    by rewrite clean_obj_list_filter.
Qed.

(** Hydrating a primitive task never touches a complex task that already
    exists. *)
Lemma instantiate_primitive_task_frame p c_arg σ p' σ' l :
  instantiate_primitive_task p c_arg σ = Some (p', σ') →
  l ∈ dom (complex_tasks σ) →
  complex_tasks σ' !! l = complex_tasks σ !! l.
Proof.
  intros Hi Hl. destruct (OakInk2__PrimitiveTask.instantiated p) eqn:Hinst.
  - unfold instantiate_primitive_task in Hi. rewrite Hinst in Hi.
    by apply M_ret_Some in Hi as [= _ ->].
  - destruct (instantiate_primitive_task_inv _ _ _ _ _ Hinst Hi)
      as (l' & c' & Hres & _ & _).
    unfold resolve_complex_task in Hres. destruct c_arg as [l0|].
    + apply M_bind_Some in Hres as (c1 & σ1 & Hr & Hres).
      apply read_Some in Hr as (c2 & _ & [= -> ->]).
      destruct (OakInk2__ComplexTask.instantiated c2); simpl in Hres.
      * by apply M_ret_Some in Hres as [= _ ->].
      * by eapply load_complex_task_frame.
    + by eapply load_complex_task_frame.
Qed.

(** C10. When [instantiate_primitive_task] is given no complex task, or one
    that is not hydrated, every complex task that existed before the call,
    the caller's among them, is afterwards as it was, its [instantiated]
    flag included; and when the primitive task is hydrated by the call, the
    complex task it reads from is one the call loads itself: a new, hydrated
    object of the task's sequence. *)
Theorem instantiate_primitive_task_leaves_caller_task p c_arg σ p' σ' :
  (∀ l, c_arg = Some l →
        ∃ c, complex_tasks σ !! l = Some c ∧
             OakInk2__ComplexTask.instantiated c = false) →
  instantiate_primitive_task p c_arg σ = Some (p', σ') →
  (∀ l c, c_arg = Some l → complex_tasks σ !! l = Some c →
          complex_tasks σ' !! l = Some c) ∧
  (∀ l, l ∈ dom (complex_tasks σ) →
        complex_tasks σ' !! l = complex_tasks σ !! l) ∧
  (OakInk2__PrimitiveTask.instantiated p = false →
   ∃ l' c',
     (l' ∉ dom (complex_tasks σ)) ∧
     complex_tasks σ' !! l' = Some c' ∧
     OakInk2__ComplexTask.instantiated c' = true ∧
     OakInk2__ComplexTask.seq_key c' = OakInk2__PrimitiveTask.seq_key p ∧
     hydrate_primitive_task p c' = Some p').
Proof.
  intros Harg Hi.
  assert (Hframe : ∀ l, l ∈ dom (complex_tasks σ) →
            complex_tasks σ' !! l = complex_tasks σ !! l).
  { intros l Hl. by eapply instantiate_primitive_task_frame. }
  split_and!.
  - intros l c _ Hc. rewrite Hframe; [done|]. apply elem_of_dom. eauto.
  - done.
  - intros Hinst.
    destruct (instantiate_primitive_task_inv _ _ _ _ _ Hinst Hi)
      as (l' & c' & Hres & Hc' & Hh).
    assert (Hload : load_complex_task (OakInk2__PrimitiveTask.seq_key p) (Some true) σ
                    = Some (l', σ')).
    { unfold resolve_complex_task in Hres. destruct c_arg as [l0|]; [|done].
      destruct (Harg l0 eq_refl) as (c0 & Hc0 & Hinst0).
      apply M_bind_Some in Hres as (c1 & σ1 & Hr & Hres).
      apply read_Some in Hr as (c2 & Hc2 & [= -> ->]).
      assert (c2 = c0) as -> by congruence. by rewrite Hinst0 in Hres. }
    apply load_complex_task_inv in Hload
      as (Hfresh & _ & c0 & c1 & Hb & Hct & Hhyd).
    simpl in Hhyd. rewrite Hct, lookup_insert_eq in Hc'. simplify_eq.
    apply hydrate_complex_task_instantiated in Hhyd as (? & Hk & _).
    apply build_complex_task_fresh in Hb as [_ Hk0].
    exists l', c'. split_and!; try done.
    + rewrite Hct. apply lookup_insert_eq.
    + congruence.
Qed.

End EngineFacts.

(** ** Evaluation on the sample dataset *)

Section Evaluation.
Import Sample.
#[local] Existing Instances pylib numeric programlib dataset.

Example fix_g_info_sample :
  fix_g_info g_info affordance_namemap =
  Some {| id_map := [(k_hold, 0); (k_pour, 3)]; e := [(0, 3); (0, 3)] |}.
Proof. vm_compute. reflexivity. Qed.

Example load_pdg_sample :
  load_pdg g_info affordance_namemap =
  Some {| nodes := ["hold"; "pour"]; edges := [("hold", "pour")] |}.
Proof. vm_compute. reflexivity. Qed.

Example load_obj_sample :
  load_obj "align_ds" "O1" = inr "align_ds/O1/model.obj"%string ∧
  load_obj "align_ds" "O2" = inl AssertionError ∧
  load_obj "align_ds" "O3" = inl FileNotFoundError ∧
  _load_obj "O3" = inr "affordance_part/O3/part.ply"%string.
Proof. vm_compute. done. Qed.

Example get_part_tree_root_sample :
  get_part_tree_root 2 (rev_part_tree part_tree) "O1_knob" = Some "O1"%string ∧
  get_part_tree_root 1 (rev_part_tree part_tree) "O1_knob" = None.
Proof. vm_compute. done. Qed.

Example instantiate_primitive_task_sample :
  (λ r, (OakInk2__PrimitiveTask.lh_param r.1, OakInk2__PrimitiveTask.lh_in_range_mask r.1,
         OakInk2__PrimitiveTask.rh_param r.1, OakInk2__PrimitiveTask.rh_in_range_mask r.1,
         OakInk2__PrimitiveTask.task_obj_list r.1)) <$>
    instantiate_primitive_task primitive_task None empty_state =
  Some (Some [("pose", [[0]; [12]; [13]; [0]])],
        Some [false; true; true; false],
        Some [("pose", [[0]; [0]; [0]; [0]])],
        Some [false; false; false; false],
        ["O1"]).
Proof. vm_compute. reflexivity. Qed.

Example load_complex_task_sample :
  (λ r, OakInk2__ComplexTask.exec_path <$> complex_tasks r.2 !! r.1) <$>
    load_complex_task "scene/seq" None empty_state =
  Some (Some ["hold"; "move"; "pour"]).
Proof. vm_compute. reflexivity. Qed.

Lemma sample_literal_eval_str (v : PyVal) : literal_eval (py_str v) = Some v.
Proof. reflexivity. Defined.

Lemma fix_g_info_bridges_invalid_chain_witness :
  ∃ g', fix_g_info g_info affordance_namemap = Some g' ∧
        (0, 3) ∈ e g' ∧
        (k_idle ∉ Dict.keys (id_map g')) ∧ (k_rest ∉ Dict.keys (id_map g')) ∧
        untouched (e g') 1 ∧ untouched (e g') 2.
Proof.
  destruct (fix_g_info_bridges_invalid_chain sample_literal_eval_str
              g_info affordance_namemap k_hold k_idle k_rest k_pour
              k_hold k_idle k_rest k_pour 0 1 2 3) as [Hret Htotal];
    try (vm_compute; reflexivity); try compute_done.
  destruct Htotal as [g' Hg']; [compute_done|].
  exists g'. split; [done|]. by apply Hret.
Defined.

Lemma sample_mapper_spec :
  TaskNameMapperSpec program_info affordance_namemap transient_namemap.
Proof.
  split; try compute_done.
  - intros k. unfold Dict.keys. simpl.
    rewrite !elem_of_cons, !elem_of_nil. tauto.
  - intros k. unfold Dict.keys. simpl.
    rewrite !elem_of_cons, !elem_of_nil.
    intros [->|[->|[]]]; compute_done.
Defined.

Lemma full_task_namemap_bijection_witness :
  ∃ full,
    full_task_namemap program_info affordance_namemap transient_namemap =
      Some full ∧
    Dict.keys full = [k_hold; k_move; k_pour] ∧
    NoDup (Dict.values full) ∧
    (∀ k v, Dict.get full k = Some v ↔
            (k, v) ∈ affordance_namemap ∨ (k, v) ∈ transient_namemap).
Proof.
  apply (full_task_namemap_bijection program_info affordance_namemap
           transient_namemap); [compute_done | exact sample_mapper_spec].
Defined.

Lemma load_complex_task_pdg_nodes_witness :
  ∃ l σ' c,
    load_complex_task "scene/seq" None empty_state = Some (l, σ') ∧
    complex_tasks σ' !! l = Some c ∧
    (∀ v, v ∈ nodes (OakInk2__ComplexTask.pdg c) ↔
          ∃ k, k ∈ Dict.keys (id_map g_info) ∧
               key_identifier affordance_namemap k v) ∧
    (∀ v, v ∈ nodes (OakInk2__ComplexTask.pdg c) →
          v ∈ OakInk2__ComplexTask.exec_path_affordance c).
Proof.
  destruct (load_complex_task "scene/seq" None empty_state) as [[l σ']|]
    eqn:Hload; [|by vm_compute in Hload].
  destruct (load_complex_task_pdg_nodes "scene/seq" None empty_state l σ'
              sample_literal_eval_str Hload)
    as (c & raw & pi & g & Hc & Hraw & Hpi & Hg & Hnodes & Hsub).
  vm_compute in Hraw. injection Hraw as <-.
  vm_compute in Hpi. injection Hpi as <-.
  vm_compute in Hg. injection Hg as <-.
  by exists l, σ', c.
Defined.

(** The merged map of the sample sequence names the transient segment
    [move]; the graph has no such node. *)
Lemma load_complex_task_pdg_nodes_counterexample :
  ∃ l σ' c,
    load_complex_task "scene/seq" None empty_state = Some (l, σ') ∧
    complex_tasks σ' !! l = Some c ∧
    OakInk2__ComplexTask.exec_path c = ["hold"; "move"; "pour"] ∧
    ¬ (∀ v, v ∈ nodes (OakInk2__ComplexTask.pdg c) ↔ v ∈ OakInk2__ComplexTask.exec_path c).
Proof.
  destruct (load_complex_task "scene/seq" None empty_state) as [[l σ']|]
    eqn:Hload; [|by vm_compute in Hload].
  destruct (complex_tasks σ' !! l) as [c|] eqn:Hc.
  - exists l, σ', c. split_and!; [done..| |].
    + vm_compute in Hload. injection Hload as <- <-.
      vm_compute in Hc. by injection Hc as <-.
    + vm_compute in Hload. injection Hload as <- <-.
      vm_compute in Hc. injection Hc as <-. simpl.
      intros Heq. assert (Hin : "move" ∈ ["hold"; "pour"]) by (apply Heq; compute_done).
      revert Hin. compute_done.
  - vm_compute in Hload. injection Hload as <- <-. by vm_compute in Hc.
Qed.

Lemma hydration_idempotent_witness :
  (∃ a' σ',
     instantiate_affordance affordance empty_state = Some (a', σ') ∧
     instantiate_affordance a' σ' = Some (a', σ')) ∧
  (∃ l σ0 σ',
     load_complex_task "scene/seq" (Some false) empty_state = Some (l, σ0) ∧
     instantiate_complex_task l σ0 = Some (l, σ') ∧
     instantiate_complex_task l σ' = Some (l, σ')) ∧
  (∃ p' σ',
     instantiate_primitive_task primitive_task None empty_state =
       Some (p', σ') ∧
     instantiate_primitive_task p' None σ' = Some (p', σ')).
Proof.
  destruct (@hydration_idempotent numeric pylib programlib dataset)
    as (Ha & Hc & Hp).
  split_and!.
  - destruct (instantiate_affordance affordance empty_state) as [[a' σ']|]
      eqn:Hi; [|by vm_compute in Hi].
    exists a', σ'. split; [done|]. by apply (Ha _ _ _ _ Hi).
  - destruct (load_complex_task "scene/seq" (Some false) empty_state)
      as [[l σ0]|] eqn:Hload; [|by vm_compute in Hload].
    destruct (instantiate_complex_task l σ0) as [[l' σ']|] eqn:Hi.
    + pose proof (Hc _ _ _ _ Hi) as Hi2.
      pose proof (instantiate_complex_task_inv _ _ _ _ Hi) as (-> & _).
      by exists l, σ0, σ'.
    + vm_compute in Hload. injection Hload as <- <-. by vm_compute in Hi.
  - destruct (instantiate_primitive_task primitive_task None empty_state)
      as [[p' σ']|] eqn:Hi; [|by vm_compute in Hi].
    exists p', σ'. split; [done|]. by apply (Hp _ _ _ _ _ Hi).
Defined.

Lemma instantiate_primitive_task_hand_window_witness :
  ∃ p' σ' lh mask,
    instantiate_primitive_task primitive_task None empty_state =
      Some (p', σ') ∧
    OakInk2__PrimitiveTask.lh_param p' = Some lh ∧
    OakInk2__PrimitiveTask.lh_in_range_mask p' = Some mask ∧
    hand_window 4 1 2 lh mask.
Proof.
  destruct (instantiate_primitive_task primitive_task None empty_state)
    as [[p' σ']|] eqn:Hi; [|by vm_compute in Hi].
  destruct (instantiate_primitive_task_hand_window primitive_task None
              empty_state p' σ' 1 5 eq_refl eq_refl Hi) as [Hlh _].
  destruct (Hlh 2 4 eq_refl) as (lh & mask & ? & ? & ?); [lia..|].
  by exists p', σ', lh, mask.
Defined.

Lemma instantiate_primitive_task_hand_absent_witness :
  ∃ p' σ' rh mask,
    instantiate_primitive_task primitive_task None empty_state =
      Some (p', σ') ∧
    OakInk2__PrimitiveTask.rh_param p' = Some rh ∧
    OakInk2__PrimitiveTask.rh_in_range_mask p' = Some mask ∧
    hand_zero 4 rh mask.
Proof.
  destruct (instantiate_primitive_task primitive_task None empty_state)
    as [[p' σ']|] eqn:Hi; [|by vm_compute in Hi].
  destruct (instantiate_primitive_task_hand_absent primitive_task None
              empty_state p' σ' 1 5 eq_refl eq_refl Hi) as [_ Hrh].
  destruct (Hrh eq_refl) as (rh & mask & ? & ? & ?).
  by exists p', σ', rh, mask.
Defined.

Lemma instantiate_primitive_task_objects_witness :
  ∃ p' σ' obj_transf,
    instantiate_primitive_task primitive_task None empty_state =
      Some (p', σ') ∧
    OakInk2__PrimitiveTask.obj_transf p' = Some obj_transf ∧
    OakInk2__PrimitiveTask.task_obj_list p' =
      filter (λ el, el ∈ Dict.keys obj_transf) ["O1"; "O7"] ∧
    OakInk2__PrimitiveTask.lh_obj_list p' =
      Some (filter (λ el, el ∈ Dict.keys obj_transf) ["O7"; "O1"]) ∧
    OakInk2__PrimitiveTask.rh_obj_list p' = None.
Proof.
  destruct (instantiate_primitive_task primitive_task None empty_state)
    as [[p' σ']|] eqn:Hi; [|by vm_compute in Hi].
  destruct (instantiate_primitive_task_objects primitive_task None
              empty_state p' σ' eq_refl Hi)
    as (l & c & pot & ot & _ & _ & _ & Hot & _ & Htol & Hlol & Hrol).
  by exists p', σ', ot.
Defined.

Lemma instantiate_primitive_task_leaves_caller_task_witness :
  ∃ l0 σ0 c0 p' σ',
    load_complex_task "scene/seq" (Some false) empty_state = Some (l0, σ0) ∧
    complex_tasks σ0 !! l0 = Some c0 ∧
    OakInk2__ComplexTask.instantiated c0 = false ∧
    instantiate_primitive_task primitive_task (Some l0) σ0 = Some (p', σ') ∧
    complex_tasks σ' !! l0 = Some c0.
Proof.
  destruct (load_complex_task "scene/seq" (Some false) empty_state)
    as [[l0 σ0]|] eqn:Hload; [|by vm_compute in Hload].
  destruct (load_complex_task_inv _ _ _ _ _ Hload)
    as (_ & _ & c0 & c & Hb & Hct & Hc).
  simpl in Hc. subst c.
  apply build_complex_task_fresh in Hb as [Hinst _].
  assert (Hc0 : complex_tasks σ0 !! l0 = Some c0)
    by (rewrite Hct; apply lookup_insert_eq).
  destruct (instantiate_primitive_task primitive_task (Some l0) σ0)
    as [[p' σ']|] eqn:Hi.
  - exists l0, σ0, c0, p', σ'. split_and!; [done..|].
    eapply (instantiate_primitive_task_leaves_caller_task primitive_task
              (Some l0) σ0 p' σ'); [| exact Hi | reflexivity | done].
    intros l [= <-]. by exists c0.
  - vm_compute in Hload. injection Hload as <- <-. by vm_compute in Hi.
Defined.

Lemma get_part_tree_root_depth_witness :
  get_part_tree_root 2 (rev_part_tree part_tree) "O1_knob" = Some "O1"%string ∧
  get_part_tree_root 1 (rev_part_tree part_tree) "O1_knob" = None ∧
  rev_part_tree part_tree !! "O1"%string = None.
Proof.
  assert (Hc : parent_chain (rev_part_tree part_tree) "O1_knob" 2 "O1").
  { apply (parent_chain_step _ _ "O1_lid"); [by vm_compute|].
    apply (parent_chain_step _ _ "O1"); [by vm_compute|].
    apply parent_chain_root. by vm_compute. }
  destruct (get_part_tree_root_depth _ _ _ _ Hc) as (Hfuel & _ & Hroot & _).
  split_and!; [apply (Hfuel 2%nat) | apply (Hfuel 1%nat) | exact Hroot].
Defined.

End Evaluation.

(** * Further properties *)

(** ** Node contraction, continued *)

Section ContractEdgesMore.
Implicit Types (es : list (Z * Z)) (n u v w : Z) (ws ids : list Z).

Lemma path_app es u ws1 w ws2 v :
  path es u ws1 w → path es w ws2 v → path es u (ws1 ++ w :: ws2) v.
Proof.
  revert u. induction ws1 as [|x ws1 IH]; intros u; simpl.
  - auto.
  - intros [? ?] ?. split; [done|]. by apply IH.
Qed.

(** A walk after one contraction is a walk before it, with the contracted
    node put back where an edge was bridged. *)
Lemma contract_edges_path_lift es n ws : ∀ u v,
  path (contract_edges es n) u ws v →
  ∃ ws', path es u ws' v ∧ Forall (λ w, w ∈ ws ∨ w = n) ws'.
Proof.
  induction ws as [|x ws IH]; intros u v; simpl.
  - intros (_ & _ & [Hin|[H1 H2]])%elem_of_contract_edges.
    + exists []. split; [done | constructor].
    + exists [n]. split; [done|]. constructor; [by right | constructor].
  - intros [(_ & _ & Hux)%elem_of_contract_edges Hp].
    destruct (IH _ _ Hp) as (ws' & Hp' & Hall).
    assert (Hall' : Forall (λ w, w ∈ x :: ws ∨ w = n) ws').
    { eapply Forall_impl; [exact Hall|]. simpl.
      intros w [?|?]; [left; by right | by right]. }
    destruct Hux as [Hin|[H1 H2]].
    + exists (x :: ws'). split; [done|].
      constructor; [left; left | done].
    + exists (n :: x :: ws'). split; [done|].
      constructor; [by right|]. constructor; [left; left | done].
Qed.

Lemma foldl_contract_edges_sound ids : ∀ es u v,
  (u, v) ∈ foldl contract_edges es ids →
  ∃ ws, path es u ws v ∧ Forall (λ w, w ∈ ids) ws.
Proof.
  induction ids as [|n ids IH]; intros es u v Hin; simpl in Hin.
  - exists []. split; [done | constructor].
  - destruct (IH _ _ _ Hin) as (ws & Hp & Hall).
    assert (Hgen : ∀ ws u, Forall (λ w, w ∈ ids) ws →
              path (contract_edges es n) u ws v →
              ∃ ws', path es u ws' v ∧ Forall (λ w, w ∈ n :: ids) ws').
    { clear. intros ws u Hall Hp.
      destruct (contract_edges_path_lift _ _ _ _ _ Hp) as (ws' & Hp' & Hall').
      exists ws'. split; [done|].
      rewrite Forall_forall in Hall. eapply Forall_impl; [exact Hall'|].
      simpl. intros w [Hw| ->]; [right; auto | left]. }
    eauto.
Qed.

End ContractEdgesMore.

(** ** [fix_g_info], continued *)

Section FixGInfoMore.
Context `{PyLib}.
Implicit Types (g : GInfo) (nm : list (string * string)).
Implicit Types (nodes ks : list string) (ids : list Z).

Hypothesis literal_eval_str : ∀ v : PyVal, literal_eval (py_str v) = Some v.

Lemma filter_iff_elem {A : Type} (P Q : A → Prop)
    `{!∀ x, Decision (P x), !∀ x, Decision (Q x)} (l : list A) :
  (∀ x, x ∈ l → P x ↔ Q x) → filter P l = filter Q l.
Proof.
  induction l as [|x l IH]; intros HPQ; [done|].
  rewrite !filter_cons.
  rewrite IH by (intros y Hy; apply HPQ; by right).
  destruct (decide (P x)) as [HP|HP], (decide (Q x)) as [HQ|HQ]; try done.
  - exfalso. apply HQ, HPQ; [left | done].
  - exfalso. apply HP, HPQ; [left | done].
Qed.

Lemma node_to_contact_parses ks nm nodes k :
  node_to_contact ks nm = Some nodes → k ∈ ks →
  is_Some (standardize_tuple k).
Proof.
  revert nodes. induction ks as [|k0 ks IH]; intros nodes Hn Hk.
  { by apply elem_of_nil in Hk. }
  simpl in Hn.
  destruct (standardize_tuple k0) as [s|] eqn:Hs; [|done]. simpl in Hn.
  destruct (node_to_contact ks nm) as [rest|]; [|done].
  apply elem_of_cons in Hk as [->|Hk]; [by rewrite Hs | eauto].
Qed.

(** What [fix_g_info] computes when it returns: the worklist, the ids it
    contracts in turn, and the two components of the result. *)
Lemma fix_g_info_spec g nm g' :
  fix_g_info g nm = Some g' →
  ∃ worklist ids,
    node_to_contact (Dict.keys (id_map g)) nm = Some worklist ∧
    Forall2 (λ n i, Dict.get (id_map g) n = Some i) worklist ids ∧
    NoDup worklist ∧
    e g' = foldl contract_edges (e g) ids ∧
    id_map g' = filter (λ kv, kv.1 ∉ worklist) (id_map g).
Proof.
  unfold fix_g_info. intros Hfix.
  destruct (node_to_contact (Dict.keys (id_map g)) nm) as [w|] eqn:Hw; [|done].
  simpl in Hfix. exists w. case_decide as Hlen.
  - simplify_eq. destruct w; [|done]. exists [].
    split_and!; [done | constructor | constructor | done |].
    symmetry. apply filter_all. intros kv _. apply not_elem_of_nil.
  - apply contract_all_spec in Hfix as (ids & ? & ? & ? & ?). by exists ids.
Qed.

(** When the worklist could be processed, a raw key whose standard form is
    not in the name map is its own standard form. *)
Lemma worklist_invalid_standard g nm worklist ids k s :
  node_to_contact (Dict.keys (id_map g)) nm = Some worklist →
  Forall2 (λ n i, Dict.get (id_map g) n = Some i) worklist ids →
  NoDup worklist →
  k ∈ Dict.keys (id_map g) → standardize_tuple k = Some s →
  Dict.mem nm s = false → s = k.
Proof using literal_eval_str.
  intros Hn Hall Hnd Hk Hs Hmem.
  destruct (decide (s = k)) as [|Hne]; [done|]. exfalso.
  assert (Hsn : s ∈ worklist).
  { apply (node_to_contact_elem _ _ _ _ Hn). split; [done|]. eauto. }
  destruct (Forall2_elem_of_l _ _ _ _ Hall Hsn) as (j & _ & Hj). simpl in Hj.
  refine (node_to_contact_dup _ _ _ s k s Hn Hne _ Hk _ Hs Hmem Hnd).
  - apply dict_get_is_Some. eauto.
  - by eapply standardize_tuple_idem.
Qed.

(** The contracted ids are the ids of the invalid raw nodes, and the keys
    that stay are the valid ones. *)
Lemma fix_g_info_ids g nm g' :
  fix_g_info g nm = Some g' →
  ∃ ids,
    e g' = foldl contract_edges (e g) ids ∧
    (∀ i, i ∈ ids ↔ invalid_id g nm i) ∧
    id_map g' = filter (λ kv, key_valid nm kv.1 = true) (id_map g).
Proof using literal_eval_str.
  intros (w & ids & Hn & Hall & Hnd & He & Hm)%fix_g_info_spec.
  exists ids. split_and!; [done| |].
  - intros i. split.
    + intros Hi. destruct (Forall2_elem_of_r _ _ _ _ Hall Hi) as (k & Hk & Hki).
      simpl in Hki.
      apply (node_to_contact_elem _ _ _ _ Hn) in Hk as (Hmem & k0 & _ & Hk0).
      exists k, k. split_and!; [done | | by apply dict_mem_false].
      by eapply standardize_tuple_idem.
    + intros (k & s & Hk & Hs & Hmem%dict_mem_false).
      assert (Hkin : k ∈ Dict.keys (id_map g))
        by (apply dict_get_is_Some; eauto).
      assert (s = k) as -> by (by eapply worklist_invalid_standard).
      assert (Hkw : k ∈ w).
      { apply (node_to_contact_elem _ _ _ _ Hn). split; [done|]. eauto. }
      destruct (Forall2_elem_of_l _ _ _ _ Hall Hkw) as (j & Hj & Hkj).
      simpl in Hkj. congruence.
  - rewrite Hm. apply filter_iff_elem. intros [k i] Hin. simpl.
    assert (Hkin : k ∈ Dict.keys (id_map g)).
    { apply list_elem_of_fmap. by exists (k, i). }
    destruct (node_to_contact_parses _ _ _ _ Hn Hkin) as [s Hs].
    unfold key_valid. rewrite Hs. split.
    + intros Hnw. destruct (Dict.mem nm s) eqn:Hmem; [done|]. exfalso.
      assert (s = k) as -> by (by eapply worklist_invalid_standard).
      apply Hnw. apply (node_to_contact_elem _ _ _ _ Hn). split; [done|]. eauto.
    + intros Hmem Hkw.
      apply (node_to_contact_elem _ _ _ _ Hn) in Hkw as (Hmem' & k0 & _ & Hk0).
      apply (standardize_tuple_idem literal_eval_str) in Hk0. congruence.
Qed.

(** X1. The edge set [fix_g_info] returns, exactly: an edge [u → v] is in
    the result if and only if neither end is the id of an invalid node and
    the raw graph has a walk from [u] to [v] all of whose interior nodes are
    ids of invalid nodes.  So runs of invalid nodes of any length are
    bridged, and no precedence is invented. *)
Theorem fix_g_info_edges_exact g nm g' u v :
  fix_g_info g nm = Some g' →
  (u, v) ∈ e g' ↔
  ¬ invalid_id g nm u ∧ ¬ invalid_id g nm v ∧
  ∃ ws, path (e g) u ws v ∧ Forall (invalid_id g nm) ws.
Proof using literal_eval_str.
  intros (ids & He & Hids & _)%fix_g_info_ids. rewrite He. split.
  - intros Hin. split_and!.
    + intros Hu%Hids.
      by destruct (foldl_contract_edges_removes ids (e g) u Hu _ Hin).
    + intros Hv%Hids.
      by destruct (foldl_contract_edges_removes ids (e g) v Hv _ Hin).
    + destruct (foldl_contract_edges_sound _ _ _ _ Hin) as (ws & Hp & Hall).
      exists ws. split; [done|]. eapply Forall_impl; [exact Hall|].
      intros w. apply Hids.
  - intros (Hu & Hv & ws & Hp & Hall).
    apply (foldl_contract_edges_path _ _ ws); [| |  |done].
    + by intros ?%Hids.
    + by intros ?%Hids.
    + eapply Forall_impl; [exact Hall|]. intros w. apply Hids.
Qed.

(** X2. The id-map [fix_g_info] returns is the raw id-map restricted to the
    valid keys: they keep their order and their ids, and no key is added. *)
Theorem fix_g_info_id_map_valid g nm g' :
  fix_g_info g nm = Some g' →
  id_map g' = filter (λ kv, key_valid nm kv.1 = true) (id_map g).
Proof using literal_eval_str.
  by intros (ids & _ & _ & ?)%fix_g_info_ids.
Qed.

Lemma node_to_contact_contractible ks nm :
  Forall (key_contractible nm) ks →
  node_to_contact ks nm =
  Some (filter (λ k, standardize_tuple k = Some k ∧ Dict.mem nm k = false) ks).
Proof.
  induction 1 as [|k ks (s & Hs & Hcase) _ IH]; [done|].
  simpl. rewrite Hs, IH. simpl. f_equal. rewrite filter_cons.
  destruct (Dict.mem nm s) eqn:Hmem.
  - rewrite decide_False; [done|]. intros [Hk Hm].
    assert (s = k) as -> by congruence. congruence.
  - destruct Hcase as [Hin%dict_mem_true| ->]; [congruence|].
    by rewrite decide_True.
Qed.

(** X3. [fix_g_info] returns exactly when every raw key parses and every
    key whose standard form is missing from the name map is written in
    standard form; otherwise the lookup of the standardized key, or the
    parse, raises. *)
Theorem fix_g_info_returns_iff g nm :
  Dict.wf (id_map g) →
  is_Some (fix_g_info g nm) ↔
  Forall (key_contractible nm) (Dict.keys (id_map g)).
Proof using literal_eval_str.
  intros Hwf. split.
  - intros [g' (w & ids & Hn & Hall & Hnd & _)%fix_g_info_spec].
    apply Forall_forall. intros k Hk.
    destruct (node_to_contact_parses _ _ _ _ Hn Hk) as [s Hs].
    exists s. split; [done|].
    destruct (Dict.mem nm s) eqn:Hmem; [left; by apply dict_mem_true|].
    right. by eapply worklist_invalid_standard.
  - intros Hall. unfold fix_g_info.
    rewrite (node_to_contact_contractible _ _ Hall). simpl.
    case_decide; [by eauto|]. apply contract_all_total.
    + by apply NoDup_filter.
    + apply Forall_forall. by intros k [_ ?]%list_elem_of_filter.
Qed.

End FixGInfoMore.

Section FixGInfoUnchanged.
Context `{PyLib}.

(** X4. When every raw key is valid, [fix_g_info] returns the raw graph as
    it is: nothing is contracted, no edge is filtered or reordered. *)
Theorem fix_g_info_all_valid_unchanged (g : GInfo)
    (nm : list (string * string)) :
  Forall (λ k, key_valid nm k = true) (Dict.keys (id_map g)) →
  fix_g_info g nm = Some g.
Proof.
  intros Hall. unfold fix_g_info.
  assert (Hn : node_to_contact (Dict.keys (id_map g)) nm = Some []).
  { induction Hall as [|k ks Hk _ IH]; [done|].
    simpl. unfold key_valid in Hk.
    destruct (standardize_tuple k) as [s|]; [|done].
    simpl. rewrite IH. simpl. by rewrite Hk. }
  by rewrite Hn.
Qed.

End FixGInfoUnchanged.

(** ** The program dependency graph, continued *)

Section PDGMore.
Context `{PyLib}.
Implicit Types (G : DiGraph) (nm : list (string * string)) (g : GInfo).

Hypothesis literal_eval_str : ∀ v : PyVal, literal_eval (py_str v) = Some v.

Lemma add_node_wf G n : digraph_wf G → digraph_wf (add_node G n).
Proof.
  intros (Hn & He & Hcl). unfold add_node. case_decide as Hin; [done|].
  split_and!; simpl; [|done|].
  - apply NoDup_app. split_and!; [done| |apply NoDup_singleton].
    by intros x Hx ->%list_elem_of_singleton.
  - intros x y Hxy. rewrite !elem_of_app. destruct (Hcl _ _ Hxy). auto.
Qed.

Lemma add_edge_wf G u v : digraph_wf G → digraph_wf (add_edge G u v).
Proof.
  intros HG. pose proof (add_node_wf _ v (add_node_wf _ u HG)) as HG'.
  unfold add_edge. case_decide as Hin; [done|].
  destruct HG' as (Hn & He & Hcl). split_and!; simpl; [done| |].
  - apply NoDup_app. split_and!; [done| |apply NoDup_singleton].
    by intros x Hx ->%list_elem_of_singleton.
  - intros x y [Hxy|Hxy%list_elem_of_singleton]%elem_of_app; [by apply Hcl|].
    simplify_eq. rewrite !elem_of_add_node. auto.
Qed.

Lemma add_node_edges G n : edges (add_node G n) = edges G.
Proof. unfold add_node. by case_decide. Qed.

Lemma elem_of_add_edge_edges G u v x y :
  (x, y) ∈ edges (add_edge G u v) ↔ (x, y) ∈ edges G ∨ (x, y) = (u, v).
Proof.
  unfold add_edge. case_decide as Hin; simpl; rewrite ?add_node_edges in *.
  - split; [by left | by intros [?| ->]].
  - by rewrite elem_of_app, list_elem_of_singleton.
Qed.

Lemma pdg_add_nodes_wf ks nm : ∀ G G',
  pdg_add_nodes G ks nm = Some G' →
  (digraph_wf G → digraph_wf G') ∧ edges G' = edges G.
Proof.
  induction ks as [|k ks IH]; intros G G' Hadd; simpl in Hadd.
  - by simplify_eq.
  - apply bind_Some in Hadd as (s & _ & Hadd).
    apply bind_Some in Hadd as (n & _ & Hadd).
    destruct (IH _ _ Hadd) as [Hwf He]. split.
    + intros HG. by apply Hwf, add_node_wf.
    + by rewrite He, add_node_edges.
Qed.

Lemma pdg_add_edges_spec es rev nm : ∀ G G',
  pdg_add_edges G es rev nm = Some G' →
  (digraph_wf G → digraph_wf G') ∧
  (∀ x y, (x, y) ∈ edges G' ↔
          (x, y) ∈ edges G ∨
          ∃ i j, (i, j) ∈ es ∧ edge_identifiers rev nm i j x y) ∧
  (∀ i j, (i, j) ∈ es → ∃ x y, edge_identifiers rev nm i j x y).
Proof.
  induction es as [|[i j] es IH]; intros G G' Hadd; simpl in Hadd.
  - simplify_eq. split_and!; [done| |].
    + intros x y. split; [by left|].
      intros [?|(i & j & ?%elem_of_nil & _)]; done.
    + by intros i j ?%elem_of_nil.
  - apply bind_Some in Hadd as (ki & Hi & Hadd).
    apply bind_Some in Hadd as (kj & Hj & Hadd).
    apply bind_Some in Hadd as (si & Hsi & Hadd).
    apply bind_Some in Hadd as (sj & Hsj & Hadd).
    apply bind_Some in Hadd as (ni & Hni & Hadd).
    apply bind_Some in Hadd as (nj & Hnj & Hadd).
    assert (Hid : edge_identifiers rev nm i j ni nj).
    { exists ki, kj. split_and!; [done..| by exists si | by exists sj]. }
    destruct (IH _ _ Hadd) as (Hwf & Hedges & Hres). split_and!.
    + intros HG. by apply Hwf, add_edge_wf.
    + intros x y. rewrite Hedges, elem_of_add_edge_edges. split.
      * intros [[?|Heq]|(i0 & j0 & Hin & Hid0)].
        -- by left.
        -- simplify_eq. right. exists i, j. split; [left | done].
        -- right. exists i0, j0. split; [by right | done].
      * intros [?|(i0 & j0 & [Heq|Hin]%elem_of_cons & Hid0)].
        -- by left; left.
        -- simplify_eq. left. right.
           destruct Hid0 as (ki' & kj' & ? & ? & (si' & ? & ?) & (sj' & ? & ?)).
           f_equal; congruence.
        -- right. eauto.
    + intros i0 j0 [Heq|Hin]%elem_of_cons; [simplify_eq; eauto | eauto].
Qed.

Lemma key_identifier_functional nm k x x' :
  key_identifier nm k x → key_identifier nm k x' → x = x'.
Proof. intros (s & ? & ?) (s' & ? & ?). congruence. Qed.


(** X6. The edges of the graph [load_complex_task] builds, in terms of the
    raw graph: there is an edge from task [x] to task [y] exactly when two
    raw keys named [x] and [y] are joined, in the raw graph, by a walk whose
    interior nodes are all invalid.  The raw graph is a dictionary whose
    ids name one node each. *)
Theorem load_pdg_edges_exact g nm G x y :
  Dict.wf (id_map g) → NoDup (Dict.values (id_map g)) →
  load_pdg g nm = Some G →
  (x, y) ∈ edges G ↔
  ∃ kA kB a b ws,
    Dict.get (id_map g) kA = Some a ∧ Dict.get (id_map g) kB = Some b ∧
    key_identifier nm kA x ∧ key_identifier nm kB y ∧
    path (e g) a ws b ∧ Forall (invalid_id g nm) ws.
Proof using literal_eval_str.
  intros Hwf Hinj. unfold load_pdg. intros Hload.
  apply bind_Some in Hload as (g' & Hfix & Hload).
  apply bind_Some in Hload as (G1 & Hn & Hload).
  apply pdg_add_nodes_wf in Hn as [_ HE1]. simpl in HE1.
  apply pdg_add_edges_spec in Hload as (_ & Hedges & Hres).
  destruct (fix_g_info_ids literal_eval_str _ _ _ Hfix) as (ids & He & Hids & Hm).
  assert (Hrev : ∀ i k, Dict.get (_rev_id_map (id_map g')) i = Some k →
            Dict.get (id_map g) k = Some i).
  { intros i k Hk%rev_id_map_elem. rewrite Hm in Hk.
    apply list_elem_of_filter in Hk as [_ Hk]. by apply dict_elem_get. }
  assert (Hvalid : ∀ k i z, Dict.get (id_map g) k = Some i →
            key_identifier nm k z → i ∉ ids).
  { intros k i z Hk (s & Hs & Hz) (k2 & s2 & Hk2 & Hs2 & Hn2)%Hids.
    assert (k2 = k) as ->.
    { eapply dict_values_inj; eauto using dict_get_Some_elem. }
    apply Hn2. apply dict_get_is_Some. assert (s2 = s) as -> by congruence.
    eauto. }
  rewrite Hedges, HE1. split.
  - intros [?%elem_of_nil|(i & j & Hin & ki & kj & Hi & Hj & Hx & Hy)]; [done|].
    rewrite He in Hin.
    destruct (foldl_contract_edges_sound _ _ _ _ Hin) as (ws & Hp & Hall).
    exists ki, kj, i, j, ws. split_and!; eauto.
    eapply Forall_impl; [exact Hall|]. intros w. apply Hids.
  - intros (kA & kB & a & b & ws & HA & HB & Hx & Hy & Hp & Hall). right.
    assert (Hab : (a, b) ∈ e g').
    { rewrite He. apply (foldl_contract_edges_path _ _ ws); eauto.
      eapply Forall_impl; [exact Hall|]. intros w. apply Hids. }
    destruct (Hres _ _ Hab) as (x' & y' & ki & kj & Hi & Hj & Hx' & Hy').
    exists a, b. split; [done|]. exists ki, kj.
    assert (ki = kA) as ->.
    { eapply dict_values_inj; eauto using dict_get_Some_elem. }
    assert (kj = kB) as ->.
    { eapply dict_values_inj; eauto using dict_get_Some_elem. }
    done.
Qed.

End PDGMore.

(** ** [load_program_info] and [load_desc_info] *)

Section ProgramFilesFacts.
Context `{PyLib}.

Lemma standardize_tuple_None k :
  standardize_tuple k = None ↔ literal_eval k = None.
Proof. unfold standardize_tuple. by destruct (literal_eval k). Qed.

Lemma standardize_keys_None {V : Type} (raw : list (string * V)) :
  ∀ acc : list (string * V),
  standardize_keys raw acc = None ↔
  ∃ k, k ∈ Dict.keys raw ∧ literal_eval k = None.
Proof.
  unfold Dict.keys.
  induction raw as [|[k v] raw IH]; intros acc; simpl.
  - split; [done|]. by intros (k & ?%elem_of_nil & _).
  - destruct (standardize_tuple k) as [s|] eqn:Hs; simpl.
    + rewrite IH. split.
      * intros (k0 & ? & ?). exists k0. split; [by right | done].
      * intros (k0 & [->|?]%elem_of_cons & Hk0); [|by eauto].
        apply standardize_tuple_None in Hk0. congruence.
    + split; [|done]. intros _. exists k. split; [left|].
      by apply standardize_tuple_None.
Qed.

(** X7. [load_program_info] and [load_desc_info] fail exactly when some key
    of the file does not parse: a malformed frame-range key is not skipped,
    the parse failure reaches the caller. *)
Theorem load_info_fails_iff :
  (∀ raw, load_program_info raw = None ↔
          ∃ k, k ∈ Dict.keys raw ∧ literal_eval k = None) ∧
  (∀ raw, load_desc_info raw = None ↔
          ∃ k, k ∈ Dict.keys raw ∧ literal_eval k = None).
Proof. split; intros raw; apply standardize_keys_None. Qed.

Lemma standardize_keys_keys {V : Type} (raw : list (string * V)) :
  ∀ (acc res : list (string * V)) s,
  standardize_keys raw acc = Some res →
  s ∈ Dict.keys res ↔
  s ∈ Dict.keys acc ∨ ∃ k, k ∈ Dict.keys raw ∧ standardize_tuple k = Some s.
Proof.
  induction raw as [|[k v] raw IH]; intros acc res s Hs; simpl in Hs.
  - simplify_eq. split; [by left|].
    by intros [?|(k & ?%elem_of_nil & _)].
  - apply bind_Some in Hs as (s0 & Hs0 & Hs).
    rewrite (IH _ _ _ Hs), dict_keys_set.
    change (Dict.keys ((k, v) :: raw)) with (k :: Dict.keys raw). split.
    + intros [Hin|(k0 & Hk0 & Hstd)].
      * case_decide; [by left|].
        apply elem_of_app in Hin as [?| ->%list_elem_of_singleton]; [by left|].
        right. exists k. split; [left | done].
      * right. exists k0. split; [by right | done].
    + intros [Hin|(k0 & [->|Hk0]%elem_of_cons & Hstd)].
      * left. case_decide; [done|]. apply elem_of_app. by left.
      * left. assert (s0 = s) as -> by congruence.
        case_decide; [done|]. apply elem_of_app. right. left.
      * right. eauto.
Qed.

Lemma standardize_keys_get {V : Type} (raw : list (string * V)) :
  ∀ (acc res : list (string * V)) s,
  standardize_keys raw acc = Some res →
  (∀ l1 k v l2,
     raw = l1 ++ (k, v) :: l2 → standardize_tuple k = Some s →
     (∀ k', k' ∈ Dict.keys l2 → standardize_tuple k' ≠ Some s) →
     Dict.get res s = Some v) ∧
  ((∀ k', k' ∈ Dict.keys raw → standardize_tuple k' ≠ Some s) →
   Dict.get res s = Dict.get acc s).
Proof.
  induction raw as [|[k0 v0] raw IH]; intros acc res s Hs; simpl in Hs.
  - simplify_eq. split; [|done]. intros [|??] ????; done.
  - apply bind_Some in Hs as (s0 & Hs0 & Hs).
    destruct (IH _ _ s Hs) as [IH1 IH2]. split.
    + intros [|[k1 v1] l1] k v l2 Heq Hk Hlater; simpl in Heq; simplify_eq.
      * rewrite IH2 by done. rewrite dict_get_set. by rewrite decide_True.
      * by eapply IH1.
    + intros Hno. rewrite IH2.
      * rewrite dict_get_set. rewrite decide_False; [done|].
        intros ->. apply (Hno k0); [left | done].
      * intros k' Hk'. apply Hno. by right.
Qed.

(** X8. The dictionary [load_program_info] returns: its keys are the
    standard forms of the file's keys, each once; and where several keys of
    the file have the same standard form, the entry of the last one is the
    one kept. *)
Theorem load_program_info_last_wins raw program_info :
  load_program_info raw = Some program_info →
  Dict.wf program_info ∧
  (∀ s, s ∈ Dict.keys program_info ↔
        ∃ k, k ∈ Dict.keys raw ∧ standardize_tuple k = Some s) ∧
  (∀ l1 k v l2 s,
     raw = l1 ++ (k, v) :: l2 → standardize_tuple k = Some s →
     (∀ k', k' ∈ Dict.keys l2 → standardize_tuple k' ≠ Some s) →
     Dict.get program_info s = Some v).
Proof.
  intros Hl. split_and!.
  - by eapply load_program_info_wf.
  - intros s. rewrite (standardize_keys_keys _ _ _ s Hl). split.
    + by intros [?%elem_of_nil|?].
    + by right.
  - intros l1 k v l2 s. by apply (standardize_keys_get _ _ _ s Hl).
Qed.

Lemma standardize_keys_standard {V : Type} (raw : list (string * V)) :
  ∀ acc : list (string * V),
  Forall (λ k, standardize_tuple k = Some k) (Dict.keys raw) →
  NoDup (Dict.keys acc ++ Dict.keys raw) →
  standardize_keys raw acc = Some (acc ++ raw).
Proof.
  unfold Dict.keys.
  induction raw as [|[k v] raw IH]; intros acc Hstd Hnd; simpl.
  - by rewrite app_nil_r.
  - rewrite fmap_cons in Hstd, Hnd. simpl in *.
    apply Forall_cons in Hstd as [Hk Hstd]. rewrite Hk. simpl.
    assert (Hfresh : k ∉ Dict.keys acc).
    { apply NoDup_app in Hnd as (_ & Hdisj & _). intros Hin.
      apply (Hdisj _ Hin). left. }
    rewrite dict_set_fresh by done. rewrite IH; [|done|].
    + by rewrite <- app_assoc.
    + rewrite fmap_app. simpl. rewrite <- app_assoc. done.
Qed.

(** X9. Standardizing is idempotent: a dictionary whose keys are already in
    standard form is returned as it is, and so is every dictionary
    [load_program_info] has returned. *)
Theorem load_program_info_idempotent :
  (∀ v : PyVal, literal_eval (py_str v) = Some v) →
  (∀ raw, Dict.wf raw →
          Forall (λ k, standardize_tuple k = Some k) (Dict.keys raw) →
          load_program_info raw = Some raw) ∧
  (∀ raw program_info,
     load_program_info raw = Some program_info →
     load_program_info program_info = Some program_info).
Proof.
  intros Hrt.
  assert (Hid : ∀ raw : list (string * ProgramItem), Dict.wf raw →
            Forall (λ k, standardize_tuple k = Some k) (Dict.keys raw) →
            load_program_info raw = Some raw).
  { intros raw Hwf Hstd. unfold load_program_info.
    by rewrite standardize_keys_standard. }
  split; [done|]. intros raw program_info Hl. apply Hid.
  - by eapply load_program_info_wf.
  - apply Forall_forall. intros s Hs.
    apply (standardize_keys_keys _ _ _ s Hl) in Hs
      as [?%elem_of_nil|(k & _ & Hk)]; [done|].
    by eapply standardize_tuple_idem.
Qed.

End ProgramFilesFacts.

(** ** The part tree, continued *)

Section PartTreeMore.
Implicit Types (rev res : gmap string string) (obj_id parent root x k : string).
Implicit Types (pt : list (string * list string)) (parts : list string).

Lemma rev_parts_lookup parts k : ∀ res x,
  foldl (λ res part, <[part := k]> res) res parts !! x =
  if decide (x ∈ parts) then Some k else res !! x.
Proof.
  induction parts as [|p parts IH]; intros res x.
  - done.
  - simpl foldl. rewrite IH. destruct (decide (x ∈ parts)) as [Hin|Hin].
    + rewrite decide_True; [done | by right].
    + destruct (decide (x = p)) as [->|Hne].
      * rewrite lookup_insert_eq. rewrite decide_True; [done | left].
      * rewrite lookup_insert_ne by done. rewrite decide_False; [done|].
        by intros [?|?]%elem_of_cons.
Qed.

Lemma rev_part_tree_fold_Some pt : ∀ res x k,
  foldl (λ res kv, foldl (λ res part, <[part := kv.1]> res) res kv.2) res pt
    !! x = Some k →
  res !! x = Some k ∨ ∃ parts, (k, parts) ∈ pt ∧ x ∈ parts.
Proof.
  induction pt as [|[k0 parts0] pt IH]; intros res x k Hl; simpl in Hl.
  - by left.
  - apply IH in Hl as [Hl|(parts & Hin & Hx)].
    + rewrite rev_parts_lookup in Hl. simpl in Hl. case_decide as Hx.
      * simplify_eq. right. exists parts0. split; [left | done].
      * by left.
    + right. exists parts. split; [by right | done].
Qed.

Lemma rev_part_tree_fold_is_Some pt : ∀ res x,
  is_Some (res !! x) ∨ (∃ k parts, (k, parts) ∈ pt ∧ x ∈ parts) →
  is_Some (foldl (λ res kv, foldl (λ res part, <[part := kv.1]> res) res kv.2)
             res pt !! x).
Proof.
  induction pt as [|[k0 parts0] pt IH]; intros res x Hx; simpl.
  - destruct Hx as [?|(k & parts & ?%elem_of_nil & _)]; done.
  - apply IH. rewrite rev_parts_lookup. simpl.
    destruct Hx as [Hres|(k & parts & [Heq|Hin]%elem_of_cons & Hx)].
    + left. by case_decide.
    + simplify_eq. left. by rewrite decide_True.
    + right. eauto.
Qed.

(** X10. [rev_part_tree] maps a part to a parent that lists it; it has an
    entry for exactly the ids some parent lists; and when only one parent
    lists a part, that parent is its entry. *)
Theorem rev_part_tree_lookup pt x :
  (∀ k, rev_part_tree pt !! x = Some k →
        ∃ parts, (k, parts) ∈ pt ∧ x ∈ parts) ∧
  (is_Some (rev_part_tree pt !! x) ↔
   ∃ k parts, (k, parts) ∈ pt ∧ x ∈ parts) ∧
  (∀ k parts, (k, parts) ∈ pt → x ∈ parts →
     (∀ k' parts', (k', parts') ∈ pt → x ∈ parts' → k' = k) →
     rev_part_tree pt !! x = Some k).
Proof.
  assert (H1 : ∀ k, rev_part_tree pt !! x = Some k →
                    ∃ parts, (k, parts) ∈ pt ∧ x ∈ parts).
  { intros k [Hl|?]%rev_part_tree_fold_Some; [|done].
    by rewrite lookup_empty in Hl. }
  assert (H2 : (∃ k parts, (k, parts) ∈ pt ∧ x ∈ parts) →
               is_Some (rev_part_tree pt !! x)).
  { intros Hx. apply rev_part_tree_fold_is_Some. by right. }
  split_and!; [done| |].
  - split; [|done]. intros [k Hk]. destruct (H1 _ Hk) as (parts & ? & ?).
    by exists k, parts.
  - intros k parts Hin Hx Huniq.
    destruct H2 as [k' Hk']; [by eauto|].
    destruct (H1 _ Hk') as (parts' & Hin' & Hx').
    by rewrite (Huniq _ _ Hin' Hx') in Hk'.
Qed.

Lemma get_part_tree_root_chain fuel rev : ∀ obj_id root,
  get_part_tree_root fuel rev obj_id = Some root →
  ∃ d, (d ≤ fuel)%nat ∧ parent_chain rev obj_id d root.
Proof.
  induction fuel as [|fuel IH]; intros obj_id root; simpl;
    destruct (rev !! obj_id) as [parent|] eqn:Hp; try done.
  - intros [= <-]. exists 0%nat. split; [lia | by constructor].
  - intros (d & Hd & Hc)%IH. exists (S d). split; [lia|].
    by econstructor.
  - intros [= <-]. exists 0%nat. split; [lia | by constructor].
Qed.

Lemma parent_chain_hops_prefix rev obj_id d root :
  parent_chain rev obj_id d root →
  ∀ (m : nat) y, parent_hops rev m obj_id = Some y →
    (m ≤ d)%nat ∧ parent_chain rev y (d - m) root.
Proof.
  induction 1 as [obj_id Hnone|obj_id parent d root Hp Hc IH]; intros m y.
  - destruct m as [|m]; simpl.
    + intros [= <-]. split; [lia | by constructor].
    + by rewrite Hnone.
  - destruct m as [|m]; simpl.
    + intros [= <-]. split; [lia | by econstructor].
    + rewrite Hp. simpl. intros Hh. destruct (IH _ _ Hh). split; [lia | done].
Qed.

Lemma chain_acyclic rev :
  (∀ x, ∃ (d : nat) root, parent_chain rev x d root) → acyclic rev.
Proof.
  intros Hchain x n Hcyc. destruct (Hchain x) as (d & root & Hc).
  destruct (parent_chain_hops_prefix _ _ _ _ Hc _ _ Hcyc) as [Hle Hc'].
  destruct (parent_chain_unique _ _ _ _ Hc _ _ Hc') as [Heq _]. lia.
Qed.

(** X11. Whatever [get_part_tree_root] returns is an id without a parent
    entry, reached from the starting id by at most [fuel] parent links; and
    it returns for no id that lies on a cycle of the parent map, however
    long the loop is run. *)
Theorem get_part_tree_root_sound (fuel : nat) rev obj_id root :
  get_part_tree_root fuel rev obj_id = Some root →
  rev !! root = None ∧
  (∃ d, (d ≤ fuel)%nat ∧ parent_hops rev d obj_id = Some root) ∧
  (∀ n : nat, parent_hops rev (S n) obj_id ≠ Some obj_id).
Proof.
  intros (d & Hd & Hc)%get_part_tree_root_chain.
  destruct (parent_chain_hops _ _ _ _ Hc) as [Hh Hroot].
  split_and!; [done | by exists d |].
  intros n Hcyc.
  destruct (parent_chain_hops_prefix _ _ _ _ Hc _ _ Hcyc) as [Hle Hc'].
  destruct (parent_chain_unique _ _ _ _ Hc _ _ Hc') as [Heq _]. lia.
Qed.

End PartTreeMore.

(** ** Mesh loading, continued *)

Section LoadObjMore.
Context `{OakInk2__Dataset}.



End LoadObjMore.

(** ** The mesh cache *)

Section AffordanceFacts.
Context `{Numeric} `{PyLib} `{ProgramLib} `{!OakInk2__Dataset}.
Implicit Types (σ : State) (m : Mesh).

Lemma cache_grows_refl σ : cache_grows σ σ.
Proof. by split. Qed.

Lemma cache_grows_trans σ1 σ2 σ3 :
  cache_grows σ1 σ2 → cache_grows σ2 σ3 → cache_grows σ1 σ3.
Proof. intros [? ?] [? ?]. split; [congruence | auto]. Qed.

Lemma cached_load_obj_spec id σ m σ' :
  cached_load_obj id σ = Some (m, σ') →
  cache_grows σ σ' ∧ obj_cache σ' !! id = Some m ∧
  (is_Some (obj_cache σ !! id) → σ' = σ).
Proof.
  unfold cached_load_obj.
  destruct (obj_cache σ !! id) as [m0|] eqn:Hc.
  - intros [= -> ->]. split_and!; [apply cache_grows_refl | done | done].
  - destruct (_load_obj id) as [err|m1]; [done|]. intros [= -> <-].
    split_and!; simpl.
    + split; [done|]. simpl. intros k m0 Hk.
      rewrite lookup_insert_ne; [done|]. intros ->. congruence.
    + apply lookup_insert_eq.
    + by intros [? ?].
Qed.

Lemma load_part_meshes_spec ids : ∀ acc σ parts σ',
  load_part_meshes ids acc σ = Some (parts, σ') →
  cache_grows σ σ' ∧
  (∀ pid, pid ∈ Dict.keys parts ↔ pid ∈ Dict.keys acc ∨ pid ∈ ids) ∧
  ((∀ pid m, Dict.get acc pid = Some m → obj_cache σ !! pid = Some m) →
   ∀ pid m, Dict.get parts pid = Some m → obj_cache σ' !! pid = Some m) ∧
  (Forall (λ pid, is_Some (obj_cache σ !! pid)) ids → σ' = σ).
Proof.
  induction ids as [|id ids IH]; intros acc σ parts σ' Hl; simpl in Hl.
  - apply M_ret_Some in Hl as [= -> ->].
    split_and!; [apply cache_grows_refl | | done | done].
    intros pid. split; [by left|]. by intros [?|?%elem_of_nil].
  - apply M_bind_Some in Hl as (m & σ1 & Hc & Hl).
    apply cached_load_obj_spec in Hc as (Hg1 & Hm & Hhit).
    destruct (IH _ _ _ _ Hl) as (Hg2 & Hkeys & Hvals & Hhits).
    split_and!.
    + by eapply cache_grows_trans.
    + intros pid. rewrite Hkeys, dict_keys_set, elem_of_cons.
      case_decide as Hin.
      * split; [tauto|]. intros [?|[->|?]]; tauto.
      * rewrite elem_of_app, list_elem_of_singleton. tauto.
    + intros Hacc. apply Hvals. intros pid m0. rewrite dict_get_set.
      case_decide as Heq.
      * intros [= <-]. by subst pid.
      * intros Hg. apply Hg1. by apply Hacc.
    + intros [Hid Hall]%Forall_cons. specialize (Hhit Hid). subst σ1.
      by apply Hhits.
Qed.

Lemma load_part_meshes_cached ids : ∀ acc σ,
  Forall (λ pid, is_Some (obj_cache σ !! pid)) ids →
  is_Some (load_part_meshes ids acc σ).
Proof.
  induction ids as [|id ids IH]; intros acc σ Hall; simpl; [by eexists|].
  apply Forall_cons in Hall as [[m Hm] Hall].
  unfold mbind, M_bind, cached_load_obj. rewrite Hm. by apply IH.
Qed.

(** X13. [instantiate_affordance] only ever adds to the mesh cache, and
    leaves the complex tasks alone.  The mesh it attaches to an affordance
    with a model is the cache's entry for the object's id; otherwise it
    attaches one mesh per listed part id, each the cache's entry for that
    part. *)
Theorem instantiate_affordance_cache
    (a a' : OakInk2__Affordance.t Mesh) σ σ' :
  instantiate_affordance a σ = Some (a', σ') →
  cache_grows σ σ' ∧
  OakInk2__Affordance.obj_id a' = OakInk2__Affordance.obj_id a ∧
  OakInk2__Affordance.obj_part_id a' = OakInk2__Affordance.obj_part_id a ∧
  (OakInk2__Affordance.instantiated a = false →
   if OakInk2__Affordance.has_model a
   then ∃ m, OakInk2__Affordance.obj_mesh a' = Some (inl m) ∧
             obj_cache σ' !! OakInk2__Affordance.obj_id a = Some m
   else ∃ parts,
          OakInk2__Affordance.obj_mesh a' = Some (inr parts) ∧
          (∀ pid, pid ∈ Dict.keys parts ↔
                  pid ∈ OakInk2__Affordance.obj_part_id a) ∧
          (∀ pid m, Dict.get parts pid = Some m →
                    obj_cache σ' !! pid = Some m)).
Proof.
  unfold instantiate_affordance.
  destruct (OakInk2__Affordance.instantiated a) eqn:Hinst; simpl.
  - intros [= -> ->]%M_ret_Some.
    split_and!; [apply cache_grows_refl | done..].
  - intros (mesh & σ1 & Hmesh & [= -> ->]%M_ret_Some)%M_bind_Some. simpl.
    destruct (OakInk2__Affordance.has_model a); simpl in Hmesh.
    + apply M_bind_Some in Hmesh as (m & σ2 & Hc & [= -> ->]%M_ret_Some).
      apply cached_load_obj_spec in Hc as (Hg & Hm & _).
      split_and!; [done..|]. intros _. by exists m.
    + apply M_bind_Some in Hmesh as (parts & σ2 & Hl & [= -> ->]%M_ret_Some).
      apply load_part_meshes_spec in Hl as (Hg & Hkeys & Hvals & _).
      split_and!; [done..|]. intros _. exists parts. split_and!; [done| |].
      * intros pid. rewrite Hkeys. split; [|by right].
        by intros [?%elem_of_nil|?].
      * apply Hvals. intros pid m Hg0. done.
Qed.

(** X14. An affordance whose meshes are all in the cache is hydrated from
    the cache alone: the call succeeds whatever the model directories hold,
    and the engine's state is as before. *)
Theorem instantiate_affordance_cached (a : OakInk2__Affordance.t Mesh) σ :
  OakInk2__Affordance.instantiated a = false →
  Forall (λ id, is_Some (obj_cache σ !! id)) (needed_meshes a) →
  ∃ a', instantiate_affordance a σ = Some (a', σ) ∧
        OakInk2__Affordance.instantiated a' = true.
Proof.
  unfold instantiate_affordance, needed_meshes. intros -> Hall. simpl.
  destruct (OakInk2__Affordance.has_model a); simpl.
  - apply Forall_cons in Hall as [[m Hm] _].
    unfold mbind, M_bind, cached_load_obj. rewrite Hm. simpl.
    eexists. split; [reflexivity | done].
  - destruct (load_part_meshes_cached _ [] σ Hall) as [[parts σ'] Hl].
    pose proof Hl as Hl'.
    apply load_part_meshes_spec in Hl' as (_ & _ & _ & Hsame).
    specialize (Hsame Hall). subst σ'.
    unfold mbind, M_bind at 1. unfold mbind, M_bind at 1. rewrite Hl. simpl.
    eexists. split; [reflexivity | done].
Qed.

End AffordanceFacts.

(** ** Hydrating a complex task *)

Section StringFacts.

Lemma substring_all (s : string) : String.substring 0 (String.length s) s = s.
Proof. induction s as [|c s IH]; simpl; [done | by rewrite IH]. Qed.

Lemma prefix_strip_prefix (p s : string) :
  String.prefix p s = true → (p +:+ strip_prefix p s)%string = s.
Proof.
  unfold strip_prefix. revert s. induction p as [|a p IH]; intros s; simpl.
  - intros _. rewrite Nat.sub_0_r. apply substring_all.
  - destruct s as [|b s]; simpl; [done|].
    destruct (Ascii.ascii_dec a b) as [->|]; [|done].
    intros Hp. specialize (IH s Hp).
    change (String b p +:+ ?x)%string with (String b (p +:+ x)%string).
    by rewrite IH.
Qed.

Lemma strip_prefix_app (p k : string) :
  String.prefix p (p +:+ k)%string = true ∧
  strip_prefix p (p +:+ k)%string = k.
Proof.
  unfold strip_prefix. induction p as [|a p [IH1 IH2]].
  - change (EmptyString +:+ k)%string with k. split; [by destruct k|].
    simpl. rewrite Nat.sub_0_r. apply substring_all.
  - change (String a p +:+ k)%string with (String a (p +:+ k)%string).
    simpl. by destruct (Ascii.ascii_dec a a).
Qed.

Lemma append_assoc' (s1 s2 s3 : string) :
  ((s1 +:+ s2) +:+ s3)%string = (s1 +:+ s2 +:+ s3)%string.
Proof.
  induction s1 as [|a s1 IH]; [done|].
  change (String a ((s1 +:+ s2) +:+ s3) = String a (s1 +:+ s2 +:+ s3))%string.
  by rewrite IH.
Qed.

End StringFacts.

Section HydrateComplexFacts.
Context `{Numeric} `{PyLib} `{ProgramLib} `{!OakInk2__Dataset}.
Implicit Types (σ : State) (l : nat) (c : OakInk2__ComplexTask.t).

Lemma foldl_min_spec (l : list Z) : ∀ x,
  foldl Z.min x l ∈ x :: l ∧ ∀ y, y ∈ x :: l → foldl Z.min x l ≤ y.
Proof.
  induction l as [|a l IH]; intros x; simpl.
  - split; [left|]. intros y ->%list_elem_of_singleton. lia.
  - destruct (IH (Z.min x a)) as [Hin Hle]. split.
    + apply elem_of_cons in Hin as [->|Hin]; [|by right; right].
      destruct (Z.min_spec x a) as [[_ ->]|[_ ->]]; [left | right; left].
    + assert (Hm : foldl Z.min (Z.min x a) l ≤ Z.min x a) by (apply Hle; left).
      intros y [->|[->|Hy]%elem_of_cons]%elem_of_cons; [lia | lia |].
      apply Hle. by right.
Qed.

Lemma foldl_max_spec (l : list Z) : ∀ x,
  foldl Z.max x l ∈ x :: l ∧ ∀ y, y ∈ x :: l → y ≤ foldl Z.max x l.
Proof.
  induction l as [|a l IH]; intros x; simpl.
  - split; [left|]. intros y ->%list_elem_of_singleton. lia.
  - destruct (IH (Z.max x a)) as [Hin Hle]. split.
    + apply elem_of_cons in Hin as [->|Hin]; [|by right; right].
      destruct (Z.max_spec x a) as [[_ ->]|[_ ->]]; [right; left | left].
    + assert (Hm : Z.max x a ≤ foldl Z.max (Z.max x a) l) by (apply Hle; left).
      intros y [->|[->|Hy]%elem_of_cons]%elem_of_cons; [lia | lia |].
      apply Hle. by right.
Qed.

Lemma py_min_max_spec (l : list Z) lo hi :
  py_min l = Some lo → py_max l = Some hi →
  lo ∈ l ∧ hi ∈ l ∧ ∀ x, x ∈ l → lo ≤ x ≤ hi.
Proof.
  destruct l as [|x l]; simpl; [done|]. intros [= <-] [= <-].
  destruct (foldl_min_spec l x) as [? Hmin].
  destruct (foldl_max_spec l x) as [? Hmax].
  split_and!; [done..|]. intros y Hy. split; auto.
Qed.

Lemma hydrate_complex_task_inv c c' :
  hydrate_complex_task c = Some c' →
  ∃ anno_data lo hi smplx lh rh obj_transf,
    anno_pkl (OakInk2__ComplexTask.seq_token c) = Some anno_data ∧
    py_min (mocap_frame_id_list anno_data) = Some lo ∧
    py_max (mocap_frame_id_list anno_data) = Some hi ∧
    _collect_smplx anno_data (mocap_frame_id_list anno_data) = Some smplx ∧
    _collect_mano anno_data "lh" (mocap_frame_id_list anno_data) = Some lh ∧
    _collect_mano anno_data "rh" (mocap_frame_id_list anno_data) = Some rh ∧
    _collect_obj_transf (anno_obj_transf anno_data) (anno_obj_list anno_data)
      (mocap_frame_id_list anno_data) [] = Some obj_transf ∧
    OakInk2__ComplexTask.frame_range c' = Some (lo, hi) ∧
    OakInk2__ComplexTask.scene_obj_list c' = Some (anno_obj_list anno_data) ∧
    OakInk2__ComplexTask.smplx_param c' = Some smplx ∧
    OakInk2__ComplexTask.lh_param c' = Some lh ∧
    OakInk2__ComplexTask.rh_param c' = Some rh ∧
    OakInk2__ComplexTask.obj_transf c' = Some obj_transf.
Proof.
  unfold hydrate_complex_task. intros Hh.
  apply bind_Some in Hh as (anno & Hanno & Hh).
  apply bind_Some in Hh as (lo & Hlo & Hh).
  apply bind_Some in Hh as (hi & Hhi & Hh).
  apply bind_Some in Hh as (smplx & Hsmplx & Hh).
  apply bind_Some in Hh as (lh & Hlh & Hh).
  apply bind_Some in Hh as (rh & Hrh & Hh).
  apply bind_Some in Hh as (ot & Hot & Hh).
  simplify_eq. simpl. exists anno, lo, hi, smplx, lh, rh, ot.
  split_and!; done.
Qed.

(** What [instantiate_complex_task] does to a task that is not hydrated. *)
Lemma instantiate_complex_task_hydrates l σ l' σ' c :
  complex_tasks σ !! l = Some c →
  OakInk2__ComplexTask.instantiated c = false →
  instantiate_complex_task l σ = Some (l', σ') →
  ∃ c', hydrate_complex_task c = Some c' ∧
        complex_tasks σ' = <[l := c']> (complex_tasks σ) ∧
        obj_cache σ' = obj_cache σ ∧ l' = l.
Proof.
  intros Hc Hinst (-> & Hcache & c0 & Hc0 & Hcase)%instantiate_complex_task_inv.
  assert (c0 = c) as -> by congruence.
  destruct Hcase as [[? _]|(_ & c' & ? & ?)]; [congruence|].
  by exists c'.
Qed.

(** X15. Hydrating a complex task sets its frame range to the least and the
    greatest recorded frame id, both of them recorded frames (the range is
    closed at both ends), and its scene objects to the annotation's object
    list. *)
Theorem instantiate_complex_task_frame_range l σ l' σ' c :
  complex_tasks σ !! l = Some c →
  OakInk2__ComplexTask.instantiated c = false →
  instantiate_complex_task l σ = Some (l', σ') →
  ∃ c' anno_data lo hi,
    complex_tasks σ' !! l = Some c' ∧
    anno_pkl (OakInk2__ComplexTask.seq_token c) = Some anno_data ∧
    OakInk2__ComplexTask.frame_range c' = Some (lo, hi) ∧
    lo ∈ mocap_frame_id_list anno_data ∧
    hi ∈ mocap_frame_id_list anno_data ∧
    (∀ fid, fid ∈ mocap_frame_id_list anno_data → lo ≤ fid ≤ hi) ∧
    OakInk2__ComplexTask.scene_obj_list c' = Some (anno_obj_list anno_data).
Proof.
  intros Hc Hinst Hi.
  destruct (instantiate_complex_task_hydrates _ _ _ _ _ Hc Hinst Hi)
    as (c' & Hh & Hct & _ & _).
  apply hydrate_complex_task_inv in Hh
    as (anno & lo & hi & ? & ? & ? & ? & Hanno & Hlo & Hhi & _ & _ & _ & _ &
        Hfr & Hsol & _).
  destruct (py_min_max_spec _ _ _ Hlo Hhi) as (? & ? & ?).
  exists c', anno, lo, hi. rewrite Hct, lookup_insert_eq. split_and!; done.
Qed.

Lemma _collect_obj_transf_spec handle obj_list mocap : ∀ res obj_transf,
  _collect_obj_transf handle obj_list mocap res = Some obj_transf →
  (∀ obj, obj ∈ Dict.keys obj_transf ↔ obj ∈ Dict.keys res ∨ obj ∈ obj_list) ∧
  (∀ obj arr, Dict.get obj_transf obj = Some arr →
     Dict.get res obj = Some arr ∨
     ∃ curr, Dict.get handle obj = Some curr ∧
             Forall2 (λ fid x, Dict.get curr fid = Some x) mocap arr).
Proof.
  induction obj_list as [|o obj_list IH]; intros res ot Hc; simpl in Hc.
  - simplify_eq. split; [|by left]. intros obj. split; [by left|].
    by intros [?|?%elem_of_nil].
  - apply bind_Some in Hc as (curr & Hcurr & Hc).
    apply bind_Some in Hc as (rows & Hrows & Hc).
    case_decide; [done|]. destruct (IH _ _ Hc) as [Hkeys Hvals]. split.
    + intros obj. rewrite Hkeys, dict_keys_set, elem_of_cons.
      case_decide as Hin.
      * split; [tauto|]. intros [?|[->|?]]; tauto.
      * rewrite elem_of_app, list_elem_of_singleton. tauto.
    + intros obj arr [Hg|?]%Hvals; [|by right].
      rewrite dict_get_set in Hg. case_decide as Heq; [|by left].
      simplify_eq. right. exists curr. split; [done|]. by apply mapM_Some.
Qed.

(** X16. After hydration the complex task has a transform array for exactly
    the scene objects of the annotation, and each array holds the object's
    transforms at the recorded frames, one per frame and in the order of the
    frame list. *)
Theorem instantiate_complex_task_obj_transf l σ l' σ' c :
  complex_tasks σ !! l = Some c →
  OakInk2__ComplexTask.instantiated c = false →
  instantiate_complex_task l σ = Some (l', σ') →
  ∃ c' anno_data obj_transf,
    complex_tasks σ' !! l = Some c' ∧
    anno_pkl (OakInk2__ComplexTask.seq_token c) = Some anno_data ∧
    OakInk2__ComplexTask.obj_transf c' = Some obj_transf ∧
    (∀ obj, obj ∈ Dict.keys obj_transf ↔ obj ∈ anno_obj_list anno_data) ∧
    (∀ obj arr, Dict.get obj_transf obj = Some arr →
       ∃ curr, Dict.get (anno_obj_transf anno_data) obj = Some curr ∧
               Forall2 (λ fid x, Dict.get curr fid = Some x)
                       (mocap_frame_id_list anno_data) arr).
Proof.
  intros Hc Hinst Hi.
  destruct (instantiate_complex_task_hydrates _ _ _ _ _ Hc Hinst Hi)
    as (c' & Hh & Hct & _ & _).
  apply hydrate_complex_task_inv in Hh
    as (anno & lo & hi & ? & ? & ? & ot & Hanno & _ & _ & _ & _ & _ & Hot &
        _ & _ & _ & _ & _ & Hot').
  apply _collect_obj_transf_spec in Hot as [Hkeys Hvals].
  exists c', anno, ot. rewrite Hct, lookup_insert_eq. split_and!; try done.
  - intros obj. rewrite Hkeys. split; [|by right].
    by intros [?%elem_of_nil|?].
  - intros obj arr [?|?]%Hvals; done.
Qed.

Lemma stack_frames_spec (handle : list (Z * ParamDict)) k mocap : ∀ xs,
  stack_frames handle k mocap = Some xs →
  Forall2 (λ fid x, ∃ frame, Dict.get handle fid = Some frame ∧
                             Dict.get frame k = Some x) mocap xs.
Proof.
  induction mocap as [|fid mocap IH]; intros xs Hs; simpl in Hs.
  - simplify_eq. constructor.
  - apply bind_Some in Hs as (frame & Hf & Hs).
    apply bind_Some in Hs as (x & Hx & Hs).
    apply bind_Some in Hs as (rest & Hrest & Hs). simplify_eq.
    constructor; [by exists frame | by apply IH].
Qed.

Lemma collect_params_spec handle keys mocap : ∀ acc res,
  collect_params handle keys mocap acc = Some res →
  (∀ k, k ∈ Dict.keys res ↔ k ∈ Dict.keys acc ∨ k ∈ keys.*1) ∧
  (∀ k t, Dict.get res k = Some t →
     Dict.get acc k = Some t ∨
     ∃ ori_key, (k, ori_key) ∈ keys ∧ stacked handle ori_key mocap t).
Proof.
  induction keys as [|[k0 ori] keys IH]; intros acc res Hc; simpl in Hc.
  - simplify_eq. split; [|by left]. intros k. split; [by left|].
    by intros [?|?%elem_of_nil].
  - apply bind_Some in Hc as (frames & Hframes & Hc).
    case_decide; [done|]. destruct (IH _ _ Hc) as [Hkeys Hvals]. split.
    + intros k. rewrite Hkeys, dict_keys_set, fmap_cons, elem_of_cons. simpl.
      case_decide as Hin.
      * split; [tauto|]. intros [?|[->|?]]; tauto.
      * rewrite elem_of_app, list_elem_of_singleton. tauto.
    + intros k t [Hg|(ori' & Hin & Hst)]%Hvals.
      * rewrite dict_get_set in Hg. case_decide as Heq; [|by left].
        simplify_eq. right. exists ori. split; [left|].
        exists frames. split; [by apply stack_frames_spec | done].
      * right. exists ori'. split; [by right | done].
Qed.

Lemma _collect_smplx_spec anno_data mocap smplx :
  _collect_smplx anno_data mocap = Some smplx →
  ∃ first,
    head (Dict.values (raw_smplx anno_data)) = Some first ∧
    (∀ k, k ∈ Dict.keys smplx ↔ k ∈ Dict.keys first) ∧
    (∀ k t, Dict.get smplx k = Some t →
            stacked (raw_smplx anno_data) k mocap t).
Proof.
  unfold _collect_smplx. intros Hc.
  apply bind_Some in Hc as (first & Hfirst & Hc). exists first.
  apply collect_params_spec in Hc as [Hkeys Hvals]. split_and!; [done|..].
  - intros k. rewrite Hkeys, <-list_fmap_compose, list_fmap_id.
    split; [|by right]. by intros [?%elem_of_nil|?].
  - intros k t [?|(ori & Hin & Hst)]%Hvals; [done|].
    apply list_elem_of_fmap in Hin as (? & ? & _). by simplify_eq.
Qed.

Lemma _collect_mano_spec anno_data hand_side mocap param :
  _collect_mano anno_data hand_side mocap = Some param →
  ∃ first,
    head (Dict.values (raw_mano anno_data)) = Some first ∧
    (∀ k, k ∈ Dict.keys param ↔
          (hand_side +:+ "__" +:+ k)%string ∈ Dict.keys first) ∧
    (∀ k t, Dict.get param k = Some t →
            stacked (raw_mano anno_data) (hand_side +:+ "__" +:+ k)%string
              mocap t).
Proof.
  unfold _collect_mano. intros Hc.
  apply bind_Some in Hc as (first & Hfirst & Hc). exists first.
  apply collect_params_spec in Hc as [Hkeys Hvals].
  assert (Happ : ∀ k, ((hand_side +:+ "__") +:+ k)%string =
                      (hand_side +:+ "__" +:+ k)%string)
    by (intros k; apply append_assoc').
  split_and!; [done|..].
  - intros k. rewrite Hkeys, <-list_fmap_compose, list_elem_of_fmap. split.
    + intros [?%elem_of_nil|(ori & -> & [Hp Hin]%list_elem_of_filter)]; [done|].
      simpl. by rewrite <-Happ, prefix_strip_prefix.
    + intros Hin. right. exists ((hand_side +:+ "__") +:+ k)%string.
      destruct (strip_prefix_app (hand_side +:+ "__")%string k) as [Hp Hs].
      simpl. split; [done|]. apply list_elem_of_filter. by rewrite Happ in *.
  - intros k t [?|(ori & Hin & Hst)]%Hvals; [done|].
    apply list_elem_of_fmap in Hin as (ori' & [= -> ->] & [Hp _]%list_elem_of_filter).
    by rewrite <-Happ, prefix_strip_prefix.
Qed.

(** X17. After hydration the whole-body parameters of a complex task have
    the keys of the first frame of the raw annotation, and each of them
    stacks the values of that key over the recorded frames, in the order of
    the frame list. *)
Theorem instantiate_complex_task_smplx l σ l' σ' c :
  complex_tasks σ !! l = Some c →
  OakInk2__ComplexTask.instantiated c = false →
  instantiate_complex_task l σ = Some (l', σ') →
  ∃ c' anno_data smplx first,
    complex_tasks σ' !! l = Some c' ∧
    anno_pkl (OakInk2__ComplexTask.seq_token c) = Some anno_data ∧
    OakInk2__ComplexTask.smplx_param c' = Some smplx ∧
    head (Dict.values (raw_smplx anno_data)) = Some first ∧
    (∀ k, k ∈ Dict.keys smplx ↔ k ∈ Dict.keys first) ∧
    (∀ k t, Dict.get smplx k = Some t →
            stacked (raw_smplx anno_data) k (mocap_frame_id_list anno_data) t).
Proof.
  intros Hc Hinst Hi.
  destruct (instantiate_complex_task_hydrates _ _ _ _ _ Hc Hinst Hi)
    as (c' & Hh & Hct & _ & _).
  apply hydrate_complex_task_inv in Hh
    as (anno & lo & hi & smplx & ? & ? & ? & Hanno & _ & _ & Hs & _ & _ & _ &
        _ & _ & Hs' & _).
  apply _collect_smplx_spec in Hs as (first & ? & ? & ?).
  exists c', anno, smplx, first. rewrite Hct, lookup_insert_eq.
  split_and!; done.
Qed.

(** X18. After hydration the left-hand parameters of a complex task are
    keyed by the raw hand keys that start with [lh__], with that prefix
    removed, and the right-hand parameters by those that start with [rh__];
    each stacks the values of its raw key over the recorded frames. *)
Theorem instantiate_complex_task_mano l σ l' σ' c :
  complex_tasks σ !! l = Some c →
  OakInk2__ComplexTask.instantiated c = false →
  instantiate_complex_task l σ = Some (l', σ') →
  ∃ c' anno_data lh rh first,
    complex_tasks σ' !! l = Some c' ∧
    anno_pkl (OakInk2__ComplexTask.seq_token c) = Some anno_data ∧
    OakInk2__ComplexTask.lh_param c' = Some lh ∧
    OakInk2__ComplexTask.rh_param c' = Some rh ∧
    head (Dict.values (raw_mano anno_data)) = Some first ∧
    (∀ k, k ∈ Dict.keys lh ↔ ("lh__" +:+ k)%string ∈ Dict.keys first) ∧
    (∀ k, k ∈ Dict.keys rh ↔ ("rh__" +:+ k)%string ∈ Dict.keys first) ∧
    (∀ k t, Dict.get lh k = Some t →
            stacked (raw_mano anno_data) ("lh__" +:+ k)%string
              (mocap_frame_id_list anno_data) t) ∧
    (∀ k t, Dict.get rh k = Some t →
            stacked (raw_mano anno_data) ("rh__" +:+ k)%string
              (mocap_frame_id_list anno_data) t).
Proof.
  intros Hc Hinst Hi.
  destruct (instantiate_complex_task_hydrates _ _ _ _ _ Hc Hinst Hi)
    as (c' & Hh & Hct & _ & _).
  apply hydrate_complex_task_inv in Hh
    as (anno & lo & hi & ? & lh & rh & ? & Hanno & _ & _ & _ & Hlh & Hrh & _ &
        _ & _ & _ & Hlh' & Hrh' & _).
  apply _collect_mano_spec in Hlh as (first & Hfirst & Hlk & Hlv).
  apply _collect_mano_spec in Hrh as (first' & Hfirst' & Hrk & Hrv).
  assert (first' = first) as -> by congruence.
  exists c', anno, lh, rh, first. rewrite Hct, lookup_insert_eq.
  split_and!; done.
Qed.

(** The record built for eager loading differs from the one built for lazy
    loading in the two cached fields only, which hydration overwrites. *)
Lemma build_complex_task_eager seq_key c0 :
  build_complex_task seq_key false = Some c0 →
  ∃ c1, build_complex_task seq_key true = Some c1 ∧
        OakInk2__ComplexTask.instantiated c1 = false ∧
        hydrate_complex_task c1 = hydrate_complex_task c0.
Proof.
  unfold build_complex_task. intros Hb.
  apply bind_Some in Hb as (raw & H1' & Hb). rewrite H1'. simpl.
  apply bind_Some in Hb as (program_info & H2' & Hb). rewrite H2'. simpl.
  apply bind_Some in Hb as (full & H3' & Hb). rewrite H3'. simpl.
  apply bind_Some in Hb as (rev & H4' & Hb). rewrite H4'. simpl.
  apply bind_Some in Hb as (g & H5' & Hb). rewrite H5'. simpl.
  apply bind_Some in Hb as (pdg & H6' & Hb). rewrite H6'. simpl.
  apply bind_Some in Hb as (tt & H7' & Hb). rewrite H7'. simpl.
  apply bind_Some in Hb as (fr & _ & Hb).
  simplify_eq. eexists. split_and!; [done..|].
  unfold hydrate_complex_task. simpl. done.
Qed.

(** X19. Loading a complex task lazily and hydrating it afterwards gives
    what loading it eagerly gives: the same reference and the same state. *)
Theorem load_complex_task_lazy_then_instantiate seq_key σ l σ0 l' σ1 :
  load_complex_task seq_key (Some false) σ = Some (l, σ0) →
  instantiate_complex_task l σ0 = Some (l', σ1) →
  l' = l ∧ load_complex_task seq_key (Some true) σ = Some (l, σ1).
Proof.
  intros Hl Hi.
  apply load_complex_task_inv in Hl as Hl'.
  destruct Hl' as (_ & _ & c0 & c & Hb & _ & Hc). simpl in Hb, Hc. subst c.
  destruct (build_complex_task_eager _ _ Hb) as (c1 & Hb1 & Hinst1 & Hh).
  destruct (build_complex_task_fresh _ _ _ Hb) as [Hinst0 _].
  unfold load_complex_task in Hl. simpl in Hl. rewrite Hb in Hl.
  unfold mbind, M_bind, lift, alloc in Hl. simpl in Hl.
  injection Hl as <- <-.
  unfold instantiate_complex_task, mbind, M_bind, read, write, lift in Hi.
  simpl in Hi. rewrite lookup_insert_eq, Hinst0 in Hi. simpl in Hi.
  destruct (hydrate_complex_task c0) as [c'|] eqn:Hh0; [|done].
  simpl in Hi. injection Hi as <- <-. split; [done|].
  unfold load_complex_task. simpl. rewrite Hb1.
  unfold mbind, M_bind, lift, alloc. simpl.
  unfold instantiate_complex_task, mbind, M_bind, read, write, lift.
  simpl. rewrite lookup_insert_eq, Hinst1. simpl. rewrite Hh. simpl.
  by rewrite !insert_insert_eq.
Qed.

(** X20. When the caller passes a complex task that is already hydrated,
    [instantiate_primitive_task] slices that very object, whatever sequence
    it belongs to, and neither loads nor changes anything: the state after
    the call is the state before it. *)
Theorem instantiate_primitive_task_uses_hydrated p l c σ :
  complex_tasks σ !! l = Some c →
  OakInk2__ComplexTask.instantiated c = true →
  OakInk2__PrimitiveTask.instantiated p = false →
  instantiate_primitive_task p (Some l) σ =
  (p' ← hydrate_primitive_task p c; Some (p', σ)).
Proof.
  intros Hc Hci Hpi.
  unfold instantiate_primitive_task, resolve_complex_task.
  rewrite Hpi. simpl. unfold mbind, M_bind, read, mret, M_ret, lift.
  rewrite Hc. simpl. rewrite Hci. simpl. rewrite Hc.
  by destruct (hydrate_primitive_task p c).
Qed.

Lemma slice_obj_transf_get task_obj_list parent frame_list :
  ∀ (acc0 obj_transf : list (string * list Mat)),
  slice_obj_transf task_obj_list parent frame_list acc0 = Some obj_transf →
  ∀ obj rows, Dict.get obj_transf obj = Some rows →
    Dict.get acc0 obj = Some rows ∨
    ∃ arr, Dict.get parent obj = Some arr ∧
           fancy_index arr frame_list = Some rows.
Proof.
  induction task_obj_list as [|o rest IH]; intros acc0 ot Hs obj rows Hg;
    simpl in Hs.
  - simplify_eq. by left.
  - destruct (Dict.get parent o) as [arr|] eqn:Harr; [|by eapply IH].
    apply bind_Some in Hs as (rows0 & Hrows0 & Hs).
    destruct (IH _ _ Hs _ _ Hg) as [Hg'|?]; [|by right].
    rewrite dict_get_set in Hg'. case_decide; [|by left].
    simplify_eq. right. by exists arr.
Qed.

Lemma fancy_index_seqZ {A : Type} (arr : list A) (n : nat) : ∀ a rows,
  0 ≤ a →
  fancy_index arr (seqZ a (Z.of_nat n)) = Some rows →
  rows = take n (drop (Z.to_nat a) arr) ∧
  ((0 < n)%nat → (Z.to_nat a + n ≤ length arr)%nat).
Proof.
  unfold fancy_index.
  induction n as [|n IH]; intros a rows Ha Hm.
  - simpl in Hm. injection Hm as <-. split; [done | lia].
  - rewrite Nat2Z.inj_succ, seqZ_cons in Hm by lia.
    replace (Z.pred (Z.succ (Z.of_nat n))) with (Z.of_nat n) in Hm by lia.
    simpl in Hm. apply bind_Some in Hm as (x & Hx & Hm).
    apply bind_Some in Hm as (rows' & Hrows' & Hm). injection Hm as <-.
    unfold py_index in Hx. rewrite decide_True in Hx by done.
    destruct (IH (Z.succ a) rows' ltac:(lia) Hrows') as [-> Hlen].
    replace (Z.to_nat (Z.succ a)) with (S (Z.to_nat a)) by lia.
    split.
    + by rewrite (drop_S _ _ _ Hx).
    + intros _. apply lookup_lt_Some in Hx.
      destruct n; [lia|]. specialize (Hlen ltac:(lia)). lia.
Qed.

Lemma fancy_index_py_range {A : Type} (arr : list A) a b rows :
  0 ≤ a →
  fancy_index arr (py_range a b) = Some rows →
  rows = take (Z.to_nat (b - a)) (drop (Z.to_nat a) arr) ∧
  (a < b → b ≤ Z.of_nat (length arr)).
Proof.
  intros Ha. unfold py_range. destruct (decide (a < b)) as [Hab|Hab].
  - rewrite <-(Z2Nat.id (b - a)) at 1 by lia.
    intros [-> Hlen]%fancy_index_seqZ; [|done]. split; [done|]. lia.
  - replace (seqZ a (b - a)) with (@nil Z).
    + intros [= <-]. replace (Z.to_nat (b - a)) with 0%nat by lia. done.
    + destruct (b - a) eqn:E; try done. lia.
Qed.

(** X21. The transform array a hydrated primitive task has for an object is
    the complex task's array for that object at the positions [a, b) of the
    task's frame range: frame ids are used as row positions, and the call
    fails rather than return fewer rows when the array ends before [b]. *)
Theorem instantiate_primitive_task_obj_rows p c_arg σ p' σ' a b :
  OakInk2__PrimitiveTask.instantiated p = false →
  OakInk2__PrimitiveTask.frame_range p = (a, b) →
  0 ≤ a →
  instantiate_primitive_task p c_arg σ = Some (p', σ') →
  ∃ l c parent_obj_transf obj_transf,
    resolve_complex_task (OakInk2__PrimitiveTask.seq_key p) c_arg σ = Some (l, σ') ∧
    complex_tasks σ' !! l = Some c ∧
    OakInk2__ComplexTask.obj_transf c = Some parent_obj_transf ∧
    OakInk2__PrimitiveTask.obj_transf p' = Some obj_transf ∧
    ∀ obj rows, Dict.get obj_transf obj = Some rows →
      ∃ arr, Dict.get parent_obj_transf obj = Some arr ∧
             rows = take (Z.to_nat (b - a)) (drop (Z.to_nat a) arr) ∧
             (a < b → b ≤ Z.of_nat (length arr)).
Proof.
  intros Hinst Hfr Ha Hi.
  destruct (instantiate_primitive_task_inv _ _ _ _ _ Hinst Hi)
    as (l & c & Hres & Hc & Hh).
  apply hydrate_primitive_task_inv in Hh
    as (? & ? & ? & ? & ? & ? & parent & ot & _ & _ & _ & _ & Hparent & Hs &
        _ & _ & _ & _ & Hot & _).
  rewrite Hfr in Hs. simpl in Hs.
  exists l, c, parent, ot. split_and!; [done..|].
  intros obj rows Hg.
  destruct (slice_obj_transf_get _ _ _ _ _ Hs _ _ Hg) as [?|(arr & ? & Hf)];
    [done|].
  exists arr. split; [done|]. by apply fancy_index_py_range.
Qed.

End HydrateComplexFacts.

(** ** Loading primitive tasks *)

Section PrimitiveLoaderFacts.
Context `{Numeric} `{PyLib} `{ProgramLib} `{!OakInk2__Dataset}.
Context `{!FrameRangeDefLib} `{!DescInfoFiles}.
Implicit Types (σ : State) (c : OakInk2__ComplexTask.t).
Implicit Types (p : OakInk2__PrimitiveTask.t).
Implicit Types (program_info : list (string * ProgramItem)).
Implicit Types (desc_info : list (string * list (string * string))).

Lemma hydrate_complex_task_static c c' :
  hydrate_complex_task c = Some c' →
  OakInk2__ComplexTask.seq_token c' = OakInk2__ComplexTask.seq_token c ∧
  OakInk2__ComplexTask.task_target c' = OakInk2__ComplexTask.task_target c.
Proof.
  unfold hydrate_complex_task. intros Hh.
  repeat (apply bind_Some in Hh as (? & _ & Hh)). by simplify_eq.
Qed.

Lemma hydrate_primitive_task_seq_key p c p' :
  hydrate_primitive_task p c = Some p' →
  OakInk2__PrimitiveTask.seq_key p' = OakInk2__PrimitiveTask.seq_key p.
Proof.
  unfold hydrate_primitive_task. intros Hh.
  apply bind_Some in Hh as (? & _ & Hh).
  apply bind_Some in Hh as ([? ?] & _ & Hh).
  apply bind_Some in Hh as (? & _ & Hh).
  apply bind_Some in Hh as ([? ?] & _ & Hh).
  apply bind_Some in Hh as (? & _ & Hh).
  apply bind_Some in Hh as ([? ?] & _ & Hh).
  apply bind_Some in Hh as (? & _ & Hh).
  apply bind_Some in Hh as (? & _ & Hh).
  by simplify_eq.
Qed.

Lemma _load_primitive_task_from_def_inv seq_key d ri program_info di p :
  _load_primitive_task_from_def seq_key d ri (Some program_info) di = Some p →
  ∃ item,
    Dict.get program_info (py_str d) = Some item ∧
    OakInk2__PrimitiveTask.instantiated p = false ∧
    OakInk2__PrimitiveTask.seq_key p = seq_key ∧
    OakInk2__PrimitiveTask.seq_token p = replace_slash seq_key ∧
    OakInk2__PrimitiveTask.primitive_task p = primitive item ∧
    OakInk2__PrimitiveTask.transient p = is_transient (primitive item) ∧
    OakInk2__PrimitiveTask.interaction_mode p = interaction_mode item ∧
    OakInk2__PrimitiveTask.task_obj_list p = obj_list item ∧
    OakInk2__PrimitiveTask.lh_obj_list p = obj_list_lh item ∧
    OakInk2__PrimitiveTask.rh_obj_list p = obj_list_rh item ∧
    frame_range_def_enclose d = Some (OakInk2__PrimitiveTask.frame_range p) ∧
    frame_range_def_item d 0 = Some (OakInk2__PrimitiveTask.frame_range_lh p) ∧
    frame_range_def_item d 1 = Some (OakInk2__PrimitiveTask.frame_range_rh p).
Proof.
  unfold _load_primitive_task_from_def. simpl. intros Hl.
  apply bind_Some in Hl as (desc_info & _ & Hl).
  apply bind_Some in Hl as (item & Hitem & Hl).
  apply bind_Some in Hl as (fr & Hfr & Hl).
  apply bind_Some in Hl as (lh & Hlh & Hl).
  apply bind_Some in Hl as (rh & Hrh & Hl).
  apply bind_Some in Hl as (desc_item & _ & Hl).
  apply bind_Some in Hl as (task_desc & _ & Hl).
  apply bind_Some in Hl as (hand & _ & Hl).
  simplify_eq. exists item. simpl. split_and!; done.
Qed.

Lemma _load_primitive_task_from_identifier_inv seq_key ident ri program_info
    di p :
  _load_primitive_task_from_identifier seq_key ident ri (Some program_info) di
    = Some p →
  ∃ full rev d,
    full_task_namemap program_info
      (suffix_affordance_primitive_segment program_info)
      (suffix_transient_primitive_segment program_info) = Some full ∧
    rev_full_task_namemap full [] = Some rev ∧
    Dict.get rev ident = Some d ∧
    _load_primitive_task_from_def seq_key d
      (Some (default return_instantiated ri)) (Some program_info) di = Some p.
Proof.
  unfold _load_primitive_task_from_identifier. simpl. intros Hl.
  apply bind_Some in Hl as (full & Hfull & Hl).
  apply bind_Some in Hl as (rev & Hrev & Hl).
  apply bind_Some in Hl as (d & Hd & Hl).
  by exists full, rev, d.
Qed.

Lemma rev_full_task_namemap_get full : ∀ (acc0 rev : list (string * PyVal)) v d,
  rev_full_task_namemap full acc0 = Some rev →
  Dict.get rev v = Some d →
  Dict.get acc0 v = Some d ∨
  ∃ k, (k, v) ∈ full ∧ literal_eval k = Some d.
Proof.
  induction full as [|[k0 v0] full IH]; intros acc0 rev v d Hr Hg;
    simpl in Hr.
  - simplify_eq. by left.
  - apply bind_Some in Hr as (d0 & Hd0 & Hr).
    destruct (IH _ _ _ _ Hr Hg) as [Hg'|(k & Hin & Hk)].
    + rewrite dict_get_set in Hg'. case_decide; [|by left].
      simplify_eq. right. exists k0. split; [left | done].
    + right. exists k. split; [by right | done].
Qed.

Lemma instantiate_primitive_task_with_hydrated p l c σ :
  complex_tasks σ !! l = Some c →
  OakInk2__ComplexTask.instantiated c = true →
  OakInk2__PrimitiveTask.instantiated p = false →
  instantiate_primitive_task p (Some l) σ =
  (p' ← hydrate_primitive_task p c; Some (p', σ)).
Proof.
  intros Hc Hci Hpi.
  unfold instantiate_primitive_task, resolve_complex_task.
  rewrite Hpi. simpl. unfold mbind, M_bind, read, mret, M_ret, lift.
  rewrite Hc. simpl. rewrite Hci. simpl. rewrite Hc.
  by destruct (hydrate_primitive_task p c).
Qed.

(** The loop leaves the state alone once the complex task is hydrated (or
    nothing is to be hydrated), and loads one task per identifier. *)
Lemma load_primitive_task_loop_spec l (ri : bool) program_info desc_info c σ :
  complex_tasks σ !! l = Some c →
  (ri = true → OakInk2__ComplexTask.instantiated c = true) →
  ∀ hl res σ',
    load_primitive_task_loop l ri program_info desc_info hl σ = Some (res, σ') →
    σ' = σ ∧
    Forall2 (λ ident p, ∃ p0,
               _load_primitive_task_from_identifier
                 (OakInk2__ComplexTask.seq_key c) ident (Some ri)
                 (Some program_info) (Some desc_info) = Some p0 ∧
               if ri then hydrate_primitive_task p0 c = Some p else p = p0)
            hl res.
Proof.
  intros Hc Hri. induction hl as [|ident hl IH]; intros res σ' Hl;
    simpl in Hl.
  - apply M_ret_Some in Hl as [= -> ->]. split; [done | constructor].
  - apply M_bind_Some in Hl as (c0 & σ0 & Hread & Hl).
    apply read_Some in Hread as (c1 & Hc1 & [= -> ->]).
    assert (c1 = c) as -> by congruence.
    apply M_bind_Some in Hl as (p0 & σ1 & Hp0 & Hl).
    apply lift_Some in Hp0 as (p0' & Hp0 & [= -> ->]).
    apply M_bind_Some in Hl as (p1 & σ2 & Hp1 & Hl).
    apply M_bind_Some in Hl as (rest & σ3 & Hrest & Hl).
    apply M_ret_Some in Hl as [= -> ->].
    assert (σ2 = σ ∧ if ri then hydrate_primitive_task p0' c = Some p1
                     else p1 = p0') as [-> Hp].
    { destruct ri.
      - apply _load_primitive_task_from_identifier_inv in Hp0
          as (? & ? & ? & _ & _ & _ & Hdef).
        apply _load_primitive_task_from_def_inv in Hdef as (? & _ & Hinst & _).
        rewrite (instantiate_primitive_task_with_hydrated _ _ _ _ Hc
                   (Hri eq_refl) Hinst) in Hp1.
        apply bind_Some in Hp1 as (p' & Hp' & [= <- <-]). done.
      - by apply M_ret_Some in Hp1 as [= -> ->]. }
    destruct (IH _ _ Hrest) as [-> HF]. split; [done|].
    constructor; [by exists p0' | done].
Qed.

Lemma load_primitive_task_inv l c ident ri' σ r σ' :
  complex_tasks σ !! l = Some c →
  load_primitive_task l ident ri' σ = Some (r, σ') →
  let ri := default return_instantiated ri' in
  ∃ c' raw_program_info program_info raw_desc_info desc_info,
    complex_tasks σ' !! l = Some c' ∧
    (if ri && negb (OakInk2__ComplexTask.instantiated c)
     then hydrate_complex_task c = Some c' ∧
          complex_tasks σ' = <[l := c']> (complex_tasks σ) ∧
          obj_cache σ' = obj_cache σ
     else c' = c ∧ σ' = σ) ∧
    program_info_json (OakInk2__ComplexTask.seq_token c) = Some raw_program_info ∧
    load_program_info raw_program_info = Some program_info ∧
    desc_info_json (OakInk2__ComplexTask.seq_token c) = Some raw_desc_info ∧
    load_desc_info raw_desc_info = Some desc_info ∧
    Forall2 (λ ident p, ∃ p0,
               _load_primitive_task_from_identifier
                 (OakInk2__ComplexTask.seq_key c) ident (Some ri)
                 (Some program_info) (Some desc_info) = Some p0 ∧
               if ri then hydrate_primitive_task p0 c' = Some p else p = p0)
            (handle_list c ident) (loaded_tasks r) ∧
    match ident with
    | IdentStr _ => ∃ p, r = inl p
    | _ => ∃ res, r = inr res
    end.
Proof.
  intros Hc Hl ri. unfold load_primitive_task in Hl. fold ri in Hl.
  apply M_bind_Some in Hl as (c0 & σ0 & Hread & Hl).
  apply read_Some in Hread as (c1 & Hc1 & [= -> ->]).
  assert (c1 = c) as -> by congruence.
  apply M_bind_Some in Hl as (l1 & σ1 & Hinst & Hl).
  apply M_bind_Some in Hl as (c' & σ1' & Hread & Hl).
  apply read_Some in Hread as (c1 & Hc' & [= -> ->]).
  apply M_bind_Some in Hl as (pi0 & σ2 & Hpi & Hl).
  apply lift_Some in Hpi as (program_info & Hpi & [= -> ->]).
  apply bind_Some in Hpi as (raw_pi & Hraw_pi & Hpi).
  apply M_bind_Some in Hl as (di0 & σ3 & Hdi & Hl).
  apply lift_Some in Hdi as (desc_info & Hdi & [= -> ->]).
  apply bind_Some in Hdi as (raw_di & Hraw_di & Hdi).
  apply M_bind_Some in Hl as (res & σ4 & Hloop & Hl).
  assert (Hstate :
    if ri && negb (OakInk2__ComplexTask.instantiated c)
    then hydrate_complex_task c = Some c1 ∧
         complex_tasks σ1 = <[l := c1]> (complex_tasks σ) ∧
         obj_cache σ1 = obj_cache σ
    else c1 = c ∧ σ1 = σ).
  { destruct (ri && negb (OakInk2__ComplexTask.instantiated c)) eqn:Hcond.
    - apply andb_true_iff in Hcond as [_ Hni%negb_true_iff].
      destruct (instantiate_complex_task_hydrates _ _ _ _ _ Hc Hni Hinst)
        as (c2 & Hh & Hct & Hcache & _).
      rewrite Hct, lookup_insert_eq in Hc'. by simplify_eq.
    - apply M_ret_Some in Hinst as [= -> ->]. split; congruence. }
  assert (Hkeep :
    OakInk2__ComplexTask.seq_key c1 = OakInk2__ComplexTask.seq_key c ∧
    OakInk2__ComplexTask.seq_token c1 = OakInk2__ComplexTask.seq_token c ∧
    OakInk2__ComplexTask.exec_path c1 = OakInk2__ComplexTask.exec_path c ∧
    (ri = true → OakInk2__ComplexTask.instantiated c1 = true)).
  { destruct (ri && negb (OakInk2__ComplexTask.instantiated c)) eqn:Hcond.
    - destruct Hstate as (Hh & _ & _).
      destruct (hydrate_complex_task_instantiated _ _ Hh) as (? & ? & _ & ?).
      destruct (hydrate_complex_task_static _ _ Hh) as [? _]. done.
    - destruct Hstate as [-> _]. split_and!; [done..|]. intros ->.
      simpl in Hcond. by apply negb_false_iff in Hcond. }
  destruct Hkeep as (Hkey & Htok & Hpath & Hri).
  destruct (load_primitive_task_loop_spec _ _ _ _ _ _ Hc' Hri _ _ _ Hloop)
    as [-> HF].
  rewrite Hkey in HF. rewrite Htok in Hraw_pi, Hraw_di.
  assert (Hhl : handle_list c1 ident = handle_list c ident)
    by (destruct ident; simpl; congruence).
  rewrite Hhl in HF.
  exists c1, raw_pi, program_info, raw_di, desc_info.
  destruct ident as [|s|ids]; simpl in Hl.
  - apply M_ret_Some in Hl as [= -> ->]. split_and!; eauto.
  - apply M_bind_Some in Hl as (p & σ5 & Hhead & Hl).
    apply lift_Some in Hhead as (p' & Hhead & [= -> ->]).
    apply M_ret_Some in Hl as [= -> ->]. simpl in HF.
    apply Forall2_cons_inv_l in HF as (p0 & rest & Hp0 & ->%Forall2_nil_inv_l & ->).
    simpl in Hhead. simplify_eq. split_and!; eauto.
    simpl. by repeat constructor.
  - apply M_ret_Some in Hl as [= -> ->]. split_and!; eauto.
Qed.

(** X22. [load_primitive_task] creates no complex task and loads no mesh.
    Asked for hydrated tasks, it hydrates the caller's complex task in place
    when that is not hydrated yet; in every other case the state after the
    call is the state before it. *)
Theorem load_primitive_task_in_place l c ident ri σ r σ' :
  complex_tasks σ !! l = Some c →
  load_primitive_task l ident ri σ = Some (r, σ') →
  dom (complex_tasks σ') = dom (complex_tasks σ) ∧
  obj_cache σ' = obj_cache σ ∧
  (∀ l0, l0 ≠ l → complex_tasks σ' !! l0 = complex_tasks σ !! l0) ∧
  (default return_instantiated ri = false ∨
   OakInk2__ComplexTask.instantiated c = true → σ' = σ) ∧
  (default return_instantiated ri = true →
   OakInk2__ComplexTask.instantiated c = false →
   ∃ c', hydrate_complex_task c = Some c' ∧
         complex_tasks σ' !! l = Some c' ∧
         OakInk2__ComplexTask.instantiated c' = true).
Proof.
  intros Hc Hl.
  destruct (load_primitive_task_inv _ _ _ _ _ _ _ Hc Hl)
    as (c' & _ & _ & _ & _ & Hc' & Hstate & _).
  destruct (default return_instantiated ri) eqn:Hri;
    destruct (OakInk2__ComplexTask.instantiated c) eqn:Hinst; simpl in Hstate.
  - destruct Hstate as [-> ->]. split_and!; try done.
  - destruct Hstate as (Hh & Hct & Hcache). split_and!; try done.
    + rewrite Hct. by apply dom_insert_lookup_L.
    + intros l0 Hne. by rewrite Hct, lookup_insert_ne.
    + by intros [?|?].
    + intros _ _. exists c'. split_and!; [done..|].
      by destruct (hydrate_complex_task_instantiated _ _ Hh).
  - destruct Hstate as [-> ->]. split_and!; try done.
  - destruct Hstate as [-> ->]. split_and!; try done.
Qed.

(** X23. [load_primitive_task] returns one task per requested identifier, in
    the order requested (the whole execution path when no identifier is
    given), a single task rather than a list exactly when one identifier is
    given as a string.  Each task is the one
    [_load_primitive_task_from_identifier] builds from the sequence's
    program and description files, and a hydrated one is sliced from the
    caller's own complex task. *)
Theorem load_primitive_task_batch l c ident ri σ r σ' :
  complex_tasks σ !! l = Some c →
  load_primitive_task l ident ri σ = Some (r, σ') →
  ∃ c' raw_program_info program_info raw_desc_info desc_info,
    complex_tasks σ' !! l = Some c' ∧
    program_info_json (OakInk2__ComplexTask.seq_token c) = Some raw_program_info ∧
    load_program_info raw_program_info = Some program_info ∧
    desc_info_json (OakInk2__ComplexTask.seq_token c) = Some raw_desc_info ∧
    load_desc_info raw_desc_info = Some desc_info ∧
    length (loaded_tasks r) = length (handle_list c ident) ∧
    Forall2 (λ ident p,
               OakInk2__PrimitiveTask.seq_key p = OakInk2__ComplexTask.seq_key c ∧
               OakInk2__PrimitiveTask.instantiated p =
                 default return_instantiated ri ∧
               ∃ p0,
                 _load_primitive_task_from_identifier
                   (OakInk2__ComplexTask.seq_key c) ident
                   (Some (default return_instantiated ri))
                   (Some program_info) (Some desc_info) = Some p0 ∧
                 if default return_instantiated ri
                 then hydrate_primitive_task p0 c' = Some p else p = p0)
            (handle_list c ident) (loaded_tasks r) ∧
    match ident with
    | IdentStr _ => ∃ p, r = inl p
    | _ => ∃ res, r = inr res
    end.
Proof.
  intros Hc Hl.
  destruct (load_primitive_task_inv _ _ _ _ _ _ _ Hc Hl)
    as (c' & raw_pi & program_info & raw_di & desc_info & Hc' & _ & ? & ? &
        ? & ? & HF & Hshape).
  exists c', raw_pi, program_info, raw_di, desc_info.
  split_and!; try done.
  - symmetry. by eapply Forall2_length.
  - eapply Forall2_impl; [exact HF|]. simpl.
    intros id p (p0 & Hp0 & Hp). 
    apply _load_primitive_task_from_identifier_inv in Hp0 as Hp0'.
    destruct Hp0' as (? & ? & ? & _ & _ & _ & Hdef).
    apply _load_primitive_task_from_def_inv in Hdef
      as (? & _ & Hinst & Hkey & _).
    destruct (default return_instantiated ri).
    + split_and!; [| |by exists p0].
      * by rewrite (hydrate_primitive_task_seq_key _ _ _ Hp).
      * by eapply hydrate_primitive_task_instantiated.
    + subst p. split_and!; [done..|]. by exists p0.
Qed.

(** X24. An identifier names the segment it was given to: with [str] and
    [ast.literal_eval] inverse to each other and the program information as
    [load_program_info] returns it, the task loaded for an identifier has
    the primitive type, the interaction mode and the object lists of the
    program item whose key the merged name map sends to that identifier. *)
Theorem load_primitive_task_from_identifier_item raw program_info seq_key
    ident ri di p :
  (∀ v : PyVal, literal_eval (py_str v) = Some v) →
  load_program_info raw = Some program_info →
  _load_primitive_task_from_identifier seq_key ident ri (Some program_info) di
    = Some p →
  ∃ k item,
    Dict.get program_info k = Some item ∧
    Dict.get (Dict.merge (suffix_affordance_primitive_segment program_info)
                         (suffix_transient_primitive_segment program_info)) k
      = Some ident ∧
    OakInk2__PrimitiveTask.seq_key p = seq_key ∧
    OakInk2__PrimitiveTask.seq_token p = replace_slash seq_key ∧
    OakInk2__PrimitiveTask.instantiated p = false ∧
    OakInk2__PrimitiveTask.primitive_task p = primitive item ∧
    OakInk2__PrimitiveTask.transient p = is_transient (primitive item) ∧
    OakInk2__PrimitiveTask.interaction_mode p = interaction_mode item ∧
    OakInk2__PrimitiveTask.task_obj_list p = obj_list item ∧
    OakInk2__PrimitiveTask.lh_obj_list p = obj_list_lh item ∧
    OakInk2__PrimitiveTask.rh_obj_list p = obj_list_rh item.
Proof.
  intros Hrt Hload Hl.
  apply _load_primitive_task_from_identifier_inv in Hl
    as (full & rev & d & Hfull & Hrev & Hd & Hdef).
  apply _load_primitive_task_from_def_inv in Hdef
    as (item & Hitem & ? & ? & ? & ? & ? & ? & ? & ? & ? & _).
  destruct (rev_full_task_namemap_get _ _ _ _ _ Hrev Hd)
    as [?|(k & Hin & Hk)]; [done|].
  unfold full_task_namemap in Hfull.
  rewrite reorder_namemap_spec in Hfull;
    [|by eapply load_program_info_wf | intros; apply not_elem_of_nil].
  apply bind_Some in Hfull as (vs & Hvs & [= <-]). simpl in Hin.
  apply mapM_Some in Hvs.
  pose proof (Forall2_zip_elem _ _ _ _ _ Hvs Hin) as Hmerged.
  assert (Hkin : k ∈ Dict.keys program_info).
  { apply elem_of_zip_l in Hin. done. }
  assert (Hstd : standardize_tuple k = Some k).
  { eapply (standardize_keys_keys raw [] program_info k Hload) in Hkin.
    destruct Hkin as [?%elem_of_nil|(k0 & _ & Hk0)]; [done|].
    unfold standardize_tuple in *.
    apply fmap_Some in Hk0 as (v & _ & ->). by rewrite Hrt. }
  assert (py_str d = k) as Hkey.
  { unfold standardize_tuple in Hstd. rewrite Hk in Hstd. simpl in Hstd.
    congruence. }
  rewrite Hkey in Hitem. exists k, item. split_and!; done.
Qed.

End PrimitiveLoaderFacts.

(** ** The index *)

Section IndexFacts.
Context `{Numeric} `{PyLib} `{ProgramLib} `{!OakInk2__Dataset}.
Implicit Types (σ : State) (c : OakInk2__ComplexTask.t).

Lemma py_index_Some {A : Type} (xs : list A) (i : Z) x :
  py_index xs i = Some x →
  - Z.of_nat (length xs) ≤ i < Z.of_nat (length xs) ∧ x ∈ xs.
Proof.
  unfold py_index. repeat case_decide; [| |done]; intros Hx.
  - split; [|by eapply list_elem_of_lookup_2].
    apply lookup_lt_Some in Hx. lia.
  - split; [|by eapply list_elem_of_lookup_2].
    apply lookup_lt_Some in Hx. lia.
Qed.

Lemma build_complex_task_task_target seq_key b c :
  build_complex_task seq_key b = Some c →
  Dict.get task_target seq_key = Some (OakInk2__ComplexTask.task_target c).
Proof.
  unfold build_complex_task. intros Hb.
  apply bind_Some in Hb as (raw & _ & Hb).
  apply bind_Some in Hb as (program_info & _ & Hb).
  apply bind_Some in Hb as (full & _ & Hb).
  apply bind_Some in Hb as (rev & _ & Hb).
  apply bind_Some in Hb as (g & _ & Hb).
  apply bind_Some in Hb as (pdg & _ & Hb).
  apply bind_Some in Hb as (tt & Htt & Hb).
  apply bind_Some in Hb as (fr & _ & Hb).
  by simplify_eq.
Qed.

Lemma hydrate_complex_task_task_target c c' :
  hydrate_complex_task c = Some c' →
  OakInk2__ComplexTask.task_target c' = OakInk2__ComplexTask.task_target c.
Proof.
  unfold hydrate_complex_task. intros Hh.
  repeat (apply bind_Some in Hh as (? & _ & Hh)). by simplify_eq.
Qed.

(** X25. [dataset[index]] succeeds only for an index Python accepts for
    [all_seq_list] (from [-len] up to [len - 1]).  It returns a new complex
    task of the sequence at that position, hydrated exactly when the dataset
    was built with [return_instantiated], whose target is the entry the
    task-target file has for that sequence; no existing object and no
    cached mesh changes. *)
Theorem getitem_loads_indexed_sequence (index : Z) σ l σ' :
  __getitem__ index σ = Some (l, σ') →
  - Z.of_nat __len__ ≤ index < Z.of_nat __len__ ∧
  (l ∉ dom (complex_tasks σ)) ∧
  obj_cache σ' = obj_cache σ ∧
  (∀ l0, l0 ∈ dom (complex_tasks σ) →
         complex_tasks σ' !! l0 = complex_tasks σ !! l0) ∧
  ∃ c, complex_tasks σ' !! l = Some c ∧
       py_index all_seq_list index = Some (OakInk2__ComplexTask.seq_key c) ∧
       OakInk2__ComplexTask.instantiated c = return_instantiated ∧
       (OakInk2__ComplexTask.seq_key c, OakInk2__ComplexTask.task_target c)
         ∈ task_target.
Proof.
  unfold __getitem__. intros Hg.
  apply M_bind_Some in Hg as (k0 & σ0 & Hk & Hg).
  apply lift_Some in Hk as (seq_key & Hk & [= -> ->]).
  destruct (py_index_Some _ _ _ Hk) as [Hrange _].
  pose proof (load_complex_task_inv _ _ _ _ _ Hg)
    as (Hfresh & Hcache & c0 & c & Hb & Hct & Hc).
  simpl in Hb, Hc.
  destruct (build_complex_task_fresh _ _ _ Hb) as [Hinst0 Hkey0].
  pose proof (build_complex_task_task_target _ _ _ Hb) as Htt.
  unfold __len__. split_and!; [apply Hrange | apply Hrange | done | done | |].
  - intros l0 Hl0. by eapply load_complex_task_frame.
  - exists c. rewrite Hct, lookup_insert_eq.
    destruct return_instantiated eqn:Hri.
    + destruct (hydrate_complex_task_instantiated _ _ Hc) as (? & Hkey & _).
      rewrite (hydrate_complex_task_task_target _ _ Hc), Hkey, Hkey0.
      split_and!; [done..|]. by apply dict_get_Some_elem.
    + subst c. rewrite Hkey0. split_and!; [done..|].
      by apply dict_get_Some_elem.
Qed.

End IndexFacts.

(** ** Loading affordances *)

Section AffordanceLoaderFacts.
Context `{Numeric} `{PyLib} `{ProgramLib} `{!OakInk2__Dataset}.
Context `{!AffordanceFiles}.
Implicit Types (σ : State) (a : OakInk2__Affordance.t Mesh).

Lemma instantiate_affordance_fresh a a' σ σ' :
  OakInk2__Affordance.instantiated a = false →
  instantiate_affordance a σ = Some (a', σ') →
  cache_grows σ σ' ∧
  OakInk2__Affordance.instantiated a' = true ∧
  OakInk2__Affordance.obj_id a' = OakInk2__Affordance.obj_id a ∧
  OakInk2__Affordance.obj_name a' = OakInk2__Affordance.obj_name a ∧
  OakInk2__Affordance.has_model a' = OakInk2__Affordance.has_model a ∧
  OakInk2__Affordance.obj_instance_id a' = OakInk2__Affordance.obj_instance_id a ∧
  OakInk2__Affordance.obj_part_id a' = OakInk2__Affordance.obj_part_id a.
Proof.
  unfold instantiate_affordance. intros ->. simpl.
  intros (mesh & σ1 & Hmesh & [= -> ->]%M_ret_Some)%M_bind_Some. simpl.
  split_and!; [|done..].
  destruct (OakInk2__Affordance.has_model a); simpl in Hmesh.
  - apply M_bind_Some in Hmesh as (m & σ2 & Hc & [= -> ->]%M_ret_Some).
    by apply cached_load_obj_spec in Hc as (Hg & _).
  - apply M_bind_Some in Hmesh as (parts & σ2 & Hl & [= -> ->]%M_ret_Some).
    by apply load_part_meshes_spec in Hl as (Hg & _).
Qed.

Lemma load_affordance_inv (fuel : nat) obj_id ri a σ σ' :
  load_affordance fuel obj_id ri σ = Some (a, σ') →
  ∃ item,
    lookup_obj_name obj_id = Some (OakInk2__Affordance.obj_name a) ∧
    Dict.get object_affordance obj_id = Some item ∧
    get_part_tree_root fuel (rev_part_tree part_tree) obj_id =
      Some (OakInk2__Affordance.obj_instance_id a) ∧
    Dict.get part_tree obj_id = Some (OakInk2__Affordance.obj_part_id a) ∧
    OakInk2__Affordance.obj_id a = obj_id ∧
    OakInk2__Affordance.has_model a = ObjectAffordance.has_model item ∧
    OakInk2__Affordance.instantiated a = default return_instantiated ri ∧
    cache_grows σ σ' ∧
    (default return_instantiated ri = false → σ' = σ).
Proof.
  unfold load_affordance. intros Hl.
  apply M_bind_Some in Hl as (n0 & σ0 & Hn & Hl).
  apply lift_Some in Hn as (obj_name & Hn & [= -> ->]).
  apply M_bind_Some in Hl as (i0 & σ0 & Hi & Hl).
  apply lift_Some in Hi as (item & Hi & [= -> ->]).
  apply M_bind_Some in Hl as (r0 & σ0 & Hr & Hl).
  apply lift_Some in Hr as (root & Hr & [= -> ->]).
  apply M_bind_Some in Hl as (p0 & σ0 & Hp & Hl).
  apply lift_Some in Hp as (parts & Hp & [= -> ->]).
  exists item. destruct (default return_instantiated ri).
  - apply instantiate_affordance_fresh in Hl
      as (Hg & -> & -> & -> & -> & -> & ->); [|done].
    simpl. split_and!; done.
  - apply M_ret_Some in Hl as [= -> ->]. simpl.
    split_and!; [done..|apply cache_grows_refl|done].
Qed.

Lemma rev_part_tree_single_parent pt k parts x :
  part_tree_single_parent pt → (k, parts) ∈ pt → x ∈ parts →
  rev_part_tree pt !! x = Some k.
Proof.
  intros Hsingle Hin Hx.
  destruct (rev_part_tree_fold_is_Some pt ∅ x) as [k' Hk']; [by eauto|].
  fold (rev_part_tree pt) in Hk'.
  pose proof Hk' as [Hl|(parts' & Hin' & Hx')]%rev_part_tree_fold_Some.
  - by rewrite lookup_empty in Hl.
  - by rewrite (Hsingle _ _ _ _ _ Hin Hx Hin' Hx') in Hk'.
Qed.

(** X26. The affordance [load_affordance] returns carries the id it was
    asked for and the parts the part tree lists under it; its instance id is
    a root of the reversed part tree reached from the id by parent links;
    and each of its parts has a parent entry, so is no root itself.  A lazy
    load leaves the engine as it was, an eager one only adds meshes to the
    cache. *)
Theorem load_affordance_instance_root (fuel : nat) obj_id ri a σ σ' :
  load_affordance fuel obj_id ri σ = Some (a, σ') →
  OakInk2__Affordance.obj_id a = obj_id ∧
  OakInk2__Affordance.instantiated a = default return_instantiated ri ∧
  Dict.get part_tree obj_id = Some (OakInk2__Affordance.obj_part_id a) ∧
  rev_part_tree part_tree !! OakInk2__Affordance.obj_instance_id a = None ∧
  (∃ d, (d ≤ fuel)%nat ∧
        parent_hops (rev_part_tree part_tree) d obj_id =
          Some (OakInk2__Affordance.obj_instance_id a)) ∧
  (∀ part, part ∈ OakInk2__Affordance.obj_part_id a →
           is_Some (rev_part_tree part_tree !! part)) ∧
  cache_grows σ σ' ∧
  (default return_instantiated ri = false → σ' = σ).
Proof.
  intros (item & _ & _ & Hroot & Hparts & ? & _ & ? & ? & ?)%load_affordance_inv.
  apply get_part_tree_root_chain in Hroot as (d & Hd & Hchain).
  destruct (parent_chain_hops _ _ _ _ Hchain) as [Hhops Hnone].
  split_and!; [done..|by exists d| |done|done].
  intros part Hpart. apply rev_part_tree_fold_is_Some. right.
  exists obj_id, (OakInk2__Affordance.obj_part_id a).
  split; [by apply dict_get_Some_elem | done].
Qed.

(** X27. In a part tree that lists every part under one parent, the
    affordance loaded for a part of an object belongs to the same instance
    as the object: the two have the same [obj_instance_id]. *)
Theorem load_affordance_part_instance (fuel fuel' : nat) obj_id ri ri' part
    a a' σ1 σ1' σ2 σ2' :
  part_tree_single_parent part_tree →
  load_affordance fuel obj_id ri σ1 = Some (a, σ1') →
  part ∈ OakInk2__Affordance.obj_part_id a →
  load_affordance fuel' part ri' σ2 = Some (a', σ2') →
  OakInk2__Affordance.obj_instance_id a' = OakInk2__Affordance.obj_instance_id a.
Proof.
  intros Hsingle (_ & _ & _ & Hroot & Hparts & _)%load_affordance_inv Hpart
    (_ & _ & _ & Hroot' & _)%load_affordance_inv.
  assert (Hparent : rev_part_tree part_tree !! part = Some obj_id).
  { eapply rev_part_tree_single_parent; [done | | done].
    by apply dict_get_Some_elem. }
  apply get_part_tree_root_chain in Hroot as (d & _ & Hchain).
  apply get_part_tree_root_chain in Hroot' as (d' & _ & Hchain').
  inversion Hchain' as [? Hnone|? parent d'' ? Hp Hchain'']; simplify_eq.
  by destruct (parent_chain_unique _ _ _ _ Hchain _ _ Hchain'') as [_ ->].
Qed.

(** X28. When the reversed part tree has no cycle and the affordance files
    have the entries of the id, a lazy [load_affordance] returns, within as
    many iterations of the root search as the reversed tree has entries,
    and leaves the engine as it was. *)
Theorem load_affordance_returns (fuel : nat) obj_id σ :
  acyclic (rev_part_tree part_tree) →
  is_Some (lookup_obj_name obj_id) →
  is_Some (Dict.get object_affordance obj_id) →
  is_Some (Dict.get part_tree obj_id) →
  (size (rev_part_tree part_tree) ≤ fuel)%nat →
  ∃ a, load_affordance fuel obj_id (Some false) σ = Some (a, σ) ∧
       OakInk2__Affordance.obj_id a = obj_id ∧
       OakInk2__Affordance.instantiated a = false.
Proof.
  intros Hacyclic [obj_name Hname] [item Hitem] [parts Hparts] Hfuel.
  destruct (acyclic_parent_chain _ obj_id Hacyclic) as (d & root & Hchain & Hd).
  pose proof (parent_chain_fuel _ _ _ _ Hchain fuel) as Hroot.
  rewrite decide_True in Hroot by lia.
  unfold load_affordance. simpl.
  unfold mbind, M_bind, lift. rewrite Hname, Hitem, Hroot, Hparts. simpl.
  eexists. split; [reflexivity | done].
Qed.

End AffordanceLoaderFacts.

(** ** The further properties on the sample dataset *)

Section EvaluationMore.
Import Sample SampleMore.
#[local] Existing Instances pylib numeric programlib dataset.
#[local] Existing Instances framerangedeflib descinfofiles affordancefiles.

(** The sample sequence, loaded lazily and then hydrated. *)
Lemma sample_lazy_task :
  ∃ l σ0 c0 σ1,
    load_complex_task "scene/seq" (Some false) empty_state = Some (l, σ0) ∧
    complex_tasks σ0 !! l = Some c0 ∧
    OakInk2__ComplexTask.instantiated c0 = false ∧
    instantiate_complex_task l σ0 = Some (l, σ1).
Proof.
  destruct (load_complex_task "scene/seq" (Some false) empty_state)
    as [[l σ0]|] eqn:Hload; [|by vm_compute in Hload].
  destruct (load_complex_task_inv _ _ _ _ _ Hload)
    as (_ & _ & c0 & c & Hb & Hct & Hc).
  simpl in Hc. subst c.
  apply build_complex_task_fresh in Hb as [Hinst _].
  assert (Hc0 : complex_tasks σ0 !! l = Some c0)
    by (rewrite Hct; apply lookup_insert_eq).
  destruct (instantiate_complex_task l σ0) as [[l' σ1]|] eqn:Hi.
  - pose proof (instantiate_complex_task_inv _ _ _ _ Hi) as (-> & _).
    by exists l, σ0, c0, σ1.
  - vm_compute in Hload. injection Hload as <- <-. by vm_compute in Hi.
Defined.

(** The sample sequence, loaded eagerly. *)
Lemma sample_eager_task :
  ∃ l σ c,
    load_complex_task "scene/seq" (Some true) empty_state = Some (l, σ) ∧
    complex_tasks σ !! l = Some c ∧
    OakInk2__ComplexTask.instantiated c = true.
Proof.
  destruct (load_complex_task "scene/seq" (Some true) empty_state)
    as [[l σ]|] eqn:Hload; [|by vm_compute in Hload].
  destruct (load_complex_task_inv _ _ _ _ _ Hload)
    as (_ & _ & c0 & c & Hb & Hct & Hc).
  simpl in Hc.
  apply hydrate_complex_task_instantiated in Hc as [Hinst _].
  exists l, σ, c. split_and!; [done | | done].
  rewrite Hct. apply lookup_insert_eq.
Defined.

Lemma kettle_tree_single_parent : part_tree_single_parent kettle_tree.
Proof.
  intros k parts k' parts' x Hin Hx Hin' Hx'. unfold kettle_tree in *.
  repeat (simplify_eq;
          match goal with
          | Hm : _ ∈ _ :: _ |- _ => apply elem_of_cons in Hm as [Hm|Hm]
          | Hm : _ ∈ [] |- _ => by apply elem_of_nil in Hm
          end); by simplify_eq.
Defined.

Lemma kettle_tree_acyclic : acyclic (rev_part_tree kettle_tree).
Proof.
  apply chain_acyclic. intros x.
  destruct (rev_part_tree kettle_tree !! x) as [y|] eqn:Hx;
    [|exists 0%nat, x; by constructor].
  assert (Hroot : rev_part_tree kettle_tree !! "O1"%string = None)
    by (by vm_compute).
  assert (Hlid : rev_part_tree kettle_tree !! "O1_lid"%string = Some "O1"%string)
    by (by vm_compute).
  assert (Hcases : x = "O1_body"%string ∨ x = "O1_lid"%string ∨
                   x = "O1_knob"%string).
  { destruct (rev_part_tree_fold_Some kettle_tree ∅ x y Hx)
      as [Hl|(parts & Hin & Hxin)]; [by rewrite lookup_empty in Hl|].
    unfold kettle_tree in Hin.
    repeat (simplify_eq;
            match goal with
            | Hm : _ ∈ _ :: _ |- _ => apply elem_of_cons in Hm as [Hm|Hm]
            | Hm : _ ∈ [] |- _ => by apply elem_of_nil in Hm
            end); simplify_eq; auto. }
  destruct Hcases as [-> | [-> | ->]].
  - exists 1%nat, "O1"%string.
    apply (parent_chain_step _ _ "O1"); [by vm_compute | by constructor].
  - exists 1%nat, "O1"%string.
    apply (parent_chain_step _ _ "O1"); [by vm_compute | by constructor].
  - exists 2%nat, "O1"%string.
    apply (parent_chain_step _ _ "O1_lid"); [by vm_compute|].
    apply (parent_chain_step _ _ "O1"); [by vm_compute | by constructor].
Defined.

Lemma fix_g_info_edges_exact_witness :
  ∃ g', fix_g_info g_info affordance_namemap = Some g' ∧
        ((0, 3) ∈ e g' ↔
         ¬ invalid_id g_info affordance_namemap 0 ∧
         ¬ invalid_id g_info affordance_namemap 3 ∧
         ∃ ws, path (e g_info) 0 ws 3 ∧
               Forall (invalid_id g_info affordance_namemap) ws).
Proof.
  destruct (fix_g_info g_info affordance_namemap) as [g'|] eqn:Hfix;
    [|by vm_compute in Hfix].
  exists g'. split; [done|].
  apply (fix_g_info_edges_exact sample_literal_eval_str _ _ _ _ _ Hfix).
Defined.

Lemma fix_g_info_id_map_valid_witness :
  ∃ g', fix_g_info g_info affordance_namemap = Some g' ∧
        id_map g' =
        filter (λ kv, key_valid affordance_namemap kv.1 = true) (id_map g_info).
Proof.
  destruct (fix_g_info g_info affordance_namemap) as [g'|] eqn:Hfix;
    [|by vm_compute in Hfix].
  exists g'. split; [done|].
  apply (fix_g_info_id_map_valid sample_literal_eval_str _ _ _ Hfix).
Defined.

Lemma fix_g_info_returns_iff_witness :
  is_Some (fix_g_info g_info affordance_namemap) ↔
  Forall (key_contractible affordance_namemap) (Dict.keys (id_map g_info)).
Proof.
  apply (fix_g_info_returns_iff sample_literal_eval_str g_info
           affordance_namemap).
  compute_done.
Defined.

Lemma fix_g_info_all_valid_unchanged_witness :
  fix_g_info g_valid affordance_namemap = Some g_valid.
Proof.
  apply (fix_g_info_all_valid_unchanged g_valid affordance_namemap).
  compute_done.
Defined.


Lemma load_pdg_edges_exact_witness :
  ∃ G, load_pdg g_info affordance_namemap = Some G ∧
       (("hold"%string, "pour"%string) ∈ edges G ↔
        ∃ kA kB a b ws,
          Dict.get (id_map g_info) kA = Some a ∧
          Dict.get (id_map g_info) kB = Some b ∧
          key_identifier affordance_namemap kA "hold" ∧
          key_identifier affordance_namemap kB "pour" ∧
          path (e g_info) a ws b ∧
          Forall (invalid_id g_info affordance_namemap) ws).
Proof.
  destruct (load_pdg g_info affordance_namemap) as [G|] eqn:Hpdg;
    [|by vm_compute in Hpdg].
  exists G. split; [done|].
  apply (load_pdg_edges_exact sample_literal_eval_str g_info
           affordance_namemap G "hold" "pour"); [compute_done.. | done].
Defined.

Lemma load_program_info_last_wins_witness :
  ∃ pi, load_program_info program_info = Some pi ∧ Dict.wf pi ∧
        ∀ s, s ∈ Dict.keys pi ↔
             ∃ k, k ∈ Dict.keys program_info ∧ standardize_tuple k = Some s.
Proof.
  destruct (load_program_info program_info) as [pi|] eqn:Hload;
    [|by vm_compute in Hload].
  destruct (load_program_info_last_wins _ _ Hload) as (Hwf & Hkeys & _).
  by exists pi.
Defined.

Lemma load_program_info_idempotent_witness :
  load_program_info program_info = Some program_info.
Proof.
  apply (proj1 (load_program_info_idempotent sample_literal_eval_str));
    compute_done.
Defined.

Lemma rev_part_tree_lookup_witness :
  ∃ parts, ("O1_lid"%string, parts) ∈ Sample.part_tree ∧
           "O1_knob"%string ∈ parts.
Proof.
  destruct (rev_part_tree_lookup Sample.part_tree "O1_knob") as (Hparent & _).
  apply (Hparent "O1_lid"%string). by vm_compute.
Defined.

Lemma get_part_tree_root_sound_witness :
  rev_part_tree Sample.part_tree !! "O1"%string = None ∧
  (∃ d, (d ≤ 2)%nat ∧
        parent_hops (rev_part_tree Sample.part_tree) d "O1_knob" =
          Some "O1"%string) ∧
  (∀ n : nat, parent_hops (rev_part_tree Sample.part_tree) (S n) "O1_knob" ≠
              Some "O1_knob"%string).
Proof.
  apply (get_part_tree_root_sound 2 (rev_part_tree Sample.part_tree)
           "O1_knob" "O1").
  by vm_compute.
Defined.


Lemma instantiate_affordance_cache_witness :
  ∃ a' σ' m,
    instantiate_affordance affordance empty_state = Some (a', σ') ∧
    cache_grows empty_state σ' ∧
    OakInk2__Affordance.obj_mesh a' = Some (inl m) ∧
    obj_cache σ' !! "O1"%string = Some m.
Proof.
  destruct (instantiate_affordance affordance empty_state) as [[a' σ']|]
    eqn:Hi; [|by vm_compute in Hi].
  destruct (instantiate_affordance_cache _ _ _ _ Hi) as (Hg & _ & _ & Hm).
  destruct (Hm eq_refl) as (m & ? & ?).
  by exists a', σ', m.
Defined.

Lemma instantiate_affordance_cached_witness :
  ∃ a', instantiate_affordance affordance cached_state = Some (a', cached_state) ∧
        OakInk2__Affordance.instantiated a' = true.
Proof.
  apply (instantiate_affordance_cached affordance cached_state eq_refl).
  compute_done.
Defined.

Lemma instantiate_complex_task_frame_range_witness :
  ∃ l σ0 σ1 c' lo hi,
    load_complex_task "scene/seq" (Some false) empty_state = Some (l, σ0) ∧
    instantiate_complex_task l σ0 = Some (l, σ1) ∧
    complex_tasks σ1 !! l = Some c' ∧
    OakInk2__ComplexTask.frame_range c' = Some (lo, hi) ∧ lo ≤ hi.
Proof.
  destruct sample_lazy_task as (l & σ0 & c0 & σ1 & Hload & Hc0 & Hinst & Hi).
  destruct (instantiate_complex_task_frame_range _ _ _ _ _ Hc0 Hinst Hi)
    as (c' & anno & lo & hi & Hc' & _ & Hfr & Hlo & _ & Hall & _).
  exists l, σ0, σ1, c', lo, hi. split_and!; [done..|]. by apply Hall.
Defined.

Lemma instantiate_complex_task_obj_transf_witness :
  ∃ l σ0 σ1 c' anno_data obj_transf,
    load_complex_task "scene/seq" (Some false) empty_state = Some (l, σ0) ∧
    instantiate_complex_task l σ0 = Some (l, σ1) ∧
    complex_tasks σ1 !! l = Some c' ∧
    OakInk2__ComplexTask.obj_transf c' = Some obj_transf ∧
    ∀ obj, obj ∈ Dict.keys obj_transf ↔ obj ∈ anno_obj_list anno_data.
Proof.
  destruct sample_lazy_task as (l & σ0 & c0 & σ1 & Hload & Hc0 & Hinst & Hi).
  destruct (instantiate_complex_task_obj_transf _ _ _ _ _ Hc0 Hinst Hi)
    as (c' & anno & ot & Hc' & _ & Hot & Hkeys & _).
  by exists l, σ0, σ1, c', anno, ot.
Defined.

Lemma instantiate_complex_task_smplx_witness :
  ∃ l σ0 σ1 c' smplx (first : @ParamDict numeric),
    load_complex_task "scene/seq" (Some false) empty_state = Some (l, σ0) ∧
    instantiate_complex_task l σ0 = Some (l, σ1) ∧
    complex_tasks σ1 !! l = Some c' ∧
    OakInk2__ComplexTask.smplx_param c' = Some smplx ∧
    ∀ k, k ∈ Dict.keys smplx ↔ k ∈ Dict.keys first.
Proof.
  destruct sample_lazy_task as (l & σ0 & c0 & σ1 & Hload & Hc0 & Hinst & Hi).
  destruct (instantiate_complex_task_smplx _ _ _ _ _ Hc0 Hinst Hi)
    as (c' & anno & smplx & first & Hc' & _ & Hs & _ & Hkeys & _).
  by exists l, σ0, σ1, c', smplx, first.
Defined.

Lemma instantiate_complex_task_mano_witness :
  ∃ l σ0 σ1 c' lh rh (first : @ParamDict numeric),
    load_complex_task "scene/seq" (Some false) empty_state = Some (l, σ0) ∧
    instantiate_complex_task l σ0 = Some (l, σ1) ∧
    complex_tasks σ1 !! l = Some c' ∧
    OakInk2__ComplexTask.lh_param c' = Some lh ∧
    OakInk2__ComplexTask.rh_param c' = Some rh ∧
    (∀ k, k ∈ Dict.keys lh ↔ ("lh__" +:+ k)%string ∈ Dict.keys first) ∧
    (∀ k, k ∈ Dict.keys rh ↔ ("rh__" +:+ k)%string ∈ Dict.keys first).
Proof.
  destruct sample_lazy_task as (l & σ0 & c0 & σ1 & Hload & Hc0 & Hinst & Hi).
  destruct (instantiate_complex_task_mano _ _ _ _ _ Hc0 Hinst Hi)
    as (c' & anno & lh & rh & first & Hc' & _ & ? & ? & _ & ? & ? & _).
  by exists l, σ0, σ1, c', lh, rh, first.
Defined.

Lemma load_complex_task_lazy_then_instantiate_witness :
  ∃ l σ0 σ1,
    load_complex_task "scene/seq" (Some false) empty_state = Some (l, σ0) ∧
    instantiate_complex_task l σ0 = Some (l, σ1) ∧
    load_complex_task "scene/seq" (Some true) empty_state = Some (l, σ1).
Proof.
  destruct sample_lazy_task as (l & σ0 & c0 & σ1 & Hload & Hc0 & Hinst & Hi).
  destruct (load_complex_task_lazy_then_instantiate _ _ _ _ _ _ Hload Hi)
    as [_ Heager].
  by exists l, σ0, σ1.
Defined.

Lemma instantiate_primitive_task_uses_hydrated_witness :
  ∃ l σ c,
    load_complex_task "scene/seq" (Some true) empty_state = Some (l, σ) ∧
    complex_tasks σ !! l = Some c ∧
    instantiate_primitive_task primitive_task (Some l) σ =
    (p' ← hydrate_primitive_task primitive_task c; Some (p', σ)).
Proof.
  destruct sample_eager_task as (l & σ & c & Hload & Hc & Hinst).
  exists l, σ, c. split_and!; [done..|].
  apply (instantiate_primitive_task_uses_hydrated primitive_task l c σ Hc Hinst
           eq_refl).
Defined.

Lemma instantiate_primitive_task_obj_rows_witness :
  ∃ p' σ' l c parent_obj_transf obj_transf,
    instantiate_primitive_task primitive_task None empty_state =
      Some (p', σ') ∧
    complex_tasks σ' !! l = Some c ∧
    OakInk2__ComplexTask.obj_transf c = Some parent_obj_transf ∧
    OakInk2__PrimitiveTask.obj_transf p' = Some obj_transf ∧
    ∀ obj rows, Dict.get obj_transf obj = Some rows →
      ∃ arr, Dict.get parent_obj_transf obj = Some arr ∧
             rows = take 4 (drop 1 arr) ∧ 5 ≤ Z.of_nat (length arr).
Proof.
  destruct (instantiate_primitive_task primitive_task None empty_state)
    as [[p' σ']|] eqn:Hi; [|by vm_compute in Hi].
  destruct (instantiate_primitive_task_obj_rows primitive_task None
              empty_state p' σ' 1 5 eq_refl eq_refl ltac:(lia) Hi)
    as (l & c & parent & ot & _ & Hc & Hparent & Hot & Hrows).
  exists p', σ', l, c, parent, ot. split_and!; [done..|].
  intros obj rows Hg. destruct (Hrows _ _ Hg) as (arr & ? & ? & Hlen).
  exists arr. split_and!; [done | done | apply Hlen; lia].
Defined.

Lemma load_primitive_task_in_place_witness :
  ∃ l σ0 r σ' c',
    load_complex_task "scene/seq" (Some false) empty_state = Some (l, σ0) ∧
    load_primitive_task l IdentNone (Some true) σ0 = Some (r, σ') ∧
    dom (complex_tasks σ') = dom (complex_tasks σ0) ∧
    obj_cache σ' = obj_cache σ0 ∧
    complex_tasks σ' !! l = Some c' ∧
    OakInk2__ComplexTask.instantiated c' = true.
Proof.
  destruct sample_lazy_task as (l & σ0 & c0 & σ1 & Hload & Hc0 & Hinst & Hi).
  destruct (load_primitive_task l IdentNone (Some true) σ0) as [[r σ']|]
    eqn:Hl.
  - destruct (load_primitive_task_in_place _ _ _ _ _ _ _ Hc0 Hl)
      as (Hdom & Hcache & _ & _ & Hhyd).
    destruct (Hhyd eq_refl Hinst) as (c' & _ & ? & ?).
    by exists l, σ0, r, σ', c'.
  - vm_compute in Hload. injection Hload as <- <-. by vm_compute in Hl.
Defined.

Lemma load_primitive_task_batch_witness :
  ∃ l σ0 c0 r σ',
    load_complex_task "scene/seq" (Some false) empty_state = Some (l, σ0) ∧
    complex_tasks σ0 !! l = Some c0 ∧
    load_primitive_task l IdentNone (Some false) σ0 = Some (r, σ') ∧
    length (loaded_tasks r) = length (OakInk2__ComplexTask.exec_path c0) ∧
    ∃ res, r = inr res.
Proof.
  destruct sample_lazy_task as (l & σ0 & c0 & σ1 & Hload & Hc0 & Hinst & Hi).
  destruct (load_primitive_task l IdentNone (Some false) σ0) as [[r σ']|]
    eqn:Hl.
  - destruct (load_primitive_task_batch _ _ _ _ _ _ _ Hc0 Hl)
      as (c' & ? & ? & ? & ? & _ & _ & _ & _ & _ & Hlen & _ & Hshape).
    by exists l, σ0, c0, r, σ'.
  - vm_compute in Hload. injection Hload as <- <-. by vm_compute in Hl.
Defined.

Lemma load_primitive_task_from_identifier_item_witness :
  ∃ p k item,
    _load_primitive_task_from_identifier "scene/seq" "pour" (Some false)
      (Some program_info) None = Some p ∧
    Dict.get program_info k = Some item ∧
    OakInk2__PrimitiveTask.primitive_task p = primitive item ∧
    OakInk2__PrimitiveTask.task_obj_list p = obj_list item.
Proof.
  destruct (_load_primitive_task_from_identifier "scene/seq" "pour"
              (Some false) (Some program_info) None) as [p|] eqn:Hl;
    [|by vm_compute in Hl].
  destruct (load_primitive_task_from_identifier_item program_info
              program_info "scene/seq" "pour" (Some false) None p
              sample_literal_eval_str eq_refl Hl)
    as (k & item & Hitem & _ & _ & _ & _ & Hprim & _ & _ & Hobj & _).
  by exists p, k, item.
Defined.

Lemma getitem_loads_indexed_sequence_witness :
  ∃ l σ' c,
    __getitem__ (-1) empty_state = Some (l, σ') ∧
    complex_tasks σ' !! l = Some c ∧
    py_index all_seq_list (-1) = Some (OakInk2__ComplexTask.seq_key c) ∧
    OakInk2__ComplexTask.instantiated c = false.
Proof.
  destruct (__getitem__ (-1) empty_state) as [[l σ']|] eqn:Hg;
    [|by vm_compute in Hg].
  destruct (getitem_loads_indexed_sequence _ _ _ _ Hg)
    as (_ & _ & _ & _ & c & Hc & Hk & Hinst & _).
  by exists l, σ', c.
Defined.

Lemma load_affordance_instance_root_witness :
  ∃ a σ',
    load_affordance 4 "O1_knob" (Some false) empty_state = Some (a, σ') ∧
    OakInk2__Affordance.obj_id a = "O1_knob"%string ∧
    rev_part_tree kettle_tree !! OakInk2__Affordance.obj_instance_id a = None ∧
    σ' = empty_state.
Proof.
  destruct (load_affordance 4 "O1_knob" (Some false) empty_state)
    as [[a σ']|] eqn:Hl; [|by vm_compute in Hl].
  destruct (load_affordance_instance_root _ _ _ _ _ _ Hl)
    as (? & _ & _ & ? & _ & _ & _ & Hsame).
  exists a, σ'. split_and!; [done..|]. by apply Hsame.
Defined.

Lemma load_affordance_part_instance_witness :
  ∃ a a' σ σ',
    load_affordance 4 "O1_lid" (Some false) empty_state = Some (a, σ) ∧
    load_affordance 4 "O1_knob" (Some false) empty_state = Some (a', σ') ∧
    OakInk2__Affordance.obj_instance_id a' =
    OakInk2__Affordance.obj_instance_id a.
Proof.
  destruct (load_affordance 4 "O1_lid" (Some false) empty_state)
    as [[a σ]|] eqn:Hl; [|by vm_compute in Hl].
  destruct (load_affordance 4 "O1_knob" (Some false) empty_state)
    as [[a' σ']|] eqn:Hl'; [|by vm_compute in Hl'].
  exists a, a', σ, σ'. split_and!; [done..|].
  eapply (load_affordance_part_instance 4 4 "O1_lid" (Some false) (Some false)
            "O1_knob" a a' empty_state σ empty_state σ');
    [exact kettle_tree_single_parent | exact Hl | | exact Hl'].
  vm_compute in Hl. injection Hl as <- <-. compute_done.
Defined.

Lemma load_affordance_returns_witness :
  ∃ a, load_affordance 3 "O1_knob" (Some false) empty_state =
         Some (a, empty_state) ∧
       OakInk2__Affordance.obj_id a = "O1_knob"%string ∧
       OakInk2__Affordance.instantiated a = false.
Proof.
  eapply (load_affordance_returns 3 "O1_knob" empty_state);
    [exact kettle_tree_acyclic | compute_done..].
Defined.

End EvaluationMore.
